(** * HierBasis: the hierarchical proximal operator and the additive fitter

    A shallow embedding of [src/helper_functions.cpp] (package HierBasis):
    [cpp_max], [GetProxOne], [GetProx], [solveHierBasis] with its lambda
    path and its default [max_lambda], and the block coordinate descent of
    [FitAdditive].

    Numbers.  A C++ [double] is modelled by the type [double] below: a real
    number, or one of the IEEE 754 special values +inf, -inf and NaN.  The
    arithmetic on finite values is exact (no rounding, no overflow, a single
    zero); the special values follow IEEE 754, so that the divisions by a zero
    norm that the source performs are computed as the machine computes them.
    The statements about values are about finite inputs, given as lists of
    real numbers: NaN and infinite inputs are outside the data model of the
    specification.  The statements proved on this embedding are those that
    rounding does not decide: bounds, signs, exact zeros, shapes, errors and
    the structure of the loops.  Where rounding decides, the same code is
    run on binary64 numbers (the functions whose names end in [64]).  An
    [int] is an integer of [Z] or a natural number; the counter of
    [FitAdditive] stays within the range of an [int] when [max_iter] does.

    Containers.  An [arma::vec] is a list; an [arma::mat] is its number of
    rows and the list of its columns (Armadillo stores matrices column by
    column); an [arma::cube] is the list of its slices.  Armadillo raises an
    error on an index out of bounds and on operands whose sizes do not
    conform; the embedding returns [None] there.

    Armadillo.  [norm], [max], [linspace], [sum], the products and the
    element-wise operations are Armadillo's; they are embedded as
    Armadillo documents them.  The QR factorization and the triangular
    solve of [solveHierBasis] are LAPACK's; they are parameters of the
    function. *)

From Corelib Require Import PrimFloat.
From Stdlib Require Import Reals Lra Lia List Bool ZArith Sorted.
Import ListNotations.

Local Open Scope R_scope.

(** ** The numbers *)

Inductive double : Type :=
| Fin (r : R)
| PInf
| NInf
| NaN.

Declare Scope double_scope.
Delimit Scope double_scope with D.
Bind Scope double_scope with double.

Definition Rltb (a b : R) : bool := if Rlt_dec a b then true else false.
Definition Reqb (a b : R) : bool := if Req_dec_T a b then true else false.

(** The sign of a real number, as a three-way test. *)
Definition Rsign (a : R) : comparison :=
  if Rltb a 0 then Lt else if Rltb 0 a then Gt else Eq.

Definition of_int (z : Z) : double := Fin (IZR z).

Definition dneg (x : double) : double :=
  match x with
  | Fin a => Fin (- a)
  | PInf => NInf
  | NInf => PInf
  | NaN => NaN
  end.

Definition dadd (x y : double) : double :=
  match x, y with
  | NaN, _ | _, NaN => NaN
  | Fin a, Fin b => Fin (a + b)
  | PInf, NInf | NInf, PInf => NaN
  | PInf, _ | _, PInf => PInf
  | NInf, _ | _, NInf => NInf
  end.

Definition dsub (x y : double) : double := dadd x (dneg y).

(** An infinity times a finite factor: NaN for a zero factor, otherwise the
    infinity with the product of the signs. *)
Definition inf_times (positive : bool) (a : R) : double :=
  match Rsign a with
  | Eq => NaN
  | Gt => if positive then PInf else NInf
  | Lt => if positive then NInf else PInf
  end.

Definition dmul (x y : double) : double :=
  match x, y with
  | NaN, _ | _, NaN => NaN
  | Fin a, Fin b => Fin (a * b)
  | Fin a, PInf | PInf, Fin a => inf_times true a
  | Fin a, NInf | NInf, Fin a => inf_times false a
  | PInf, PInf | NInf, NInf => PInf
  | PInf, NInf | NInf, PInf => NInf
  end.

(** Division.  A finite non-zero value over zero is an infinity, zero over
    zero is NaN, a finite value over an infinity is zero.  The only zero
    divisors of the source are norms, which are never the negative zero. *)
Definition ddiv (x y : double) : double :=
  match x, y with
  | NaN, _ | _, NaN => NaN
  | Fin a, Fin b =>
      if Reqb b 0 then
        match Rsign a with
        | Eq => NaN
        | Gt => PInf
        | Lt => NInf
        end
      else Fin (a / b)
  | Fin _, (PInf | NInf) => Fin 0
  | PInf, Fin b => if Rltb b 0 then NInf else PInf
  | NInf, Fin b => if Rltb b 0 then PInf else NInf
  | (PInf | NInf), (PInf | NInf) => NaN
  end.

Definition dsqrt (x : double) : double :=
  match x with
  | Fin a => if Rltb a 0 then NaN else Fin (sqrt a)
  | PInf => PInf
  | NInf | NaN => NaN
  end.

(** [fabs] and [arma::abs]. *)
Definition dabs (x : double) : double :=
  match x with
  | Fin a => Fin (Rabs a)
  | PInf | NInf => PInf
  | NaN => NaN
  end.

(** [x < y]; every comparison with NaN is false. *)
Definition dltb (x y : double) : bool :=
  match x, y with
  | NaN, _ | _, NaN => false
  | Fin a, Fin b => Rltb a b
  | NInf, (Fin _ | PInf) => true
  | Fin _, PInf => true
  | _, _ => false
  end.

(** [x > y]. *)
Definition dgtb (x y : double) : bool := dltb y x.

(** [log10] and [exp10]. *)
Definition dlog10 (x : double) : double :=
  match x with
  | Fin a =>
      match Rsign a with
      | Gt => Fin (ln a / ln 10)
      | Eq => NInf
      | Lt => NaN
      end
  | PInf => PInf
  | NInf | NaN => NaN
  end.

Definition dexp10 (x : double) : double :=
  match x with
  | Fin a => Fin (exp (a * ln 10))
  | PInf => PInf
  | NInf => Fin 0
  | NaN => NaN
  end.

Notation "0" := (Fin 0) : double_scope.
Notation "1" := (Fin 1) : double_scope.
Infix "+" := dadd : double_scope.
Infix "-" := dsub : double_scope.
Infix "*" := dmul : double_scope.
Infix "/" := ddiv : double_scope.
Infix "<?" := dltb : double_scope.
Infix ">?" := dgtb (at level 70, no associativity) : double_scope.

(** ** Vectors *)

Definition vec : Type := list double.

Definition zeros (n : nat) : vec := repeat 0%D n.

(** A scalar times a vector. *)
Definition scale (c : double) (v : vec) : vec := map (dmul c) v.

(** A vector over a scalar. *)
Definition vdivs (v : vec) (c : double) : vec := map (fun x => x / c)%D v.

(** [arma::norm] of a vector: the 2-norm. *)
Definition norm (v : vec) : double :=
  dsqrt (fold_left (fun acc x => acc + x * x)%D v 0%D).

(** Armadillo's maximum of the elements of a dense vector: a running maximum
    that starts from -inf and is replaced by each element that compares
    greater, so a NaN element is never taken. *)
Definition direct_max (v : vec) : double :=
  fold_left (fun m x => if (x >? m)%D then x else m) v NInf.

(** [arma::max] of a vector raises an error on a vector with no elements. *)
Definition arma_max (v : vec) : option double :=
  match v with
  | [] => None
  | _ => Some (direct_max v)
  end.

(** [cpp_max]: the two scalars are stored in a vector of two elements, and
    the maximum of the vector is returned. *)
Definition cpp_max (x y : double) : double := direct_max [x; y].

(** ** GetProxOne *)

(** The scaling factor of the loop body:
    [cpp_max(1 - weights(j) / norm(beta.subvec(j, p - 1)), 0)]. *)
Definition shrink (wj : double) (suffix : vec) : double :=
  cpp_max (1 - wj / norm suffix)%D 0%D.

(** One iteration of the main loop: the entries [j .. p-1] of [beta] are
    replaced by the scaling factor times themselves. *)
Definition prox_step (weights beta : vec) (j : nat) : option vec :=
  match nth_error weights j with
  | None => None
  | Some wj =>
      let suffix := skipn j beta in
      Some (firstn j beta ++ scale (shrink wj suffix) suffix)
  end.

(** [for (j = k - 1; j >= 0; --j)]. *)
Fixpoint prox_loop (weights : vec) (k : nat) (beta : vec) : option vec :=
  match k with
  | O => Some beta
  | S j =>
      match prox_step weights beta j with
      | None => None
      | Some beta' => prox_loop weights j beta'
      end
  end.

Definition GetProxOne (y weights : vec) : option vec :=
  let p := length y in
  let beta := y in
  prox_loop weights p beta.

(** ** Errors, loops and matrices *)

Definition bind {A B : Type} (m : option A) (k : A -> option B) : option B :=
  match m with
  | Some a => k a
  | None => None
  end.

Notation "x <- m ;; k" := (bind m (fun x => k))
  (at level 61, m at next level, right associativity).
Notation "' pat <- m ;; k" := (bind m (fun x => match x with pat => k end))
  (at level 61, pat pattern, m at next level, right associativity).

(** [for (i in idx) s = body(s, i)], stopping at the first error. *)
Fixpoint for_each {S : Type} (body : S -> nat -> option S) (idx : list nat)
  (s : S) : option S :=
  match idx with
  | [] => Some s
  | i :: rest => s' <- body s i ;; for_each body rest s'
  end.

(** [arma::mat] and [arma::sp_mat] (a sparse matrix holds the same values,
    the zeros are not stored). *)
Record mat : Type := Mat { n_rows : nat; columns : list vec }.

Definition n_cols (M : mat) : nat := length (columns M).

Definition zeros_mat (r c : nat) : mat := Mat r (repeat (zeros r) c).

(** [M.col(i)], read. *)
Definition col (M : mat) (i : nat) : option vec := nth_error (columns M) i.

Fixpoint list_set {A : Type} (i : nat) (x : A) (l : list A) : list A :=
  match l, i with
  | [], _ => []
  | _ :: t, O => x :: t
  | h :: t, S i' => h :: list_set i' x t
  end.

(** [M.col(i) = v]. *)
Definition set_col (M : mat) (i : nat) (v : vec) : option mat :=
  if (i <? n_cols M)%nat && (length v =? n_rows M)%nat
  then Some (Mat (n_rows M) (list_set i v (columns M)))
  else None.

(** [vectorise(M)]: the columns, one after the other. *)
Definition vectorise (M : mat) : vec := concat (columns M).

(** ** GetProx *)

(** The body of the inner loop of [GetProx], on [temp_beta] with
    [temp_weights]. *)
Definition GetProx_step (temp_weights temp_beta : vec) (j : nat) : option vec :=
  match nth_error temp_weights j with
  | None => None
  | Some wj =>
      Some (firstn j temp_beta ++
            scale (cpp_max (1 - wj / norm (skipn j temp_beta))%D 0%D)
                  (skipn j temp_beta))
  end.

Fixpoint GetProx_inner (temp_weights : vec) (k : nat) (temp_beta : vec)
  : option vec :=
  match k with
  | O => Some temp_beta
  | S j =>
      match GetProx_step temp_weights temp_beta j with
      | None => None
      | Some b => GetProx_inner temp_weights j b
      end
  end.

(** The body of the loop over the columns.  The state is the matrix [beta]
    and the vector [temp_weights], which is declared outside the loop. *)
Definition GetProx_column (y : vec) (weights : mat) (st : mat * vec) (i : nat)
  : option (mat * vec) :=
  let p := length y in
  let beta := fst st in
  temp_weights <- col weights i ;;
  let temp_beta := y in
  temp_beta <- GetProx_inner temp_weights p temp_beta ;;
  beta <- set_col beta i temp_beta ;;
  Some (beta, temp_weights).

Definition GetProx (y : vec) (weights : mat) : option mat :=
  let p := length y in
  let nlam := n_cols weights in
  let beta := zeros_mat p nlam in
  let temp_weights : vec := [] in
  st <- for_each (GetProx_column y weights) (seq 0 nlam) (beta, temp_weights) ;;
  Some (fst st).

(** ** solveHierBasis: the default max_lambda, the lambda path and the
    proximal step

    [solveHierBasis_prox] is the part of [solveHierBasis] between the QR
    factorization and the triangular solve: from [v_temp], the vector
    [x_mat.t() * (y / n)], to [beta_hat].  The whole function follows
    [FitAdditive] below. *)

(** An operation on two vectors, element by element. *)
Definition vzip (f : double -> double -> double) (u v : vec) : option vec :=
  if (length u =? length v)%nat
  then Some (map (fun ab => f (fst ab) (snd ab)) (combine u v))
  else None.

Definition vabs (v : vec) : vec := map dabs v.

(** [max(abs(v_temp) / ak)]. *)
Definition default_max_lambda (v_temp ak : vec) : option double :=
  q <- vzip ddiv (vabs v_temp) ak ;;
  arma_max q.

(** Armadillo's [linspace(start, end, num)]: [num - 1] points
    [start + i * delta] followed by [end] itself; for [num = 1] the single
    element [end]. *)
Definition linspace (start stop : double) (num : nat) : vec :=
  match num with
  | O => []
  | S O => [stop]
  | S num_m1 =>
      let delta := ((stop - start) / of_int (Z.of_nat num_m1))%D in
      map (fun i => start + of_int (Z.of_nat i) * delta)%D (seq 0 num_m1)
      ++ [stop]
  end.

(** [exp10(linspace(log10(max_lambda), log10(max_lambda * lam_min_ratio),
    nlam))]. *)
Definition lambda_path (max_lambda lam_min_ratio : double) (nlam : nat) : vec :=
  map dexp10
    (linspace (dlog10 max_lambda) (dlog10 (max_lambda * lam_min_ratio)) nlam).

(** [weights.each_row() %= lambdas.t()]: column [i] is multiplied by
    [lambdas(i)]. *)
Definition each_row_times (weights : mat) (lambdas : vec) : option mat :=
  if (n_cols weights =? length lambdas)%nat
  then Some (Mat (n_rows weights)
               (map (fun cl => map (fun x => x * snd cl)%D (fst cl))
                    (combine (columns weights) lambdas)))
  else None.

(** [max_lambda] is [None] for R's NA. *)
Definition solveHierBasis_prox (v_temp ak : vec) (weights : mat)
  (lam_min_ratio : double) (nlam : nat) (max_lambda : option double)
  : option (mat * vec) :=
  max_lambda <- match max_lambda with
                | None => default_max_lambda v_temp ak
                | Some m => Some m
                end ;;
  let lambdas := lambda_path max_lambda lam_min_ratio nlam in
  weights <- each_row_times weights lambdas ;;
  beta_hat <- GetProx v_temp weights ;;
  Some (beta_hat, lambdas).

(** ** FitAdditive *)

Definition cube : Type := list mat.

(** [X.slice(j)]. *)
Definition slice (X : cube) (j : nat) : option mat := nth_error X j.

(** The sum of the products of the entries. *)
Definition dot (u v : vec) : double :=
  fold_left (fun acc ab => acc + fst ab * snd ab)%D (combine u v) 0%D.

(** Row [i] of a matrix. *)
Definition row (M : mat) (i : nat) : vec :=
  map (fun c => nth i c 0%D) (columns M).

(** [M * v]. *)
Definition mat_vec (M : mat) (v : vec) : option vec :=
  if (n_cols M =? length v)%nat
  then Some (map (fun i => dot (row M i) v) (seq 0 (n_rows M)))
  else None.

(** [trans(M) * u]. *)
Definition tmat_vec (M : mat) (u : vec) : option vec :=
  if (n_rows M =? length u)%nat
  then Some (map (fun c => dot c u) (columns M))
  else None.

(** [sum(M, 1)]: the sum of each row. *)
Definition row_sums (M : mat) : vec :=
  map (fun i => fold_left dadd (row M i) 0%D) (seq 0 (n_rows M)).

(** [c] columns of [r] elements each, read from a buffer. *)
Fixpoint chunks (r c : nat) (mem : vec) : list vec :=
  match c with
  | O => []
  | S c' => firstn r mem :: chunks r c' (skipn r mem)
  end.

(** [arma::mat M(mem, r, c, true)]: a copy of the first [r * c] elements of
    a buffer, as an [r] by [c] matrix.  Reading past the end of the buffer
    has no defined result. *)
Definition mat_of_mem (mem : vec) (r c : nat) : option mat :=
  if (r * c <=? length mem)%nat then Some (Mat r (chunks r c mem)) else None.

(** The state that [FitAdditive] threads through its loops: the warm-start
    matrices [beta] and [x_beta], the answer [beta_ans], and the indices of
    the lambda values for which R's [warning] was called. *)
Record fit_state : Type := FitState {
  f_beta : mat;
  f_x_beta : mat;
  f_ans : mat;
  f_warned : list nat
}.

(** The inputs of [FitAdditive] that its loops only read.  [max_iter] is a
    [double] in the source; it is a finite number here, since the loop has
    no bound for an infinite one.  The counter is an [int] that starts from
    0; it is compared with [max_iter] as a [double]. *)
Section BlockCoordinateDescent.

Variables (y : vec) (weights : mat) (X : cube) (tol : double).
Variables (p J : nat) (n : Z) (max_iter : R).

(** The body of the loop over the blocks: the update of block [j]. *)
Definition block_update (temp_weights : vec) (st : mat * mat) (j : nat)
  : option (mat * mat) :=
  let beta := fst st in
  let x_beta := snd st in
  Xj <- slice X j ;;
  beta_j <- col beta j ;;
  Xb <- mat_vec Xj beta_j ;;
  r <- vzip dsub y (row_sums x_beta) ;;
  temp_y <- vzip dadd r Xb ;;
  temp_v <- tmat_vec Xj (vdivs temp_y (of_int n)) ;;
  temp_beta_j <- GetProxOne temp_v temp_weights ;;
  beta <- set_col beta j temp_beta_j ;;
  xb <- mat_vec Xj temp_beta_j ;;
  x_beta <- set_col x_beta j xb ;;
  Some (beta, x_beta).

(** [for (j = 0; j < p; j++)]: one loop of the block coordinate descent. *)
Definition sweep (temp_weights : vec) (st : mat * mat) : option (mat * mat) :=
  for_each (block_update temp_weights) (seq 0 p) st.

(** The convergence test: [fabs(change) < tol], where [change] is
    [norm(vectorise(beta)) - norm(vectorise(old_beta))]. *)
Definition change (beta old_beta : mat) : double :=
  let temp_vec_beta := vectorise old_beta in
  let temp_norm_old := norm temp_vec_beta in
  (norm (vectorise beta) - temp_norm_old)%D.

(** The body of the [while] loop for the lambda value of index [i].  The
    counter is an integer of [Z]: it is the [int counter] of the source as
    long as it stays in the range of an [int], which it does when
    [max_iter <= 2147483647] (lemma [while_counter_int]). *)
Definition iteration (i : nat) (temp_weights : vec)
  (s : fit_state * Z * bool) : option (fit_state * Z * bool) :=
  let '(st, counter, converged) := s in
  old_beta <- mat_of_mem (vectorise (f_beta st)) J p ;;
  bx <- sweep temp_weights (f_beta st, f_x_beta st) ;;
  let beta := fst bx in
  let x_beta := snd bx in
  if (dabs (change beta old_beta) <? tol)%D then
    beta_ans <- set_col (f_ans st) i (vectorise beta) ;;
    Some (FitState beta x_beta beta_ans (f_warned st), counter, true)
  else
    let counter := (counter + 1)%Z in
    let warned :=
      if Reqb (IZR counter) max_iter
      then f_warned st ++ [i]
      else f_warned st in
    Some (FitState beta x_beta (f_ans st) warned, counter, converged).

(** [while (counter < max_iter && !converged)].  The fuel bounds the
    number of iterations; [None] when it runs out, which the fuel that
    [lambda_run] gives never does (lemma [while_fuel]). *)
Fixpoint while_loop (fuel : nat) (i : nat) (temp_weights : vec)
  (s : fit_state * Z * bool) {struct fuel} : option (fit_state * Z * bool) :=
  let '(_, counter, converged) := s in
  if Rltb (IZR counter) max_iter && negb converged then
    match fuel with
    | O => None
    | S fuel' =>
        s' <- iteration i temp_weights s ;;
        while_loop fuel' i temp_weights s'
    end
  else Some s.

(** The body of the main loop: the lambda value of index [i].  The
    counter cannot pass [up max_iter], the least integer above
    [max_iter]. *)
Definition lambda_run (st : fit_state) (i : nat) : option fit_state :=
  wcol <- col weights i ;;
  let temp_weights := vdivs wcol (of_int n) in
  let counter := 0%Z in
  let converged := false in
  s <- while_loop (Z.to_nat (up max_iter)) i temp_weights
         (st, counter, converged) ;;
  Some (fst (fst s)).

Definition fit_path (nlam : nat) (st : fit_state) : option fit_state :=
  for_each lambda_run (seq 0 nlam) st.

End BlockCoordinateDescent.

(** The result is the matrix [beta_ans] and the warnings that were raised
    on the way. *)
Definition FitAdditive (y : vec) (weights x_beta : mat) (x : cube) (beta : mat)
  (tol : double) (p J : nat) (n : Z) (nlam : nat) (max_iter : R)
  : option (mat * list nat) :=
  let beta_ans := zeros_mat (p * J) nlam in
  st <- fit_path y weights x tol p J n max_iter nlam
          (FitState beta x_beta beta_ans []) ;;
  Some (f_ans st, f_warned st).

(** ** solveHierBasis *)

(** A matrix times a scalar, and a matrix over a scalar. *)
Definition mat_times (M : mat) (c : double) : mat :=
  Mat (n_rows M) (map (map (fun x => x * c)%D) (columns M)).

Definition mat_over (M : mat) (c : double) : mat :=
  Mat (n_rows M) (map (fun v => vdivs v c) (columns M)).

(** [arma::qr_econ] and [solve(trimatu(R), B)] are LAPACK's: the function
    takes them as parameters. *)
Section SolveHierBasis.

Variable qr_econ : mat -> option (mat * mat).
Variable solve_trimatu : mat -> mat -> option mat.

Definition solveHierBasis (design_mat : mat) (y ak : vec) (weights : mat)
  (n : Z) (lam_min_ratio : double) (nlam : nat) (max_lambda : option double)
  : option (mat * vec) :=
  qr <- qr_econ design_mat ;;
  let x_mat := mat_times (fst qr) (dsqrt (of_int n)) in
  let R_mat := mat_over (snd qr) (dsqrt (of_int n)) in
  v_temp <- tmat_vec x_mat (vdivs y (of_int n)) ;;
  bl <- solveHierBasis_prox v_temp ak weights lam_min_ratio nlam max_lambda ;;
  let beta_hat := fst bl in
  let lambdas := snd bl in
  beta_hat2 <- solve_trimatu R_mat beta_hat ;;
  Some (beta_hat2, lambdas).

End SolveHierBasis.

(** ** The same code on binary64 numbers

    [cpp_max], the loop of [GetProxOne] and the default [max_lambda] once
    more, on the binary64 numbers of Rocq's kernel, whose operations round
    as the operations on a C++ [double] do.  They are used to run the code
    on concrete inputs. *)

(** [arma::max] of a vector: the running maximum from -inf. *)
Definition direct_max64 (v : list float) : float :=
  fold_left (fun m x => if (m <? x)%float then x else m) v neg_infinity.

Definition cpp_max64 (x y : float) : float := direct_max64 [x; y].

(** [arma::norm]: the square root of the sum of the squares, summed from
    the first element on.  The source does not fix the order in which
    Armadillo sums; the runs stated below are on vectors for which every
    order gives the same sum, a positive finite number. *)
Definition norm64 (v : list float) : float :=
  PrimFloat.sqrt (fold_left (fun acc x => acc + x * x)%float v 0%float).

Definition scale64 (c : float) (v : list float) : list float :=
  map (fun x => c * x)%float v.

Definition shrink64 (wj : float) (suffix : list float) : float :=
  cpp_max64 (1 - wj / norm64 suffix)%float 0%float.

Definition prox_step64 (weights beta : list float) (j : nat)
  : option (list float) :=
  match nth_error weights j with
  | None => None
  | Some wj =>
      let suffix := skipn j beta in
      Some (firstn j beta ++ scale64 (shrink64 wj suffix) suffix)
  end.

Fixpoint prox_loop64 (weights : list float) (k : nat) (beta : list float)
  : option (list float) :=
  match k with
  | O => Some beta
  | S j =>
      match prox_step64 weights beta j with
      | None => None
      | Some beta' => prox_loop64 weights j beta'
      end
  end.

Definition GetProxOne64 (y weights : list float) : option (list float) :=
  let p := length y in
  let beta := y in
  prox_loop64 weights p beta.


(** * Definitions for the statements *)

(** ** Finite data: the real numbers behind the doubles *)

(** The sum of the squares. *)
Fixpoint sum_sq (l : list R) : R :=
  match l with
  | [] => 0
  | x :: t => x * x + sum_sq t
  end.

(** The 2-norm of a list of real numbers. *)
Definition norm_R (l : list R) : R := sqrt (sum_sq l).

(** The value of the scaling factor for a finite weight [w >= 0] and a
    suffix of norm [s]: zero for a zero norm. *)
Definition factor (w s : R) : R :=
  if Reqb s 0 then 0 else Rmax (1 - w / s) 0.

(** The result of [GetProxOne] on finite data with weights [>= 0], as a
    function on lists of real numbers. *)
Fixpoint prox_R (y w : list R) : list R :=
  match y, w with
  | y0 :: ys, w0 :: ws =>
      let b := prox_R ys ws in
      map (Rmult (factor w0 (norm_R (y0 :: b)))) (y0 :: b)
  | _, _ => []
  end.

(** ** Nested sparsity *)

(** The hierarchy invariant as the specification words it. *)
Definition nested_sparsity (beta : vec) : Prop :=
  forall j k, (j < k < length beta)%nat ->
    nth_error beta j = Some 0%D -> nth_error beta k = Some 0%D.

(** The entries of index [j] or more are zero. *)
Definition zero_from (j : nat) (beta : vec) : Prop :=
  forall k, (j <= k < length beta)%nat -> nth_error beta k = Some 0%D.

(** ** Lists of results *)

(** [f] on every element, in order; an error if one of them is. *)
Fixpoint map_opt {A B : Type} (f : A -> option B) (l : list A)
  : option (list B) :=
  match l with
  | [] => Some []
  | a :: t => b <- f a ;; bs <- map_opt f t ;; Some (b :: bs)
  end.

(** ** The default max_lambda and the lambda path, on real numbers *)

(** The quotients [|v(j)| / ak(j)]. *)
Definition ratios (v ak : list R) : list R :=
  map (fun va => Rabs (fst va) / snd va) (combine v ak).

(** The running maximum on real numbers. *)
Definition max_R (a : R) (l : list R) : R :=
  fold_left (fun m x => if Rltb m x then x else m) l a.

(** ** Fits that agree on their first columns *)

(** Two answers that agree on their first [k] columns. *)
Definition ans_agree (k : nat) (A A' : mat) : Prop :=
  n_rows A = n_rows A' /\ (k <= n_cols A)%nat /\ (k <= n_cols A')%nat /\
  forall i, (i < k)%nat -> col A i = col A' i.

(** Two states with the same [beta], [x_beta] and warnings, and answers
    that agree on their first [k] columns. *)
Definition state_agree (k : nat) (s s' : fit_state) : Prop :=
  f_beta s = f_beta s' /\ f_x_beta s = f_x_beta s' /\
  f_warned s = f_warned s' /\ ans_agree k (f_ans s) (f_ans s').

(** Two results that are both errors, or both values and related. *)
Definition opt_rel {A : Type} (Rel : A -> A -> Prop) (a b : option A) : Prop :=
  match a, b with
  | Some x, Some x' => Rel x x'
  | None, None => True
  | _, _ => False
  end.

(** Two states of the [while] loop that agree, with the same counter and
    flag. *)
Definition loop_agree (k : nat) (a b : fit_state * Z * bool) : Prop :=
  state_agree k (fst (fst a)) (fst (fst b)) /\
  snd (fst a) = snd (fst b) /\ snd a = snd b.

(** ** A fit with one observation, one block and one basis function *)

(** The design with the single entry 1. *)
Definition X1 : cube := [Mat 1 [[Fin 1]]].

(** The matrix with the single entry [b]. *)
Definition M1 (b : R) : mat := Mat 1 [[Fin b]].

(** [GetProxOne] on one entry: soft thresholding. *)
Definition soft (v w : R) : R := factor w (Rabs v) * v.

(** The weight matrix with the two columns [(a)] and [(b)]. *)
Definition W2 (a b : R) : mat := Mat 1 [[Fin a]; [Fin b]].

(** The factorization of the design with the single entry 1, and the
    solve of a system whose matrix is the identity. *)
Definition qr_one (design_mat : mat) : option (mat * mat) :=
  Some (Mat 1 [[Fin 1]], Mat 1 [[Fin 1]]).

Definition solve_one (R_mat B : mat) : option mat := Some B.

(** ** Shapes *)

(** A matrix whose columns all have [n_rows] entries, as every Armadillo
    matrix has. *)
Definition wf_mat (M : mat) : Prop :=
  Forall (fun c => length c = n_rows M) (columns M).

(** The inputs of [FitAdditive] with the shapes that its loops read: [N]
    observations, [p] blocks of [J] basis functions, one column of at least
    [J] weights for each of the [nlam] lambda values. *)
Record well_shaped (N p J nlam : nat) (y : vec) (W x_beta : mat) (X : cube)
  (beta : mat) : Prop := WellShaped {
  ws_y : length y = N;
  ws_X : length X = p;
  ws_slices : Forall (fun Xj => n_rows Xj = N /\ n_cols Xj = J) X;
  ws_beta_rows : n_rows beta = J;
  ws_beta_cols : n_cols beta = p;
  ws_beta : wf_mat beta;
  ws_x_beta_rows : n_rows x_beta = N;
  ws_x_beta_cols : n_cols x_beta = p;
  ws_weights : (nlam <= n_cols W)%nat;
  ws_weight_rows : Forall (fun c => (J <= length c)%nat) (columns W)
}.

(** The shapes that the loops of [FitAdditive] keep: [beta] is [J] by [p],
    [x_beta] is [N] by [p], and the answer is [p * J] by [nlam]. *)
Definition fit_shapes (N p J : nat) (beta x_beta : mat) : Prop :=
  n_rows beta = J /\ n_cols beta = p /\ wf_mat beta /\
  n_rows x_beta = N /\ n_cols x_beta = p.

Definition state_shapes (N p J nlam : nat) (st : fit_state) : Prop :=
  fit_shapes N p J (f_beta st) (f_x_beta st) /\
  n_rows (f_ans st) = (p * J)%nat /\ n_cols (f_ans st) = nlam /\
  wf_mat (f_ans st).

(** After the update of block [j], column [j] of [x_beta] is the product of
    the design of the block and column [j] of [beta]. *)
Definition block_consistent (X : cube) (beta x_beta : mat) (j : nat) : Prop :=
  exists (Xj : mat) (bj xbj : vec),
    slice X j = Some Xj /\ col beta j = Some bj /\
    mat_vec Xj bj = Some xbj /\ col x_beta j = Some xbj.

(** ** Finite data *)

(** A double that is a number: no NaN and no infinity. *)
Definition finite (x : double) : Prop := exists a : R, x = Fin a.

Definition finite_vec (v : vec) : Prop := Forall finite v.

Definition finite_mat (M : mat) : Prop := Forall finite_vec (columns M).

(** A vector of finite numbers [>= 0]. *)
Definition nonneg_vec (v : vec) : Prop :=
  Forall (fun x => exists a : R, 0 <= a /\ x = Fin a) v.

(** * Properties *)

(** ** The tests on real numbers *)

Lemma Rltb_true (a b : R) : a < b -> Rltb a b = true.
Proof. intros H. unfold Rltb. destruct (Rlt_dec a b); [reflexivity | contradiction]. Qed.

Lemma Rltb_false (a b : R) : b <= a -> Rltb a b = false.
Proof. intros H. unfold Rltb. destruct (Rlt_dec a b); [lra | reflexivity]. Qed.

Lemma Reqb_true (a b : R) : a = b -> Reqb a b = true.
Proof. intros H. unfold Reqb. destruct (Req_dec_T a b); [reflexivity | contradiction]. Qed.

Lemma Reqb_false (a b : R) : a <> b -> Reqb a b = false.
Proof. intros H. unfold Reqb. destruct (Req_dec_T a b); [contradiction | reflexivity]. Qed.

Lemma Rsign_pos (a : R) : 0 < a -> Rsign a = Gt.
Proof.
  intros H. unfold Rsign.
  rewrite Rltb_false by lra. rewrite Rltb_true by lra. reflexivity.
Qed.

Lemma Rsign_zero : Rsign 0 = Eq.
Proof. unfold Rsign. rewrite !Rltb_false by lra. reflexivity. Qed.

Lemma Rsign_neg (a : R) : a < 0 -> Rsign a = Lt.
Proof. intros H. unfold Rsign. rewrite Rltb_true by lra. reflexivity. Qed.

(** ** The maximum of two scalars *)

Lemma cpp_max_fin (a : R) : cpp_max (Fin a) 0%D = Fin (Rmax a 0).
Proof.
  unfold cpp_max, direct_max, dgtb. simpl.
  unfold Rmax. destruct (Rle_dec a 0) as [Hle | Hgt].
  - destruct (Rlt_dec a 0) as [Hlt | Hge].
    + rewrite Rltb_true by lra. reflexivity.
    + rewrite Rltb_false by lra. f_equal. lra.
  - rewrite Rltb_false by lra. reflexivity.
Qed.

Lemma cpp_max_ninf : cpp_max NInf 0%D = 0%D.
Proof. reflexivity. Qed.

Lemma cpp_max_nan : cpp_max NaN 0%D = 0%D.
Proof. reflexivity. Qed.

Lemma cpp_max_pinf : cpp_max PInf 0%D = PInf.
Proof. reflexivity. Qed.

(** ** The norm of a finite vector *)

Lemma sum_sq_nonneg (l : list R) : 0 <= sum_sq l.
Proof. induction l as [| x t IH]; simpl; [lra | nra]. Qed.

Lemma fold_sq_fin (l : list R) (a : R) :
  fold_left (fun acc x => acc + x * x)%D (map Fin l) (Fin a)
  = Fin (a + sum_sq l).
Proof.
  revert a. induction l as [| x t IH]; intros a; simpl.
  - f_equal. lra.
  - rewrite IH. f_equal. lra.
Qed.

Lemma norm_fin (l : list R) : norm (map Fin l) = Fin (norm_R l).
Proof.
  unfold norm, norm_R. rewrite fold_sq_fin. simpl.
  rewrite Rltb_false by (pose proof (sum_sq_nonneg l); lra).
  do 2 f_equal. lra.
Qed.

Lemma norm_R_nonneg (l : list R) : 0 <= norm_R l.
Proof. apply sqrt_pos. Qed.

Lemma sum_sq_zero (l : list R) : sum_sq l = 0 -> Forall (fun x => x = 0) l.
Proof.
  induction l as [| x t IH]; simpl; intros H; constructor.
  - pose proof (sum_sq_nonneg t). nra.
  - apply IH. pose proof (sum_sq_nonneg t). nra.
Qed.

Lemma norm_R_zero (l : list R) : norm_R l = 0 -> Forall (fun x => x = 0) l.
Proof.
  intros H. apply sum_sq_zero. apply sqrt_eq_0; [apply sum_sq_nonneg | exact H].
Qed.

Lemma scale_fin (c : R) (l : list R) :
  scale (Fin c) (map Fin l) = map Fin (map (Rmult c) l).
Proof. unfold scale. rewrite !map_map. reflexivity. Qed.

(** ** The scaling factor on finite data *)

Lemma shrink_fin (w : R) (l : list R) :
  0 <= w -> shrink (Fin w) (map Fin l) = Fin (factor w (norm_R l)).
Proof.
  intros Hw. unfold shrink, factor. rewrite norm_fin.
  pose proof (norm_R_nonneg l) as Hs.
  unfold ddiv. destruct (Req_dec_T (norm_R l) 0) as [Hz | Hnz].
  - rewrite !Reqb_true by assumption.
    destruct (Req_dec_T w 0) as [Hw0 | Hw1].
    + subst w. rewrite Rsign_zero. reflexivity.
    + rewrite Rsign_pos by lra. reflexivity.
  - rewrite !Reqb_false by assumption.
    unfold dsub, dneg, dadd. rewrite cpp_max_fin.
    f_equal.
Qed.

Lemma factor_range (w s : R) : 0 <= w -> 0 <= s -> 0 <= factor w s <= 1.
Proof.
  intros Hw Hs. unfold factor, Reqb.
  destruct (Req_dec_T s 0) as [Hz | Hnz]; [lra |].
  assert (0 <= w / s).
  { apply Rmult_le_pos; [assumption |]. left. apply Rinv_0_lt_compat. lra. }
  unfold Rmax. destruct (Rle_dec (1 - w / s) 0); lra.
Qed.

(** ** The loop of GetProxOne, entry by entry *)

Lemma prox_step_cons (w0 y0 : double) (ws b : vec) (j : nat) :
  prox_step (w0 :: ws) (y0 :: b) (S j)
  = match prox_step ws b j with
    | Some b' => Some (y0 :: b')
    | None => None
    end.
Proof.
  unfold prox_step. simpl.
  destruct (nth_error ws j); reflexivity.
Qed.

(** The iterations [j = k, ..., 1] leave the first entry alone and run on
    the tail as the loop for the tail does; the iteration [j = 0] then
    scales the whole vector. *)
Lemma prox_loop_cons (w0 y0 : double) (ws : vec) (k : nat) (b : vec) :
  prox_loop (w0 :: ws) (S k) (y0 :: b)
  = match prox_loop ws k b with
    | Some b' => Some (scale (shrink w0 (y0 :: b')) (y0 :: b'))
    | None => None
    end.
Proof.
  revert b. induction k as [| j IH]; intros b.
  - reflexivity.
  - change (prox_loop (w0 :: ws) (S (S j)) (y0 :: b))
      with (match prox_step (w0 :: ws) (y0 :: b) (S j) with
            | None => None
            | Some beta' => prox_loop (w0 :: ws) (S j) beta'
            end).
    rewrite prox_step_cons.
    change (prox_loop ws (S j) b)
      with (match prox_step ws b j with
            | None => None
            | Some beta' => prox_loop ws j beta'
            end).
    destruct (prox_step ws b j) as [b' |]; [apply IH | reflexivity].
Qed.

Lemma GetProxOne_nil (weights : vec) : GetProxOne [] weights = Some [].
Proof. reflexivity. Qed.

Lemma GetProxOne_cons (y0 w0 : double) (ys ws : vec) :
  GetProxOne (y0 :: ys) (w0 :: ws)
  = match GetProxOne ys ws with
    | Some b => Some (scale (shrink w0 (y0 :: b)) (y0 :: b))
    | None => None
    end.
Proof. unfold GetProxOne. simpl length. apply prox_loop_cons. Qed.

Lemma GetProxOne_short (y0 : double) (ys : vec) :
  GetProxOne (y0 :: ys) [] = None.
Proof.
  unfold GetProxOne. simpl. unfold prox_step.
  destruct (length ys); reflexivity.
Qed.

(** [GetProxOne] returns when there is a weight for every entry, and
    raises an error otherwise. *)
Lemma GetProxOne_total (y weights : vec) :
  (length y <= length weights)%nat -> exists beta, GetProxOne y weights = Some beta.
Proof.
  revert weights. induction y as [| y0 ys IH]; intros weights Hlen.
  - exists []. reflexivity.
  - destruct weights as [| w0 ws]; [simpl in Hlen; lia |].
    destruct (IH ws) as [b Hb]; [simpl in Hlen; lia |].
    rewrite GetProxOne_cons, Hb. eexists. reflexivity.
Qed.

Lemma GetProxOne_too_few_weights (y weights : vec) :
  (length weights < length y)%nat -> GetProxOne y weights = None.
Proof.
  revert weights. induction y as [| y0 ys IH]; intros weights Hlen.
  - simpl in Hlen. lia.
  - destruct weights as [| w0 ws]; [apply GetProxOne_short |].
    rewrite GetProxOne_cons, IH by (simpl in Hlen; lia). reflexivity.
Qed.

Lemma GetProxOne_fin (y w : list R) :
  Forall (fun x => 0 <= x) w -> (length y <= length w)%nat ->
  GetProxOne (map Fin y) (map Fin w) = Some (map Fin (prox_R y w)).
Proof.
  revert w. induction y as [| y0 ys IH]; intros w Hw Hlen.
  - reflexivity.
  - destruct w as [| w0 ws]; [simpl in Hlen; lia |].
    inversion Hw as [| ? ? Hw0 Hws]; subst.
    simpl map. rewrite GetProxOne_cons.
    rewrite IH by (simpl in Hlen; auto with arith).
    change (Fin y0 :: map Fin (prox_R ys ws))
      with (map Fin (y0 :: prox_R ys ws)).
    rewrite shrink_fin by assumption.
    rewrite scale_fin. reflexivity.
Qed.

Lemma prox_R_length (y w : list R) :
  (length y <= length w)%nat -> length (prox_R y w) = length y.
Proof.
  revert w. induction y as [| y0 ys IH]; intros w Hlen; [reflexivity |].
  destruct w as [| w0 ws]; [simpl in Hlen; lia |].
  simpl. rewrite length_map. f_equal. apply IH. simpl in Hlen. lia.
Qed.

Lemma nth_map_Rmult (c : R) (l : list R) (k : nat) :
  nth k (map (Rmult c) l) 0 = c * nth k l 0.
Proof.
  revert k. induction l as [| x t IH]; intros [| k]; simpl; try lra.
  apply IH.
Qed.

(** Every entry of the result is the entry of the input times a factor
    between 0 and 1. *)
Lemma prox_R_factor (y w : list R) (k : nat) :
  Forall (fun x => 0 <= x) w ->
  exists c, 0 <= c <= 1 /\ nth k (prox_R y w) 0 = c * nth k y 0.
Proof.
  revert w k. induction y as [| y0 ys IH]; intros w k Hw.
  - exists 1. split; [lra |]. destruct k; simpl; lra.
  - destruct w as [| w0 ws].
    + exists 0. split; [lra |]. destruct k; simpl; lra.
    + inversion Hw as [| ? ? Hw0 Hws]; subst.
      cbn [prox_R]. rewrite nth_map_Rmult.
      set (c0 := factor w0 (norm_R (y0 :: prox_R ys ws))).
      assert (Hc0 : 0 <= c0 <= 1)
        by (apply factor_range; [assumption | apply norm_R_nonneg]).
      destruct k as [| k]; cbn [nth].
      * exists c0. split; [assumption | reflexivity].
      * destruct (IH ws k Hws) as [c [Hc Hk]].
        exists (c0 * c). split; [nra |]. rewrite Hk. lra.
Qed.

(** When the factor of step [j] is zero, the entries of index [j] or more
    of the result are zero. *)
Lemma prox_R_zero_factor (y w : list R) (j : nat) (yj wj : R) :
  nth_error y j = Some yj -> nth_error w j = Some wj ->
  factor wj (norm_R (yj :: prox_R (skipn (S j) y) (skipn (S j) w))) = 0 ->
  forall k, (j <= k)%nat -> nth k (prox_R y w) 0 = 0.
Proof.
  revert y w. induction j as [| j IH]; intros y w Hy Hw Hf k Hk;
    (destruct y as [| y0 ys]; [discriminate |]);
    (destruct w as [| w0 ws]; [discriminate |]);
    cbn [nth_error] in Hy, Hw.
  - injection Hy as Hy. injection Hw as Hw. subst y0 w0.
    cbn [skipn] in Hf. cbn [prox_R]. rewrite nth_map_Rmult, Hf. lra.
  - change (skipn (S (S j)) (y0 :: ys)) with (skipn (S j) ys) in Hf.
    change (skipn (S (S j)) (w0 :: ws)) with (skipn (S j) ws) in Hf.
    cbn [prox_R]. rewrite nth_map_Rmult.
    destruct k as [| k]; [lia |]. cbn [nth].
    rewrite (IH ys ws Hy Hw Hf k) by lia. lra.
Qed.

(** ** Entries of a list of finite numbers *)

Lemma nth_error_map_Fin (l : list R) (k : nat) (x : R) :
  nth_error (map Fin l) k = Some (Fin x) -> nth k l 0 = x.
Proof.
  revert k. induction l as [| a t IH]; intros [| k]; simpl; intros H;
    try discriminate.
  - inversion H. reflexivity.
  - apply IH. exact H.
Qed.

Lemma nth_error_map_Fin_lt (l : list R) (k : nat) :
  (k < length l)%nat -> nth_error (map Fin l) k = Some (Fin (nth k l 0)).
Proof.
  revert k. induction l as [| a t IH]; intros [| k]; simpl; intros H;
    try lia; [reflexivity |].
  apply IH. lia.
Qed.

(** ** GetProx, column by column *)

Lemma map_opt_length {A B : Type} (f : A -> option B) (l : list A)
  (bs : list B) : map_opt f l = Some bs -> length bs = length l.
Proof.
  revert bs. induction l as [| a t IH]; intros bs H; simpl in H.
  - inversion H. reflexivity.
  - destruct (f a) as [b |]; [| discriminate]. simpl in H.
    destruct (map_opt f t) as [bs' |]; [| discriminate].
    inversion H. simpl. f_equal. apply IH. reflexivity.
Qed.

Lemma map_opt_nth {A B : Type} (f : A -> option B) (l : list A)
  (bs : list B) (i : nat) (a : A) :
  map_opt f l = Some bs -> nth_error l i = Some a -> f a = nth_error bs i.
Proof.
  revert bs i. induction l as [| x t IH]; intros bs i H Ha.
  - destruct i; discriminate.
  - simpl in H. destruct (f x) as [b |] eqn:Hx; [| discriminate]. simpl in H.
    destruct (map_opt f t) as [bs' |]; [| discriminate].
    inversion H; subst. destruct i as [| i]; simpl in *.
    + inversion Ha; subst. exact Hx.
    + apply IH; [reflexivity | exact Ha].
Qed.

Lemma GetProx_inner_eq (w : vec) (k : nat) (b : vec) :
  GetProx_inner w k b = prox_loop w k b.
Proof.
  revert b. induction k as [| j IH]; intros b; [reflexivity |].
  simpl. change (GetProx_step w b j) with (prox_step w b j).
  destruct (prox_step w b j); [apply IH | reflexivity].
Qed.

Lemma prox_step_length (w b b' : vec) (j : nat) :
  prox_step w b j = Some b' -> length b' = length b.
Proof.
  unfold prox_step. destruct (nth_error w j); [| discriminate].
  intros H. inversion H. unfold scale.
  rewrite length_app, length_map, <- length_app, firstn_skipn. reflexivity.
Qed.

Lemma prox_loop_length (w : vec) (k : nat) (b b' : vec) :
  prox_loop w k b = Some b' -> length b' = length b.
Proof.
  revert b. induction k as [| j IH]; intros b H; simpl in H.
  - inversion H. reflexivity.
  - destruct (prox_step w b j) as [b1 |] eqn:Hs; [| discriminate].
    rewrite (IH _ H). eapply prox_step_length. exact Hs.
Qed.

Lemma GetProxOne_length (y w b : vec) :
  GetProxOne y w = Some b -> length b = length y.
Proof. apply prox_loop_length. Qed.

Lemma list_set_app {A : Type} (l1 l2 : list A) (x0 x : A) :
  list_set (length l1) x (l1 ++ x0 :: l2) = l1 ++ x :: l2.
Proof. induction l1 as [| a t IH]; simpl; [reflexivity | f_equal; exact IH]. Qed.

Lemma nth_error_middle {A : Type} (l1 l2 : list A) (x : A) :
  nth_error (l1 ++ x :: l2) (length l1) = Some x.
Proof. induction l1 as [| a t IH]; simpl; [reflexivity | exact IH]. Qed.

(** The loop over the columns, started at column [length pre] with the
    columns [done] already stored. *)
Lemma GetProx_loop (y : vec) (W : mat) (rest pre done : list vec) (tw : vec) :
  columns W = pre ++ rest -> length done = length pre ->
  option_map fst
    (for_each (GetProx_column y W) (seq (length pre) (length rest))
       (Mat (length y) (done ++ repeat (zeros (length y)) (length rest)), tw))
  = option_map (fun res => Mat (length y) (done ++ res))
      (map_opt (GetProxOne y) rest).
Proof.
  revert pre done tw. induction rest as [| w rest IH]; intros pre done tw HW Hd.
  - reflexivity.
  - cbn [length seq for_each repeat map_opt].
    unfold GetProx_column at 1. unfold col. rewrite HW, nth_error_middle.
    cbn [bind fst]. rewrite GetProx_inner_eq.
    change (prox_loop w (length y) y) with (GetProxOne y w).
    destruct (GetProxOne y w) as [b |] eqn:Hb; [| reflexivity].
    cbn [bind]. unfold set_col, n_cols. cbn [columns n_rows].
    rewrite (GetProxOne_length _ _ _ Hb), Nat.eqb_refl.
    replace (length pre <? _)%nat with true
      by (symmetry; apply Nat.ltb_lt; rewrite length_app; simpl; lia).
    cbn [andb bind]. rewrite <- Hd, list_set_app.
    replace (done ++ b :: repeat (zeros (length y)) (length rest))
      with ((done ++ [b]) ++ repeat (zeros (length y)) (length rest))
      by (rewrite <- app_assoc; reflexivity).
    replace (S (length done)) with (length (pre ++ [w]))
      by (rewrite length_app; simpl; lia).
    rewrite (IH (pre ++ [w]) (done ++ [b]) w).
    + destruct (map_opt (GetProxOne y) rest) as [res |]; [| reflexivity].
      simpl. rewrite <- app_assoc. reflexivity.
    + rewrite HW, <- app_assoc. reflexivity.
    + rewrite !length_app. simpl. lia.
Qed.

Lemma GetProx_columns (y : vec) (W : mat) :
  GetProx y W
  = option_map (Mat (length y)) (map_opt (GetProxOne y) (columns W)).
Proof.
  unfold GetProx, zeros_mat, n_cols.
  pose proof (GetProx_loop y W (columns W) [] [] [] eq_refl eq_refl) as H.
  etransitivity; [| exact H].
  cbn [length app]. destruct (for_each _ _ _) as [st |]; reflexivity.
Qed.

(** ** Column-wise equivalence of GetProx and GetProxOne *)

(** C8.  For every vector [y] and every weight matrix [W], [GetProx y W] is
    the matrix whose columns are [GetProxOne y] of the columns of [W], in
    order (and it raises an error exactly when one of them does); so column
    [i] of the result is [GetProxOne y (W.col(i))].  No state is shared
    between the columns: the only variable that outlives an iteration,
    [temp_weights], is overwritten before it is read. *)
Theorem GetProx_is_GetProxOne_by_column (y : vec) (W : mat) :
  GetProx y W
  = option_map (Mat (length y)) (map_opt (GetProxOne y) (columns W))
  /\ (forall B, GetProx y W = Some B ->
        n_rows B = length y /\ n_cols B = n_cols W /\
        forall i w, col W i = Some w -> col B i = GetProxOne y w)
  /\ (forall beta tw1 tw2 i,
        GetProx_column y W (beta, tw1) i = GetProx_column y W (beta, tw2) i).
Proof.
  split; [apply GetProx_columns |]. split.
  - intros B HB. rewrite GetProx_columns in HB.
    destruct (map_opt (GetProxOne y) (columns W)) as [res |] eqn:Hres;
      [| discriminate].
    inversion HB; subst B. unfold n_cols, col. cbn [n_rows columns].
    split; [reflexivity |]. split.
    + apply (map_opt_length _ _ _ Hres).
    + intros i w Hw. symmetry. apply (map_opt_nth _ _ _ _ _ Hres Hw).
  - reflexivity.
Qed.

(** ** Contraction and signs *)

(** C10.  On a finite input [y] and finite weights [>= 0], [GetProxOne]
    returns a finite vector of the length of [y] whose every entry is the
    entry of [y] times a factor between 0 and 1; so it is no larger than
    the entry of [y] in absolute value, and it is zero or of the sign of
    the entry of [y]. *)
Theorem GetProxOne_contracts_and_keeps_signs (y w : list R) :
  Forall (fun x => 0 <= x) w -> (length y <= length w)%nat ->
  exists beta : list R,
    GetProxOne (map Fin y) (map Fin w) = Some (map Fin beta) /\
    length beta = length y /\
    forall k, (k < length y)%nat ->
      (exists c, 0 <= c <= 1 /\ nth k beta 0 = c * nth k y 0) /\
      Rabs (nth k beta 0) <= Rabs (nth k y 0) /\
      (nth k beta 0 = 0 \/ 0 < nth k beta 0 * nth k y 0).
Proof.
  intros Hw Hlen. exists (prox_R y w).
  split; [apply GetProxOne_fin; assumption |].
  split; [apply prox_R_length; assumption |].
  intros k _. destruct (prox_R_factor y w k Hw) as [c [Hc Hk]].
  split; [exists c; split; assumption |].
  rewrite Hk. split.
  - rewrite Rabs_mult, (Rabs_pos_eq c) by lra.
    pose proof (Rabs_pos (nth k y 0)). nra.
  - destruct (Req_dec_T (c * nth k y 0) 0) as [Hz | Hnz]; [left; exact Hz |].
    right. assert (c <> 0 /\ nth k y 0 <> 0) as [Hc0 Hy0].
    { split; intros H0; apply Hnz; rewrite H0; lra. }
    assert (0 < c) by lra.
    assert (0 < nth k y 0 * nth k y 0) by nra.
    nra.
Qed.

Lemma GetProxOne_contracts_and_keeps_signs_witness :
  exists beta : list R,
    GetProxOne (map Fin [0; 8]) (map Fin [1; 4]) = Some (map Fin beta) /\
    length beta = length [0; 8] /\
    forall k, (k < length [0; 8])%nat ->
      (exists c, 0 <= c <= 1 /\ nth k beta 0 = c * nth k [0; 8] 0) /\
      Rabs (nth k beta 0) <= Rabs (nth k [0; 8] 0) /\
      (nth k beta 0 = 0 \/ 0 < nth k beta 0 * nth k [0; 8] 0).
Proof.
  apply (GetProxOne_contracts_and_keeps_signs [0; 8] [1; 4]).
  - repeat constructor; lra.
  - simpl. lia.
Defined.

(** ** The hierarchy invariant *)

Lemma norm_R_eq (l : list R) (s : R) :
  0 <= s -> s * s = sum_sq l -> norm_R l = s.
Proof.
  intros Hs H. unfold norm_R.
  apply sqrt_lem_1; [apply sum_sq_nonneg | exact Hs | exact H].
Qed.

Lemma factor_zero_norm (w : R) : factor w 0 = 0.
Proof. unfold factor. rewrite Reqb_true; reflexivity. Qed.

Lemma factor_eq (w s c : R) :
  0 < s -> 0 <= c -> c = 1 - w / s -> factor w s = c.
Proof.
  intros Hs Hc H. unfold factor. rewrite Reqb_false by lra.
  rewrite <- H. apply Rmax_left. exact Hc.
Qed.

Lemma factor_clip (w s : R) : 0 < s -> s <= w -> factor w s = 0.
Proof.
  intros Hs Hw. unfold factor. rewrite Reqb_false by lra.
  apply Rmax_right.
  assert (1 <= w / s).
  { apply (Rmult_le_reg_r s); [exact Hs |]. field_simplify; lra. }
  lra.
Qed.

Lemma norm_R_single (v : R) : norm_R [v] = Rabs v.
Proof.
  apply norm_R_eq; [apply Rabs_pos |].
  simpl. unfold Rabs. destruct (Rcase_abs v); lra.
Qed.

Lemma GetProxOne_scalar (v w : R) :
  0 <= w -> GetProxOne [Fin v] [Fin w] = Some [Fin (soft v w)].
Proof.
  intros Hw.
  change (GetProxOne (map Fin [v]) (map Fin [w]) = Some (map Fin [soft v w])).
  rewrite GetProxOne_fin by (simpl; lia || (constructor; [exact Hw | constructor])).
  cbn [prox_R map]. rewrite norm_R_single. reflexivity.
Qed.

Lemma prox_R_example_0_8 : prox_R [0; 8] [1; 4] = [0; 3].
Proof.
  assert (H1 : prox_R [8] [4] = [4]).
  { cbn [prox_R map].
    rewrite (norm_R_eq [8] 8) by (simpl; lra).
    rewrite (factor_eq 4 8 (1 / 2)) by lra.
    f_equal. lra. }
  change (prox_R [0; 8] [1; 4])
    with (map (Rmult (factor 1 (norm_R (0 :: prox_R [8] [4]))))
              (0 :: prox_R [8] [4])).
  rewrite H1.
  rewrite (norm_R_eq [0; 4] 4) by (simpl; lra).
  rewrite (factor_eq 1 4 (3 / 4)) by lra.
  cbn [map]. repeat f_equal; lra.
Qed.

(** A run that shrinks a suffix of two entries: input [(4, 3)], weights
    [(1, 0)].  Step 1 leaves the vector as it is; at step 0 the norm is 5
    and the factor is [1 - 1/5]. *)
Example GetProxOne_run_4_3 :
  GetProxOne [Fin 4; Fin 3] [Fin 1; Fin 0] = Some [Fin (16 / 5); Fin (12 / 5)].
Proof.
  change (GetProxOne (map Fin [4; 3]) (map Fin [1; 0])
          = Some (map Fin [16 / 5; 12 / 5])).
  rewrite GetProxOne_fin by (repeat constructor; simpl; lra || lia).
  do 2 f_equal. cbn [prox_R map].
  rewrite (norm_R_eq [3] 3) by (simpl; lra).
  rewrite (factor_eq 0 3 1) by lra.
  rewrite (norm_R_eq [4; 1 * 3] 5) by (simpl; lra).
  rewrite (factor_eq 1 5 (4 / 5)) by lra.
  f_equal; [lra | f_equal; lra].
Qed.

(** C1, the claim as stated fails.  Input [y = (0, 8)], weights [(1, 4)],
    both positive: the result is [(0, 3)], whose entry 0 is zero and whose
    entry 1 is not.  The zero is the zero of the input, which every scaling
    keeps. *)
Lemma hierarchy_invariant_fails_on_zero_input_entry :
  GetProxOne [Fin 0; Fin 8] [Fin 1; Fin 4] = Some [Fin 0; Fin 3]
  /\ ~ nested_sparsity [Fin 0; Fin 3]
  /\ GetProx [Fin 0; Fin 8] (Mat 2 [[Fin 1; Fin 4]])
     = Some (Mat 2 [[Fin 0; Fin 3]]).
Proof.
  assert (H : GetProxOne [Fin 0; Fin 8] [Fin 1; Fin 4] = Some [Fin 0; Fin 3]).
  { change (GetProxOne (map Fin [0; 8]) (map Fin [1; 4])
            = Some (map Fin [0; 3])).
    rewrite GetProxOne_fin by (repeat constructor; simpl; lra || lia).
    rewrite prox_R_example_0_8. reflexivity. }
  split; [exact H |]. split.
  - intros Hn.
    assert (H3 : nth_error [Fin 0; Fin 3] 1 = Some 0%D)
      by (apply (Hn 0%nat 1%nat); [simpl; lia | reflexivity]).
    simpl in H3. inversion H3. lra.
  - rewrite GetProx_columns. cbn [columns map_opt]. rewrite H. reflexivity.
Qed.

(** With a negative weight the division by a zero norm gives -inf, the
    factor is +inf, and +inf times zero is NaN: input [(1, 0)], weights
    [(1, -1)], result [(0, NaN)].  The invariant needs weights [>= 0]. *)
Example negative_weight_gives_nan :
  GetProxOne [Fin 1; Fin 0] [Fin 1; Fin (-1)] = Some [Fin 0; NaN].
Proof.
  rewrite GetProxOne_cons.
  assert (H : GetProxOne [Fin 0] [Fin (-1)] = Some [NaN]).
  { rewrite GetProxOne_cons, GetProxOne_nil. unfold shrink.
    change [Fin 0] with (map Fin [0]). rewrite norm_fin.
    rewrite (norm_R_eq [0] 0) by (simpl; lra).
    unfold ddiv. rewrite Reqb_true by reflexivity.
    rewrite Rsign_neg by lra. cbn [dsub dneg dadd].
    rewrite cpp_max_pinf. cbn [map scale dmul]. unfold inf_times.
    rewrite Rsign_zero. reflexivity. }
  rewrite H. unfold shrink, norm.
  cbn [fold_left dmul dadd dsqrt ddiv dsub dneg].
  rewrite cpp_max_nan. cbn [scale map dmul]. repeat f_equal. lra.
Qed.

Lemma map_opt_GetProxOne_fin (y : list R) (W : list (list R)) :
  Forall (fun w => Forall (fun x => 0 <= x) w /\ (length y <= length w)%nat) W ->
  map_opt (GetProxOne (map Fin y)) (map (map Fin) W)
  = Some (map (fun w => map Fin (prox_R y w)) W).
Proof.
  induction 1 as [| w t [Hw Hlen] Ht IH]; [reflexivity |].
  cbn [map map_opt]. rewrite GetProxOne_fin by assumption.
  cbn [bind]. rewrite IH. reflexivity.
Qed.

Lemma Forall_skipn_nonneg (n : nat) (w : list R) :
  Forall (fun x => 0 <= x) w -> Forall (fun x => 0 <= x) (skipn n w).
Proof.
  intros Hw. revert n. induction Hw as [| a t Ha Ht IH]; intros [| n];
    cbn [skipn]; try constructor; auto.
Qed.

(** C1, amended.  On a finite input [y] and finite weights [>= 0] (the
    weights of the data model are positive): when the scaling factor of
    step [j] of the loop is zero, every entry of index [j] or more of the
    result of [GetProxOne] is zero, and so it is in the column of [GetProx]
    for these weights.  At step [j] the loop has run the steps
    [p - 1, ..., j + 1], so the entries [j + 1 ..] of its vector are the
    result [t] of [GetProxOne] for the entries [j + 1 ..] of [y] and of the
    weights, and the factor is that of [weights(j)] and the suffix
    [y(j) :: t].  A zero entry of the result that no zero factor has made
    has no such consequence. *)
Theorem hierarchy_invariant_from_a_zero_factor
  (y w : list R) (j : nat) (yj wj : R) (t beta : vec) :
  Forall (fun x => 0 <= x) w ->
  nth_error y j = Some yj -> nth_error w j = Some wj ->
  GetProxOne (map Fin (skipn (S j) y)) (map Fin (skipn (S j) w)) = Some t ->
  GetProxOne (map Fin y) (map Fin w) = Some beta ->
  shrink (Fin wj) (Fin yj :: t) = 0%D ->
  length beta = length y /\ zero_from j beta /\
  forall (rows : nat) (W : list (list R)) (B : mat) (i : nat),
    nth_error W i = Some w ->
    GetProx (map Fin y) (Mat rows (map (map Fin) W)) = Some B ->
    col B i = Some beta.
Proof.
  intros Hw Hyj Hwj Ht Hb Hs.
  assert (Hlen : (length y <= length w)%nat).
  { destruct (Nat.le_gt_cases (length y) (length w)) as [H | H]; [exact H |].
    rewrite GetProxOne_too_few_weights in Hb
      by (rewrite !length_map; exact H).
    discriminate. }
  pose proof Hb as Hb0.
  rewrite GetProxOne_fin in Hb by assumption. injection Hb as Hb.
  subst beta.
  rewrite GetProxOne_fin in Ht
    by (try apply Forall_skipn_nonneg; try assumption;
        rewrite !length_skipn; lia).
  assert (Et : t = map Fin (prox_R (skipn (S j) y) (skipn (S j) w)))
    by congruence.
  subst t. clear Ht.
  assert (Hwj0 : 0 <= wj).
  { rewrite Forall_forall in Hw. apply Hw. apply (nth_error_In _ _ Hwj). }
  change (shrink (Fin wj)
            (map Fin (yj :: prox_R (skipn (S j) y) (skipn (S j) w))) = 0%D)
    in Hs.
  rewrite shrink_fin in Hs by exact Hwj0.
  assert (Hf : factor wj
                 (norm_R (yj :: prox_R (skipn (S j) y) (skipn (S j) w))) = 0)
    by congruence.
  assert (Hl : length (map Fin (prox_R y w)) = length y)
    by (rewrite length_map; apply prox_R_length; exact Hlen).
  split; [exact Hl |]. split.
  - intros k [Hjk Hk]. rewrite Hl in Hk.
    rewrite nth_error_map_Fin_lt by (rewrite prox_R_length by exact Hlen; lia).
    do 2 f_equal. apply (prox_R_zero_factor y w j yj wj Hyj Hwj Hf k Hjk).
  - intros rows W B i HW HB. rewrite GetProx_columns in HB.
    cbn [columns] in HB.
    destruct (map_opt (GetProxOne (map Fin y)) (map (map Fin) W))
      as [bs |] eqn:Hbs; [| discriminate].
    cbn [option_map] in HB. injection HB as HB. subst B.
    unfold col. cbn [columns]. rewrite <- Hb0. symmetry.
    apply (map_opt_nth _ _ _ _ _ Hbs).
    rewrite nth_error_map, HW. reflexivity.
Qed.

(** A run on which the factor of step 1 is zero: input [(4, 3, 4)],
    weights [(1, 6, 0)].  Step 2 leaves entry 2 at 4; at step 1 the norm of
    [(3, 4)] is 5, below the weight 6, the factor is 0 and the entries 1
    and 2 become 0; step 0 takes entry 0 from 4 to 3. *)
Lemma prox_R_run_4_3_4 : prox_R [4; 3; 4] [1; 6; 0] = [3; 0; 0].
Proof.
  assert (H2 : prox_R [4] [0] = [4]).
  { cbn [prox_R map]. rewrite (norm_R_eq [4] 4) by (simpl; lra).
    rewrite (factor_eq 0 4 1) by lra. f_equal. lra. }
  assert (H1 : prox_R [3; 4] [6; 0] = [0; 0]).
  { change (prox_R [3; 4] [6; 0])
      with (map (Rmult (factor 6 (norm_R (3 :: prox_R [4] [0]))))
                (3 :: prox_R [4] [0])).
    rewrite H2, (norm_R_eq [3; 4] 5) by (simpl; lra).
    rewrite factor_clip by lra. cbn [map]. f_equal; [lra | f_equal; lra]. }
  change (prox_R [4; 3; 4] [1; 6; 0])
    with (map (Rmult (factor 1 (norm_R (4 :: prox_R [3; 4] [6; 0]))))
              (4 :: prox_R [3; 4] [6; 0])).
  rewrite H1, (norm_R_eq [4; 0; 0] 4) by (simpl; lra).
  rewrite (factor_eq 1 4 (3 / 4)) by lra.
  cbn [map]. f_equal; [lra | f_equal; [lra | f_equal; lra]].
Qed.

Lemma GetProxOne_run_4_3_4 :
  GetProxOne (map Fin [4; 3; 4]) (map Fin [1; 6; 0])
  = Some [Fin 3; Fin 0; Fin 0].
Proof.
  rewrite GetProxOne_fin.
  - rewrite prox_R_run_4_3_4. reflexivity.
  - constructor; [lra |]. constructor; [lra |]. constructor; [lra | constructor].
  - simpl. lia.
Qed.

Lemma GetProxOne_run_4_0 :
  GetProxOne (map Fin (skipn 2 [4; 3; 4])) (map Fin (skipn 2 [1; 6; 0]))
  = Some [Fin 4].
Proof.
  cbn [skipn]. rewrite GetProxOne_fin.
  - cbn [prox_R map]. rewrite (norm_R_eq [4] 4) by (simpl; lra).
    rewrite (factor_eq 0 4 1) by lra. do 3 f_equal. lra.
  - constructor; [lra | constructor].
  - simpl. lia.
Qed.

Lemma shrink_run_6_3_4 : shrink (Fin 6) [Fin 3; Fin 4] = 0%D.
Proof.
  change [Fin 3; Fin 4] with (map Fin [3; 4]). rewrite shrink_fin by lra.
  rewrite (norm_R_eq [3; 4] 5) by (simpl; lra).
  rewrite factor_clip by lra. reflexivity.
Qed.

Lemma hierarchy_invariant_from_a_zero_factor_witness :
  GetProxOne (map Fin [4; 3; 4]) (map Fin [1; 6; 0])
  = Some [Fin 3; Fin 0; Fin 0] /\
  shrink (Fin 6) [Fin 3; Fin 4] = 0%D /\
  length [Fin 3; Fin 0; Fin 0] = length [4; 3; 4] /\
  zero_from 1 [Fin 3; Fin 0; Fin 0] /\
  forall (rows : nat) (W : list (list R)) (B : mat) (i : nat),
    nth_error W i = Some [1; 6; 0] ->
    GetProx (map Fin [4; 3; 4]) (Mat rows (map (map Fin) W)) = Some B ->
    col B i = Some [Fin 3; Fin 0; Fin 0].
Proof.
  split; [exact GetProxOne_run_4_3_4 |].
  split; [exact shrink_run_6_3_4 |].
  apply (hierarchy_invariant_from_a_zero_factor [4; 3; 4] [1; 6; 0] 1 3 6
           [Fin 4] [Fin 3; Fin 0; Fin 0]).
  - constructor; [lra |]. constructor; [lra |]. constructor; [lra | constructor].
  - reflexivity.
  - reflexivity.
  - exact GetProxOne_run_4_0.
  - exact GetProxOne_run_4_3_4.
  - exact shrink_run_6_3_4.
Defined.

(** On binary64 numbers a product can underflow to zero: input
    [(2^-1074, 1)], weights [(1/2, 1/4)].  No factor is zero (they are 3/4
    and 1/3), entry 0 of the result is zero and entry 1 is 1/4.  The
    invariant is stated on the factors for that reason. *)
Example zero_entry_made_by_underflow :
  GetProxOne64 [0x1p-1074; 1]%float [0x1p-1; 0x1p-2]%float
  = Some [0; 0x1p-2]%float
  /\ shrink64 0x1p-2%float [1%float] = 0x1.8p-1%float
  /\ shrink64 0x1p-1%float [0x1p-1074; 0x1.8p-1]%float
     = 0x1.5555555555556p-2%float.
Proof. repeat split; vm_compute; reflexivity. Qed.

(** ** Zero weights *)

Lemma map_Rmult_0_zeros (l : list R) :
  Forall (fun x => x = 0) l -> map (Rmult 0) l = l.
Proof.
  induction 1 as [| x t Hx Ht IH]; [reflexivity |].
  cbn [map]. rewrite IH. f_equal. lra.
Qed.

Lemma map_Rmult_1 (l : list R) : map (Rmult 1) l = l.
Proof.
  induction l as [| x t IH]; [reflexivity |].
  cbn [map]. rewrite IH, Rmult_1_l. reflexivity.
Qed.

Lemma map_factor_zero_weight (l : list R) :
  map (Rmult (factor 0 (norm_R l))) l = l.
Proof.
  destruct (Req_dec_T (norm_R l) 0) as [Hz | Hnz].
  - rewrite Hz, factor_zero_norm. apply map_Rmult_0_zeros, norm_R_zero, Hz.
  - pose proof (norm_R_nonneg l).
    rewrite (factor_eq 0 (norm_R l) 1) by (try lra; field; exact Hnz).
    apply map_Rmult_1.
Qed.

Lemma prox_R_zero_weights (y : list R) (m : nat) :
  (length y <= m)%nat -> prox_R y (repeat 0 m) = y.
Proof.
  revert m. induction y as [| y0 ys IH]; intros m Hm; [reflexivity |].
  destruct m as [| m]; [simpl in Hm; lia |].
  cbn [repeat prox_R]. rewrite IH by (simpl in Hm; lia).
  apply map_factor_zero_weight.
Qed.

Lemma zeros_fin (m : nat) : zeros m = map Fin (repeat 0 m).
Proof. unfold zeros. rewrite map_repeat. reflexivity. Qed.

(** C9.  For every finite input vector [y], [GetProxOne] with weights that
    are all zero (at least as many as the entries of [y]) returns [y],
    every entry unchanged. *)
Theorem GetProxOne_zero_weights_identity (y : list R) (m : nat) :
  (length y <= m)%nat ->
  GetProxOne (map Fin y) (zeros m) = Some (map Fin y).
Proof.
  intros Hm. rewrite zeros_fin, GetProxOne_fin.
  - rewrite prox_R_zero_weights by exact Hm. reflexivity.
  - apply Forall_forall. intros x Hx. apply repeat_spec in Hx. lra.
  - rewrite repeat_length. exact Hm.
Qed.

Lemma GetProxOne_zero_weights_identity_witness :
  GetProxOne (map Fin [3; 0; -2; 0]) (zeros 4) = Some (map Fin [3; 0; -2; 0]).
Proof.
  apply (GetProxOne_zero_weights_identity [3; 0; -2; 0] 4).
  simpl. lia.
Defined.

(** A matrix of two weight columns: the first shrinks, the second, all
    zeros, returns the input. *)
Example GetProx_run_two_columns :
  GetProx [Fin 4; Fin 3] (Mat 2 [[Fin 1; Fin 0]; [Fin 0; Fin 0]])
  = Some (Mat 2 [[Fin (16 / 5); Fin (12 / 5)]; [Fin 4; Fin 3]]).
Proof.
  rewrite GetProx_columns. cbn [columns map_opt length].
  rewrite GetProxOne_run_4_3. cbn [bind].
  change (GetProxOne [Fin 4; Fin 3] [Fin 0; Fin 0])
    with (GetProxOne (map Fin [4; 3]) (map Fin (repeat 0 2))).
  rewrite GetProxOne_fin by (repeat constructor; simpl; lra || lia).
  rewrite prox_R_zero_weights by (simpl; lia).
  reflexivity.
Qed.

(** ** The zero norm *)

(** A finite sum of squares comes from finite terms only: an infinity or a
    NaN, once in the sum, stays. *)
Lemma fold_sq_fin_inv (v : vec) (a : double) (s : R) :
  fold_left (fun acc x => acc + x * x)%D v a = Fin s ->
  exists (a' : R) (l : list R),
    a = Fin a' /\ v = map Fin l /\ s = a' + sum_sq l.
Proof.
  revert a. induction v as [| x t IH]; intros a H; simpl in H.
  - exists s, []. simpl. split; [exact H |]. split; [reflexivity | lra].
  - destruct (IH _ H) as [a1 [l [Ha [Ht Hs]]]].
    destruct a as [a0 | | |], x as [x0 | | |]; simpl in Ha; try discriminate.
    inversion Ha; subst a1.
    exists a0, (x0 :: l). simpl. rewrite Ht.
    split; [reflexivity |]. split; [reflexivity | lra].
Qed.

Lemma norm_zero_inv (v : vec) :
  norm v = 0%D -> Forall (fun x => x = 0%D) v.
Proof.
  unfold norm. intros H.
  destruct (fold_left _ v 0%D) as [a | | |] eqn:Hf; simpl in H;
    try discriminate.
  unfold Rltb in H. destruct (Rlt_dec a 0) as [Hlt | Hge]; [discriminate |].
  injection H as Hsq.
  destruct (fold_sq_fin_inv _ _ _ Hf) as [a' [l [Ha [Hv Hs]]]].
  injection Ha as Ha; subst a'.
  assert (Hz : sum_sq l = 0).
  { apply sqrt_eq_0 in Hsq; lra. }
  subst v. apply sum_sq_zero in Hz. clear - Hz.
  induction Hz as [| x t Hx Ht IH]; constructor.
  - rewrite Hx. reflexivity.
  - exact IH.
Qed.

Lemma scale_zero_zeros (v : vec) :
  Forall (fun x => x = 0%D) v -> scale 0%D v = v.
Proof.
  induction 1 as [| x t Hx Ht IH]; [reflexivity |].
  unfold scale in *. cbn [map]. rewrite IH. subst x. simpl.
  do 2 f_equal. lra.
Qed.

Lemma shrink_zero_norm (w : R) (suffix : vec) :
  0 < w -> norm suffix = 0%D -> shrink (Fin w) suffix = 0%D.
Proof.
  intros Hw Hn. unfold shrink. rewrite Hn. unfold ddiv.
  rewrite Reqb_true by reflexivity. rewrite Rsign_pos by exact Hw.
  reflexivity.
Qed.

(** C5.  With finite weights that are all positive: at a step [j] of the
    loop at which the norm of the suffix of the current [beta] is zero, the
    scaling factor is 0 (the quotient is +inf, one minus it is -inf, and
    the maximum with 0 is 0), the suffix is all zeros, and the step leaves
    [beta] as it is.  On a finite input the result is a vector of finite
    numbers: no NaN and no infinity. *)
Theorem zero_norm_suffix_is_safe (y w : list R) :
  Forall (fun x => 0 < x) w -> (length y <= length w)%nat ->
  (forall (beta : vec) (j : nat) (wj : double),
     nth_error (map Fin w) j = Some wj ->
     norm (skipn j beta) = 0%D ->
     shrink wj (skipn j beta) = 0%D /\
     Forall (fun x => x = 0%D) (skipn j beta) /\
     prox_step (map Fin w) beta j = Some beta)
  /\
  (exists beta : list R,
     GetProxOne (map Fin y) (map Fin w) = Some (map Fin beta) /\
     length beta = length y).
Proof.
  intros Hw Hlen. split.
  - intros beta j wj Hj Hn.
    rewrite nth_error_map in Hj.
    destruct (nth_error w j) as [x |] eqn:Hx; [| discriminate].
    inversion Hj; subst wj.
    assert (Hpos : 0 < x).
    { rewrite Forall_forall in Hw. apply Hw. eapply nth_error_In. exact Hx. }
    pose proof (norm_zero_inv _ Hn) as Hz.
    pose proof (shrink_zero_norm x _ Hpos Hn) as Hs.
    split; [exact Hs |]. split; [exact Hz |].
    unfold prox_step. rewrite nth_error_map, Hx. cbn [option_map].
    rewrite Hs, scale_zero_zeros by exact Hz.
    rewrite firstn_skipn. reflexivity.
  - exists (prox_R y w). split.
    + apply GetProxOne_fin; [| exact Hlen].
      eapply Forall_impl; [| exact Hw]. intros x Hx. simpl in Hx. lra.
    + apply prox_R_length. exact Hlen.
Qed.

Lemma zero_norm_suffix_is_safe_witness :
  (forall (beta : vec) (j : nat) (wj : double),
     nth_error (map Fin [1; 2]) j = Some wj ->
     norm (skipn j beta) = 0%D ->
     shrink wj (skipn j beta) = 0%D /\
     Forall (fun x => x = 0%D) (skipn j beta) /\
     prox_step (map Fin [1; 2]) beta j = Some beta)
  /\
  (exists beta : list R,
     GetProxOne (map Fin [5; 0]) (map Fin [1; 2]) = Some (map Fin beta) /\
     length beta = length [5; 0]).
Proof.
  apply (zero_norm_suffix_is_safe [5; 0] [1; 2]).
  - repeat constructor; lra.
  - simpl. lia.
Defined.

(** The run of the witness: at step 1 the suffix is [(0)], its norm is
    zero, and the step leaves the vector as it is; step 0 then scales by
    [1 - 1/5]. *)
Example zero_norm_run :
  norm (skipn 1 [Fin 5; Fin 0]) = 0%D /\
  prox_step [Fin 1; Fin 2] [Fin 5; Fin 0] 1 = Some [Fin 5; Fin 0] /\
  GetProxOne [Fin 5; Fin 0] [Fin 1; Fin 2] = Some [Fin 4; Fin 0].
Proof.
  assert (Hn : norm (skipn 1 [Fin 5; Fin 0]) = 0%D).
  { change (norm (map Fin [0]) = 0%D). rewrite norm_fin.
    rewrite (norm_R_eq [0] 0) by (simpl; lra). reflexivity. }
  split; [exact Hn |]. split.
  - unfold prox_step. cbn [nth_error]. cbv zeta.
    rewrite (shrink_zero_norm 2 _ ltac:(lra) Hn).
    simpl. repeat f_equal. lra.
  - change (GetProxOne (map Fin [5; 0]) (map Fin [1; 2])
            = Some (map Fin [4; 0])).
    rewrite GetProxOne_fin by (repeat constructor; simpl; lra || lia).
    do 2 f_equal. cbn [prox_R map].
    rewrite (norm_R_eq [0] 0) by (simpl; lra).
    rewrite factor_zero_norm.
    rewrite (norm_R_eq [5; 0 * 0] 5) by (simpl; lra).
    rewrite (factor_eq 1 5 (4 / 5)) by lra.
    cbn [map]. repeat f_equal; lra.
Qed.

(** ** The default max_lambda *)

Lemma fold_max_fin (l : list R) (a : R) :
  fold_left (fun m x => if (x >? m)%D then x else m) (map Fin l) (Fin a)
  = Fin (max_R a l).
Proof.
  revert a. induction l as [| x t IH]; intros a; [reflexivity |].
  cbn [map fold_left]. unfold max_R. cbn [fold_left].
  unfold dgtb, dltb. destruct (Rltb a x); apply IH.
Qed.

Lemma direct_max_fin (x : R) (t : list R) :
  direct_max (map Fin (x :: t)) = Fin (max_R x t).
Proof. unfold direct_max. cbn [map fold_left]. apply fold_max_fin. Qed.

Lemma max_R_bounds (l : list R) (a : R) :
  a <= max_R a l /\ Forall (fun x => x <= max_R a l) l /\
  In (max_R a l) (a :: l).
Proof.
  revert a. induction l as [| x t IH]; intros a.
  - simpl. split; [lra |]. split; [constructor | left; reflexivity].
  - unfold max_R. cbn [fold_left]. fold (max_R (if Rltb a x then x else a) t).
    destruct (IH (if Rltb a x then x else a)) as [H1 [H2 H3]].
    unfold Rltb in *. destruct (Rlt_dec a x) as [Hlt | Hge].
    + split; [lra |]. split; [constructor; assumption |].
      destruct H3 as [H3 | H3]; [right; left; exact H3 | right; right; exact H3].
    + split; [exact H1 |]. split; [constructor; [lra | assumption] |].
      destruct H3 as [H3 | H3]; [left; exact H3 | right; right; exact H3].
Qed.

Lemma vzip_ratios (v ak : list R) :
  length ak = length v -> Forall (fun x => 0 < x) ak ->
  vzip ddiv (vabs (map Fin v)) (map Fin ak) = Some (map Fin (ratios v ak)).
Proof.
  intros Hlen Hak. unfold vzip, vabs.
  rewrite !length_map, <- Hlen, Nat.eqb_refl. f_equal.
  clear Hlen. revert ak Hak. induction v as [| x t IH]; intros ak Hak.
  - reflexivity.
  - destruct ak as [| a ak']; [reflexivity |].
    inversion Hak as [| ? ? Ha Hak']; subst.
    unfold ratios in *. cbn [map combine fst snd]. rewrite IH by assumption.
    f_equal. unfold dabs, ddiv. rewrite Reqb_false by lra. reflexivity.
Qed.








(** ** The lambda path *)

Lemma ln_10_pos : 0 < ln 10.
Proof. rewrite <- ln_1. apply ln_increasing; lra. Qed.

Lemma dlog10_pos (a : R) : 0 < a -> dlog10 (Fin a) = Fin (ln a / ln 10).
Proof. intros H. unfold dlog10. rewrite Rsign_pos by exact H. reflexivity. Qed.

Lemma exp10_log10 (a : R) : 0 < a -> dexp10 (dlog10 (Fin a)) = Fin a.
Proof.
  intros H. rewrite dlog10_pos by exact H. unfold dexp10. f_equal.
  pose proof ln_10_pos.
  replace (ln a / ln 10 * ln 10) with (ln a) by (field; lra).
  apply exp_ln. exact H.
Qed.

Lemma length_linspace (a b : double) (num : nat) :
  length (linspace a b num) = num.
Proof.
  destruct num as [| [| k]]; [reflexivity | reflexivity |].
  unfold linspace. rewrite length_app, length_map, length_seq. simpl. lia.
Qed.

Lemma length_lambda_path (m r : double) (nlam : nat) :
  length (lambda_path m r nlam) = nlam.
Proof. unfold lambda_path. rewrite length_map. apply length_linspace. Qed.

Lemma lambda_path_one_point :
  lambda_path (Fin 1) (Fin (/ 10)) 1 = [Fin (/ 10)].
Proof.
  unfold lambda_path, linspace. cbn [map dmul].
  rewrite exp10_log10 by lra. do 2 f_equal. lra.
Qed.

Lemma solveHierBasis_prox_one_point :
  solveHierBasis_prox [Fin 1] [Fin 1] (Mat 1 [[Fin 1]]) (Fin (/ 10)) 1
    (Some (Fin 1))
  = Some (Mat 1 [[Fin (9 / 10)]], [Fin (/ 10)]).
Proof.
  unfold solveHierBasis_prox. cbn [bind].
  rewrite lambda_path_one_point. unfold each_row_times.
  cbn [n_cols columns length Nat.eqb combine map fst snd n_rows dmul bind].
  rewrite GetProx_columns. cbn [columns map_opt].
  rewrite GetProxOne_scalar by lra. cbn [bind option_map length].
  do 6 f_equal. unfold soft.
  replace (Rabs 1) with 1 by (unfold Rabs; destruct (Rcase_abs 1); lra).
  rewrite (factor_eq (1 * / 10) 1 (9 / 10)) by lra. lra.
Qed.








(** ** Columns of a matrix *)

Lemma list_set_length {A : Type} (i : nat) (x : A) (l : list A) :
  length (list_set i x l) = length l.
Proof.
  revert i. induction l as [| h t IH]; intros [| i]; simpl; auto.
Qed.

Lemma list_set_same {A : Type} (i : nat) (x : A) (l : list A) :
  (i < length l)%nat -> nth_error (list_set i x l) i = Some x.
Proof.
  revert i. induction l as [| h t IH]; intros [| i] H; simpl in *;
    try lia; [reflexivity |].
  apply IH. lia.
Qed.

Lemma list_set_other {A : Type} (i k : nat) (x : A) (l : list A) :
  k <> i -> nth_error (list_set i x l) k = nth_error l k.
Proof.
  revert i k. induction l as [| h t IH]; intros [| i] [| k] H; simpl;
    try reflexivity; try congruence.
  apply IH. congruence.
Qed.

Lemma set_col_spec (M M' : mat) (i : nat) (v : vec) :
  set_col M i v = Some M' ->
  n_rows M' = n_rows M /\ n_cols M' = n_cols M /\
  col M' i = Some v /\ forall k, k <> i -> col M' k = col M k.
Proof.
  unfold set_col. destruct (i <? n_cols M)%nat eqn:Hi; [| discriminate].
  destruct (length v =? n_rows M)%nat; [| discriminate].
  cbn [andb]. intros H. injection H as H. subst M'.
  apply Nat.ltb_lt in Hi. unfold n_cols, col in *. cbn [n_rows columns].
  split; [reflexivity |]. split; [apply list_set_length |].
  split; [apply list_set_same; exact Hi |].
  intros k Hk. apply list_set_other. exact Hk.
Qed.




(** ** Loops *)

Lemma for_each_app {S : Type} (body : S -> nat -> option S)
  (l1 l2 : list nat) (s : S) :
  for_each body (l1 ++ l2) s
  = (s' <- for_each body l1 s ;; for_each body l2 s').
Proof.
  revert s. induction l1 as [| i t IH]; intros s; [reflexivity |].
  cbn [app for_each]. destruct (body s i) as [s1 |]; [apply IH | reflexivity].
Qed.

(** A property that every iteration keeps is kept by the loop. *)
Lemma for_each_invariant {S : Type} (body : S -> nat -> option S)
  (P : S -> Prop) (idx : list nat) (s s' : S) :
  (forall a b i, In i idx -> P a -> body a i = Some b -> P b) ->
  P s -> for_each body idx s = Some s' -> P s'.
Proof.
  revert s. induction idx as [| i t IH]; intros s Hstep Hs H.
  - injection H as H. subst s'. exact Hs.
  - cbn [for_each] in H. destruct (body s i) as [s1 |] eqn:Hb; [| discriminate].
    cbn [bind] in H. apply (IH s1).
    + intros a b k Hk. apply Hstep. right. exact Hk.
    + apply (Hstep s s1 i); [left; reflexivity | exact Hs | exact Hb].
    + exact H.
Qed.

Section BlockCoordinateDescentFacts.

Variables (y : vec) (weights : mat) (X : cube) (tol : double).
Variables (p J : nat) (n : Z) (max_iter : R).

Let iter := iteration y X tol p J n max_iter.
Let while := while_loop y X tol p J n max_iter.
Let run := lambda_run y weights X tol p J n max_iter.
Let path := fit_path y weights X tol p J n max_iter.

(** The lambda value of index [k] starts from the state that the lambda
    value of index [k - 1] has left. *)
Lemma fit_path_S (k : nat) (st : fit_state) :
  path (S k) st = (st' <- path k st ;; run st' k).
Proof.
  unfold path, fit_path. rewrite seq_S, for_each_app. cbn [Nat.add].
  destruct (for_each _ (seq 0 k) st) as [s1 |]; [| reflexivity].
  cbn [bind for_each]. fold run. destruct (run s1 k); reflexivity.
Qed.

Lemma fit_path_split (k m : nat) (st : fit_state) :
  path (k + m) st
  = (st' <- path k st ;; for_each run (seq k m) st').
Proof.
  unfold path, fit_path. rewrite seq_app, for_each_app. reflexivity.
Qed.

(** What one pass of the [while] loop does to the counter, the flag and
    the answer. *)
Lemma iteration_cases (i : nat) (tw : vec) (st st' : fit_state)
  (c c' : Z) (conv conv' : bool) :
  iter i tw (st, c, conv) = Some (st', c', conv') ->
  exists old_beta,
    mat_of_mem (vectorise (f_beta st)) J p = Some old_beta /\
    sweep y X p n tw (f_beta st, f_x_beta st)
    = Some (f_beta st', f_x_beta st') /\
    ( (dabs (change (f_beta st') old_beta) <? tol)%D = true /\
      conv' = true /\ c' = c /\
      set_col (f_ans st) i (vectorise (f_beta st')) = Some (f_ans st') /\
      f_warned st' = f_warned st
      \/
      (dabs (change (f_beta st') old_beta) <? tol)%D = false /\
      conv' = conv /\ c' = (c + 1)%Z /\
      f_ans st' = f_ans st /\
      f_warned st'
      = if Reqb (IZR (c + 1)) max_iter then f_warned st ++ [i]
        else f_warned st ).
Proof.
  unfold iter, iteration.
  destruct (mat_of_mem (vectorise (f_beta st)) J p) as [old_beta |];
    [| discriminate].
  cbn [bind].
  destruct (sweep y X p n tw (f_beta st, f_x_beta st)) as [[b xb] |];
    [| discriminate].
  cbn [bind fst snd].
  destruct (dabs (change b old_beta) <? tol)%D eqn:Htest.
  - destruct (set_col (f_ans st) i (vectorise b)) as [ans' |] eqn:Hset;
      [| discriminate].
    cbn [bind]. intros H. injection H as H1 H2 H3. subst st' c' conv'.
    exists old_beta. cbn [f_beta f_x_beta f_ans f_warned].
    split; [reflexivity |]. split; [reflexivity |]. left.
    rewrite Htest. repeat split; assumption.
  - intros H. injection H as H1 H2 H3. subst st' c' conv'.
    exists old_beta. cbn [f_beta f_x_beta f_ans f_warned].
    split; [reflexivity |]. split; [reflexivity |]. right.
    rewrite Htest. repeat split; reflexivity.
Qed.

(** A property that every pass keeps is kept by the [while] loop. *)
Lemma while_invariant (P : fit_state * Z * bool -> Prop) (i : nat) (tw : vec)
  (fuel : nat) (s s' : fit_state * Z * bool) :
  (forall a b,
     Rltb (IZR (snd (fst a))) max_iter && negb (snd a) = true ->
     P a -> iter i tw a = Some b -> P b) ->
  P s -> while fuel i tw s = Some s' ->
  P s' /\ Rltb (IZR (snd (fst s'))) max_iter && negb (snd s') = false.
Proof.
  intros Hstep. revert s. induction fuel as [| fuel IH]; intros s Hs H;
    destruct s as [[st c] conv]; cbn [while while_loop] in H;
    destruct (Rltb (IZR c) max_iter && negb conv) eqn:Hc;
    try discriminate.
  - injection H as H. subst s'. split; assumption.
  - fold iter in H.
    destruct (iter i tw (st, c, conv)) as [s1 |] eqn:Hi; [| discriminate].
    cbn [bind] in H. apply (IH s1); [| exact H].
    apply (Hstep (st, c, conv)); assumption.
  - injection H as H. subst s'. split; assumption.
Qed.

Lemma while_converged (fuel i : nat) (tw : vec) (st : fit_state) (c : Z) :
  while fuel i tw (st, c, true) = Some (st, c, true).
Proof.
  destruct fuel; cbn [while while_loop]; rewrite andb_false_r; reflexivity.
Qed.

Lemma while_budget_spent (fuel i : nat) (tw : vec) (st : fit_state) (c : Z)
  (conv : bool) :
  max_iter <= IZR c -> while fuel i tw (st, c, conv) = Some (st, c, conv).
Proof.
  intros H. destruct fuel; cbn [while while_loop];
    rewrite Rltb_false by exact H; reflexivity.
Qed.

(** The fuel of [lambda_run] is enough: more fuel gives the same result. *)
Lemma while_fuel (fuel1 fuel2 i : nat) (tw : vec) (st : fit_state) (c : Z)
  (conv : bool) :
  (up max_iter - c <= Z.of_nat fuel1)%Z ->
  (up max_iter - c <= Z.of_nat fuel2)%Z ->
  while fuel1 i tw (st, c, conv) = while fuel2 i tw (st, c, conv).
Proof.
  revert fuel2 st c conv.
  induction fuel1 as [| f1 IH]; intros fuel2 st c conv H1 H2;
    cbn [while while_loop];
    destruct (Rltb (IZR c) max_iter && negb conv) eqn:Hc.
  - apply andb_prop in Hc. destruct Hc as [Hc _].
    unfold Rltb in Hc. destruct (Rlt_dec (IZR c) max_iter) as [Hlt |];
      [| discriminate].
    destruct (archimed max_iter) as [Hup _].
    assert (IZR c < IZR (up max_iter)) by lra.
    apply lt_IZR in H. lia.
  - destruct fuel2; cbn [while while_loop]; rewrite Hc; reflexivity.
  - apply andb_prop in Hc. destruct Hc as [Hc Hconv].
    assert (Hlt : (c < up max_iter)%Z).
    { unfold Rltb in Hc. destruct (Rlt_dec (IZR c) max_iter) as [Hlt |];
        [| discriminate].
      destruct (archimed max_iter) as [Hup _]. apply lt_IZR. lra. }
    destruct fuel2 as [| f2]; [lia |].
    cbn [while while_loop]. rewrite Hc, Hconv. cbn [andb].
    fold iter.
    destruct (iter i tw (st, c, conv)) as [[[st' c'] conv'] |] eqn:Hi;
      [| reflexivity].
    cbn [bind]. fold while.
    destruct (iteration_cases _ _ _ _ _ _ _ _ Hi)
      as [old [_ [_ [[_ [Hv [Hc' _]]] | [_ [_ [Hc' _]]]]]]].
    + subst conv'. rewrite !while_converged. reflexivity.
    + subst c'. apply IH; lia.
  - destruct fuel2; cbn [while while_loop]; rewrite Hc; reflexivity.
Qed.

(** The run for the lambda value of index [k] writes column [k] of the
    answer only, and only adds to the warnings. *)
Lemma lambda_run_frame (st st' : fit_state) (k : nat) :
  run st k = Some st' ->
  n_rows (f_ans st') = n_rows (f_ans st) /\
  n_cols (f_ans st') = n_cols (f_ans st) /\
  (forall j, j <> k -> col (f_ans st') j = col (f_ans st) j) /\
  exists extra, f_warned st' = f_warned st ++ extra.
Proof.
  unfold run, lambda_run. destruct (col weights k) as [wcol |]; [| discriminate].
  cbn [bind]. fold while.
  destruct (while _ k _ (st, 0%Z, false)) as [s1 |] eqn:Hw; [| discriminate].
  cbn [bind]. intros H. injection H as H. subst st'.
  pose (P := fun s : fit_state * Z * bool =>
    n_rows (f_ans (fst (fst s))) = n_rows (f_ans st) /\
    n_cols (f_ans (fst (fst s))) = n_cols (f_ans st) /\
    (forall j, j <> k -> col (f_ans (fst (fst s))) j = col (f_ans st) j) /\
    exists extra, f_warned (fst (fst s)) = f_warned st ++ extra).
  apply (while_invariant P) in Hw.
  - exact (proj1 Hw).
  - intros [[a ca] va] [[b cb] vb] _ [Pr [Pc [Pj [extra Pw]]]] Hi.
    cbn [fst snd] in *.
    destruct (iteration_cases _ _ _ _ _ _ _ _ Hi)
      as [old [_ [_ [[_ [_ [_ [Hset Hwarn]]]] | [_ [_ [_ [Hans Hwarn]]]]]]]];
      unfold P; cbn [fst snd].
    + destruct (set_col_spec _ _ _ _ Hset) as [Hr [Hc [_ Ho]]].
      split; [congruence |]. split; [congruence |]. split.
      * intros j Hj. rewrite Ho by exact Hj. apply Pj. exact Hj.
      * exists extra. congruence.
    + rewrite Hans. split; [exact Pr |]. split; [exact Pc |].
      split; [exact Pj |].
      rewrite Hwarn, Pw. destruct (Reqb _ _).
      * exists (extra ++ [k]). rewrite app_assoc. reflexivity.
      * exists extra. reflexivity.
  - unfold P. cbn [fst]. repeat split; try reflexivity.
    exists []. rewrite app_nil_r. reflexivity.
Qed.

(** The runs for the lambda values of a list of indices leave the columns
    of the other indices alone. *)
Lemma for_each_run_frame (idx : list nat) (st st' : fit_state) :
  for_each run idx st = Some st' ->
  n_rows (f_ans st') = n_rows (f_ans st) /\
  n_cols (f_ans st') = n_cols (f_ans st) /\
  (forall j, ~ In j idx -> col (f_ans st') j = col (f_ans st) j) /\
  exists extra, f_warned st' = f_warned st ++ extra.
Proof.
  intros H.
  apply (for_each_invariant run
    (fun s => n_rows (f_ans s) = n_rows (f_ans st) /\
              n_cols (f_ans s) = n_cols (f_ans st) /\
              (forall j, ~ In j idx -> col (f_ans s) j = col (f_ans st) j) /\
              exists extra, f_warned s = f_warned st ++ extra)
    idx st st'); [| | exact H].
  - intros a b i Hi [Pr [Pc [Pj [extra Pw]]]] Hb.
    destruct (lambda_run_frame _ _ _ Hb) as [Hr [Hc [Hj [e Hw]]]].
    split; [congruence |]. split; [congruence |]. split.
    + intros j Hnj. rewrite Hj; [apply Pj; exact Hnj |].
      intros Heq. subst j. contradiction.
    + exists (extra ++ e). rewrite Hw, Pw, app_assoc. reflexivity.
  - repeat split; try reflexivity. exists []. rewrite app_nil_r. reflexivity.
Qed.

(** A run that ends without convergence has stored nothing; it has raised
    the warning when [max_iter] is a whole number [>= 1], and it has not
    run at all when [max_iter <= 0]. *)
Lemma while_not_converged (fuel i : nat) (tw : vec) (st st' : fit_state)
  (c' : Z) :
  while fuel i tw (st, 0%Z, false) = Some (st', c', false) ->
  f_ans st' = f_ans st /\
  (forall m, max_iter = IZR m -> (1 <= m)%Z ->
     c' = m /\ f_warned st' = f_warned st ++ [i]) /\
  (max_iter <= 0 -> st' = st /\ c' = 0%Z).
Proof.
  intros Hw. split; [| split].
  - pose (P := fun s : fit_state * Z * bool =>
      snd s = true \/ f_ans (fst (fst s)) = f_ans st).
    apply (while_invariant P) in Hw.
    + destruct Hw as [[Hc | Ha] _]; [discriminate | exact Ha].
    + intros [[a ca] va] [[b cb] vb] _ Pa Hi. unfold P in *. cbn [fst snd] in *.
      destruct (iteration_cases _ _ _ _ _ _ _ _ Hi)
        as [old [_ [_ [[_ [Hv _]] | [_ [Hv [_ [Hans _]]]]]]]].
      * left. exact Hv.
      * destruct Pa as [Pa | Pa]; [left; congruence | right; congruence].
    + right. reflexivity.
  - intros m Hm Hm1.
    pose (P := fun s : fit_state * Z * bool =>
      snd s = true \/
      ((snd (fst s) <= m)%Z /\
       f_warned (fst (fst s))
       = f_warned st ++ (if (snd (fst s) =? m)%Z then [i] else []))).
    apply (while_invariant P) in Hw.
    + destruct Hw as [[Hc | [Hle Hwarn]] Hexit]; [discriminate |].
      cbn [fst snd] in *. rewrite andb_true_r in Hexit.
      unfold Rltb in Hexit.
      destruct (Rlt_dec (IZR c') max_iter) as [| Hge]; [discriminate |].
      assert (Hcm : c' = m).
      { rewrite Hm in Hge. apply Rnot_lt_le, le_IZR in Hge. lia. }
      split; [exact Hcm |]. rewrite Hwarn, Hcm, Z.eqb_refl. reflexivity.
    + intros [[a ca] va] [[b cb] vb] Hcond Pa Hi. unfold P in *.
      cbn [fst snd] in *.
      apply andb_prop in Hcond. destruct Hcond as [Hlt Hva].
      apply negb_true_iff in Hva. subst va.
      destruct Pa as [Pa | [Ple Pw]]; [discriminate |].
      unfold Rltb in Hlt.
      destruct (Rlt_dec (IZR ca) max_iter) as [Hlt' |]; [| discriminate].
      rewrite Hm in Hlt'. apply lt_IZR in Hlt'.
      destruct (iteration_cases _ _ _ _ _ _ _ _ Hi)
        as [old [_ [_ [[_ [Hv _]] | [_ [_ [Hc [_ Hwarn]]]]]]]].
      * left. exact Hv.
      * right. subst cb. split; [lia |].
        rewrite Hwarn, Pw.
        replace (ca =? m)%Z with false by (symmetry; apply Z.eqb_neq; lia).
        rewrite app_nil_r.
        destruct (Z.eq_dec (ca + 1) m) as [He | Hne].
        -- rewrite Reqb_true by (rewrite Hm, He; reflexivity).
           rewrite He, Z.eqb_refl. reflexivity.
        -- rewrite Reqb_false
             by (rewrite Hm; intros Heq; apply eq_IZR in Heq; contradiction).
           replace (ca + 1 =? m)%Z with false
             by (symmetry; apply Z.eqb_neq; exact Hne).
           rewrite app_nil_r. reflexivity.
    + right. cbn [fst snd]. split; [lia |].
      replace (0 =? m)%Z with false by (symmetry; apply Z.eqb_neq; lia).
      rewrite app_nil_r. reflexivity.
  - intros Hle. unfold while in Hw.
    rewrite while_budget_spent in Hw by exact Hle.
    injection Hw as H1 H2. split; congruence.
Qed.

End BlockCoordinateDescentFacts.

(** ** The columns of the earlier lambda values *)

Lemma set_col_agree (k i : nat) (A A' : mat) (v : vec) :
  ans_agree k A A' -> (i < k)%nat ->
  opt_rel (ans_agree k) (set_col A i v) (set_col A' i v).
Proof.
  intros [Hr [Hk [Hk' Hc]]] Hi. unfold set_col.
  replace (i <? n_cols A)%nat with true by (symmetry; apply Nat.ltb_lt; lia).
  replace (i <? n_cols A')%nat with true by (symmetry; apply Nat.ltb_lt; lia).
  rewrite <- Hr. destruct (length v =? n_rows A)%nat; cbn [andb opt_rel];
    [| exact I].
  unfold ans_agree, n_cols, col in *. cbn [n_rows columns].
  rewrite !list_set_length.
  split; [reflexivity |]. split; [exact Hk |]. split; [exact Hk' |].
  intros j Hj. destruct (Nat.eq_dec j i) as [He | Hne].
  - subst j. rewrite !list_set_same by lia. reflexivity.
  - rewrite !list_set_other by exact Hne. apply Hc. exact Hj.
Qed.

Section PathPrefix.

Variables (y : vec) (W W' : mat) (X : cube) (tol : double).
Variables (p J : nat) (n : Z) (max_iter : R).

Let iter := iteration y X tol p J n max_iter.
Let while := while_loop y X tol p J n max_iter.

Lemma iteration_agree (k i : nat) (tw : vec) (s s' : fit_state) (c : Z)
  (conv : bool) :
  state_agree k s s' -> (i < k)%nat ->
  opt_rel (loop_agree k) (iter i tw (s, c, conv)) (iter i tw (s', c, conv)).
Proof.
  intros [Hb [Hx [Hw Ha]]] Hi. unfold iter, iteration.
  rewrite <- Hb, <- Hx, <- Hw.
  destruct (mat_of_mem (vectorise (f_beta s)) J p) as [old |];
    [| exact I].
  cbn [bind].
  destruct (sweep y X p n tw (f_beta s, f_x_beta s)) as [[b xb] |];
    [| exact I].
  cbn [bind fst snd].
  destruct (dabs (change b old) <? tol)%D.
  - pose proof (set_col_agree k i _ _ (vectorise b) Ha Hi) as Hset.
    destruct (set_col (f_ans s) i (vectorise b)) as [a1 |],
             (set_col (f_ans s') i (vectorise b)) as [a2 |];
      cbn [opt_rel bind] in *; try contradiction; [| exact I].
    unfold loop_agree, state_agree. cbn [fst snd f_beta f_x_beta f_warned f_ans].
    split; [| split; reflexivity].
    split; [reflexivity |]. split; [reflexivity |].
    split; [reflexivity | exact Hset].
  - cbn [opt_rel]. unfold loop_agree, state_agree.
    cbn [fst snd f_beta f_x_beta f_warned f_ans].
    split; [| split; reflexivity].
    split; [reflexivity |]. split; [reflexivity |].
    split; [reflexivity | exact Ha].
Qed.

Lemma while_agree (k i fuel : nat) (tw : vec) (a b : fit_state * Z * bool) :
  loop_agree k a b -> (i < k)%nat ->
  opt_rel (loop_agree k) (while fuel i tw a) (while fuel i tw b).
Proof.
  revert a b. induction fuel as [| fuel IH];
    intros [[s c] v] [[s' c'] v'] Hab Hi;
    pose proof Hab as [Hs [Hc Hv]]; cbn [fst snd] in Hs, Hc, Hv;
    subst c' v'; cbn [while while_loop];
    destruct (Rltb (IZR c) max_iter && negb v); cbn [opt_rel];
    try exact I; try exact Hab.
  fold iter.
  pose proof (iteration_agree k i tw s s' c v Hs Hi) as Hit.
  destruct (iter i tw (s, c, v)) as [a1 |], (iter i tw (s', c, v)) as [b1 |];
    cbn [opt_rel bind] in *; try contradiction; [| exact I].
  apply IH; assumption.
Qed.

Lemma lambda_run_agree (k i : nat) (s s' : fit_state) :
  col W i = col W' i -> (i < k)%nat -> state_agree k s s' ->
  opt_rel (state_agree k)
    (lambda_run y W X tol p J n max_iter s i)
    (lambda_run y W' X tol p J n max_iter s' i).
Proof.
  intros HW Hi Hs. unfold lambda_run. rewrite <- HW.
  destruct (col W i) as [wcol |]; cbn [bind opt_rel]; [| exact I].
  fold while.
  assert (Hl : loop_agree k (s, 0%Z, false) (s', 0%Z, false))
    by (unfold loop_agree; cbn [fst snd];
        split; [exact Hs | split; reflexivity]).
  pose proof (while_agree k i (Z.to_nat (up max_iter))
                (vdivs wcol (of_int n)) _ _ Hl Hi) as Hw.
  destruct (while _ i _ (s, 0%Z, false)) as [a1 |],
           (while _ i _ (s', 0%Z, false)) as [b1 |];
    cbn [opt_rel bind] in *; try contradiction; [| exact I].
  exact (proj1 Hw).
Qed.

Lemma fit_path_agree (k m : nat) (s s' : fit_state) :
  (m <= k)%nat -> (forall i, (i < m)%nat -> col W i = col W' i) ->
  state_agree k s s' ->
  opt_rel (state_agree k)
    (fit_path y W X tol p J n max_iter m s)
    (fit_path y W' X tol p J n max_iter m s').
Proof.
  induction m as [| m IH]; intros Hm HW Hs.
  - exact Hs.
  - rewrite !fit_path_S.
    assert (Hprev : opt_rel (state_agree k)
              (fit_path y W X tol p J n max_iter m s)
              (fit_path y W' X tol p J n max_iter m s'))
      by (apply IH; [lia | intros i Hi; apply HW; lia | exact Hs]).
    destruct (fit_path y W X tol p J n max_iter m s) as [a1 |],
             (fit_path y W' X tol p J n max_iter m s') as [b1 |];
      cbn [opt_rel bind] in *; try contradiction; [| exact I].
    apply lambda_run_agree; [apply HW; lia | lia | exact Hprev].
Qed.

End PathPrefix.

(** ** A fit with one observation, one block and one basis function *)

Lemma block_update_scalar (y0 w b : R) :
  0 <= w ->
  block_update [Fin y0] X1 1 [Fin w] (M1 b, M1 b) 0
  = Some (M1 (soft y0 w), M1 (soft y0 w)).
Proof.
  intros Hw.
  unfold block_update, X1, M1, slice, col, mat_vec, tmat_vec, vzip, row_sums,
    vdivs, row, dot, n_cols, of_int.
  cbn -[GetProxOne set_col Rltb Reqb].
  rewrite Reqb_false by lra.
  match goal with
  | |- context [GetProxOne [Fin ?e] _] => replace e with y0 by field
  end.
  rewrite GetProxOne_scalar by exact Hw. cbn.
  replace (0 + 1 * soft y0 w) with (soft y0 w) by lra.
  reflexivity.
Qed.

Lemma iteration_scalar (y0 w b tol max_iter : R) (i : nat) (ans : mat)
  (warned : list nat) (c : Z) (conv : bool) :
  0 <= w ->
  iteration [Fin y0] X1 (Fin tol) 1 1 1 max_iter i [Fin w]
    (FitState (M1 b) (M1 b) ans warned, c, conv)
  = if Rltb (Rabs (Rabs (soft y0 w) - Rabs b)) tol
    then a <- set_col ans i [Fin (soft y0 w)] ;;
         Some (FitState (M1 (soft y0 w)) (M1 (soft y0 w)) a warned, c, true)
    else Some (FitState (M1 (soft y0 w)) (M1 (soft y0 w)) ans
                 (if Reqb (IZR (c + 1)) max_iter then warned ++ [i] else warned),
               (c + 1)%Z, conv).
Proof.
  intros Hw. unfold iteration, sweep.
  cbn [f_beta f_x_beta f_ans f_warned seq for_each].
  rewrite block_update_scalar by exact Hw.
  unfold M1 at 1. unfold vectorise at 1, mat_of_mem.
  cbn [columns concat app length Nat.mul Nat.add Nat.leb bind fst snd chunks firstn].
  unfold change, M1 at 1 2, vectorise. cbn [columns concat app].
  change [Fin (soft y0 w)] with (map Fin [soft y0 w]).
  change [Fin b] with (map Fin [b]).
  rewrite !norm_fin, !norm_R_single. cbn [map dsub dneg dadd dabs dltb].
  replace (Rabs (soft y0 w) + - Rabs b) with (Rabs (soft y0 w) - Rabs b) by lra.
  reflexivity.
Qed.

Lemma up_eq (r : R) (z : Z) : r < IZR z -> IZR z <= r + 1 -> up r = z.
Proof. intros H1 H2. symmetry. apply tech_up; assumption. Qed.

Lemma vdivs_one (w : R) : vdivs [Fin w] (of_int 1) = [Fin w].
Proof.
  unfold vdivs, of_int, ddiv. cbn [map]. rewrite Reqb_false by lra.
  do 2 f_equal. field.
Qed.

Ltac solve_abs := unfold Rabs; repeat destruct (Rcase_abs _); lra.

Lemma soft_4_1 : soft 4 1 = 3.
Proof.
  unfold soft. replace (Rabs 4) with 4 by solve_abs.
  rewrite (factor_eq 1 4 (3 / 4)) by lra. lra.
Qed.

Lemma soft_4_5 : soft 4 5 = 0.
Proof.
  unfold soft. replace (Rabs 4) with 4 by solve_abs.
  rewrite factor_clip by lra. lra.
Qed.

(** The [while] loop with a budget of one iteration. *)
Lemma while_scalar_budget_1 (y0 w b tol : R) (i : nat) (ans : mat)
  (warned : list nat) :
  0 <= w ->
  while_loop [Fin y0] X1 (Fin tol) 1 1 1 1 (Z.to_nat (up 1)) i [Fin w]
    (FitState (M1 b) (M1 b) ans warned, 0%Z, false)
  = if Rltb (Rabs (Rabs (soft y0 w) - Rabs b)) tol
    then a <- set_col ans i [Fin (soft y0 w)] ;;
         Some (FitState (M1 (soft y0 w)) (M1 (soft y0 w)) a warned, 0%Z, true)
    else Some (FitState (M1 (soft y0 w)) (M1 (soft y0 w)) ans (warned ++ [i]),
               1%Z, false).
Proof.
  intros Hw. rewrite (up_eq 1 2) by lra.
  change (Z.to_nat 2) with 2%nat. cbn [while_loop].
  rewrite Rltb_true by lra. cbn [negb andb].
  rewrite iteration_scalar by exact Hw.
  destruct (Rltb (Rabs (Rabs (soft y0 w) - Rabs b)) tol).
  - destruct (set_col ans i [Fin (soft y0 w)]) as [a |]; [| reflexivity].
    cbn [bind]. rewrite andb_false_r. reflexivity.
  - cbn [bind]. rewrite (Rltb_false (IZR (0 + 1)) 1) by (simpl; lra).
    rewrite Reqb_true by (simpl; lra). reflexivity.
Qed.

(** The run for one lambda value with a budget of one iteration. *)
Lemma lambda_run_scalar_budget_1 (y0 w b tol : R) (W : mat) (i : nat)
  (ans : mat) (warned : list nat) :
  0 <= w -> col W i = Some [Fin w] ->
  lambda_run [Fin y0] W X1 (Fin tol) 1 1 1 1
    (FitState (M1 b) (M1 b) ans warned) i
  = if Rltb (Rabs (Rabs (soft y0 w) - Rabs b)) tol
    then a <- set_col ans i [Fin (soft y0 w)] ;;
         Some (FitState (M1 (soft y0 w)) (M1 (soft y0 w)) a warned)
    else Some (FitState (M1 (soft y0 w)) (M1 (soft y0 w)) ans (warned ++ [i])).
Proof.
  intros Hw Hcol. unfold lambda_run. rewrite Hcol. cbn [bind].
  rewrite vdivs_one, while_scalar_budget_1 by exact Hw.
  destruct (Rltb (Rabs (Rabs (soft y0 w) - Rabs b)) tol); [| reflexivity].
  destruct (set_col ans i [Fin (soft y0 w)]); reflexivity.
Qed.

Lemma FitAdditive_run_5_1 :
  FitAdditive [Fin 4] (W2 5 1) (M1 0) X1 (M1 0) (Fin (/ 2)) 1 1 1 2 1
  = Some (Mat 1 [[Fin 0]; [Fin 0]], [1%nat]).
Proof.
  unfold FitAdditive, fit_path. cbn [seq for_each].
  rewrite (lambda_run_scalar_budget_1 4 5) by (lra || reflexivity).
  rewrite soft_4_5, Rltb_true by solve_abs. cbn [bind].
  change (set_col (zeros_mat (1 * 1) 2) 0 [Fin 0])
    with (Some (Mat 1 [[Fin 0]; [Fin 0]])).
  cbn [bind].
  rewrite (lambda_run_scalar_budget_1 4 1) by (lra || reflexivity).
  rewrite soft_4_1, Rltb_false by solve_abs.
  reflexivity.
Qed.

Lemma FitAdditive_run_1_1 :
  FitAdditive [Fin 4] (W2 1 1) (M1 0) X1 (M1 0) (Fin (/ 2)) 1 1 1 2 1
  = Some (Mat 1 [[Fin 0]; [Fin 3]], [0%nat]).
Proof.
  unfold FitAdditive, fit_path. cbn [seq for_each].
  rewrite (lambda_run_scalar_budget_1 4 1) by (lra || reflexivity).
  rewrite soft_4_1, Rltb_false by solve_abs. cbn [bind].
  rewrite (lambda_run_scalar_budget_1 4 1) by (lra || reflexivity).
  rewrite soft_4_1, Rltb_true by solve_abs.
  reflexivity.
Qed.

Lemma FitAdditive_run_1 :
  FitAdditive [Fin 4] (Mat 1 [[Fin 1]]) (M1 0) X1 (M1 0) (Fin (/ 2)) 1 1 1 1 1
  = Some (Mat 1 [[Fin 0]], [0%nat]).
Proof.
  unfold FitAdditive, fit_path. cbn [seq for_each].
  rewrite (lambda_run_scalar_budget_1 4 1) by (lra || reflexivity).
  rewrite soft_4_1, Rltb_false by solve_abs.
  reflexivity.
Qed.

(** ** The lambda values are fitted one after the other *)

(** C2, the claim as stated fails.  One observation, one block, one basis
    function, [y = (4)], design 1, warm start 0, [tol = 1/2], a budget of
    one iteration.  With the weight columns [(5), (1)] the column of the
    second lambda is [(0)]; with the weight columns [(1), (1)] it is
    [(3)]: the second lambda is the same and so is every other input, and
    its column has changed with the first lambda.  Alone, the lambda 1
    gives the column [(0)]; after an equal lambda it gives [(3)]: the run
    starts from the [beta] that the run before has left. *)
Lemma column_of_a_lambda_changes_with_the_lambda_before :
  FitAdditive [Fin 4] (W2 5 1) (M1 0) X1 (M1 0) (Fin (/ 2)) 1 1 1 2 1
  = Some (Mat 1 [[Fin 0]; [Fin 0]], [1%nat])
  /\ FitAdditive [Fin 4] (W2 1 1) (M1 0) X1 (M1 0) (Fin (/ 2)) 1 1 1 2 1
     = Some (Mat 1 [[Fin 0]; [Fin 3]], [0%nat])
  /\ col (W2 5 1) 1 = col (W2 1 1) 1
  /\ col (Mat 1 [[Fin 0]; [Fin 0]]) 1 <> col (Mat 1 [[Fin 0]; [Fin 3]]) 1
  /\ FitAdditive [Fin 4] (Mat 1 [[Fin 1]]) (M1 0) X1 (M1 0) (Fin (/ 2))
       1 1 1 1 1
     = Some (Mat 1 [[Fin 0]], [0%nat]).
Proof.
  split; [exact FitAdditive_run_5_1 |].
  split; [exact FitAdditive_run_1_1 |].
  split; [reflexivity |].
  split; [| exact FitAdditive_run_1].
  unfold col. cbn [columns nth_error]. intros H. injection H as H. lra.
Qed.

Lemma col_zeros_mat (r c i : nat) :
  (i < c)%nat -> col (zeros_mat r c) i = Some (zeros r).
Proof.
  intros H. unfold col, zeros_mat. cbn [columns].
  apply nth_error_repeat. exact H.
Qed.

Lemma zeros_mat_agree (r k c c' : nat) :
  (k <= c)%nat -> (k <= c')%nat -> ans_agree k (zeros_mat r c) (zeros_mat r c').
Proof.
  intros Hc Hc'. unfold ans_agree, n_cols. cbn [zeros_mat n_rows columns].
  rewrite !repeat_length.
  split; [reflexivity |]. split; [exact Hc |]. split; [exact Hc' |].
  intros i Hi. rewrite !col_zeros_mat by lia. reflexivity.
Qed.

(** C2, amended.  The column of the lambda value of index [i] depends on
    the inputs and on the weight columns [0 .. i] only: the run for a
    lambda value starts from the [beta] and [x_beta] that the run for the
    lambda value before it has left (the first one from the warm start of
    the caller), so its column does not change when lambda values after it
    are added, removed or changed.  If the fit with [nlam'] columns [W']
    returns, so does the fit with the first [nlam] of them, and it returns
    the same first [nlam] columns. *)
Theorem column_of_a_lambda_depends_on_the_lambdas_up_to_it
  (y : vec) (W W' x_beta : mat) (x : cube) (beta : mat) (tol : double)
  (p J : nat) (n : Z) (nlam nlam' : nat) (max_iter : R)
  (ans' : mat) (warned' : list nat) :
  (nlam <= nlam')%nat ->
  (forall i, (i < nlam)%nat -> col W i = col W' i) ->
  FitAdditive y W' x_beta x beta tol p J n nlam' max_iter
  = Some (ans', warned') ->
  (exists ans warned,
     FitAdditive y W x_beta x beta tol p J n nlam max_iter
     = Some (ans, warned) /\
     forall i, (i < nlam)%nat -> col ans i = col ans' i)
  /\
  (forall k st,
     fit_path y W x tol p J n max_iter (S k) st
     = (st' <- fit_path y W x tol p J n max_iter k st ;;
        lambda_run y W x tol p J n max_iter st' k)).
Proof.
  intros Hn HW Hfit. split; [| intros k st; apply fit_path_S].
  unfold FitAdditive in *.
  set (init := FitState beta x_beta (zeros_mat (p * J) nlam) []).
  set (init' := FitState beta x_beta (zeros_mat (p * J) nlam') []) in *.
  destruct (fit_path y W' x tol p J n max_iter nlam' init') as [fin' |] eqn:Hp';
    [| discriminate].
  cbn [bind] in Hfit. injection Hfit as Ha Hw. subst ans' warned'.
  replace nlam' with (nlam + (nlam' - nlam))%nat in Hp' by lia.
  rewrite fit_path_split in Hp'.
  destruct (fit_path y W' x tol p J n max_iter nlam init') as [mid' |] eqn:Hm';
    [| discriminate].
  cbn [bind] in Hp'.
  assert (Hinit : state_agree nlam init init').
  { unfold state_agree, init, init'. cbn [f_beta f_x_beta f_warned f_ans].
    repeat (split; [reflexivity |]). apply zeros_mat_agree; lia. }
  pose proof (fit_path_agree y W W' x tol p J n max_iter nlam nlam init init'
                (le_n _) HW Hinit) as Hag.
  rewrite Hm' in Hag.
  destruct (fit_path y W x tol p J n max_iter nlam init) as [mid |];
    cbn [opt_rel] in Hag; [| contradiction].
  exists (f_ans mid), (f_warned mid). split; [reflexivity |].
  intros i Hi.
  destruct Hag as [_ [_ [_ [_ [_ [_ Hcols]]]]]].
  destruct (for_each_run_frame _ _ _ _ _ _ _ _ _ _ _ Hp') as [_ [_ [Hfr _]]].
  rewrite Hfr by (rewrite in_seq; lia).
  apply Hcols. exact Hi.
Qed.

Lemma column_of_a_lambda_depends_on_the_lambdas_up_to_it_witness :
  (exists ans warned,
     FitAdditive [Fin 4] (Mat 1 [[Fin 1]]) (M1 0) X1 (M1 0) (Fin (/ 2))
       1 1 1 1 1
     = Some (ans, warned) /\
     forall i, (i < 1)%nat ->
       col ans i = col (Mat 1 [[Fin 0]; [Fin 3]]) i)
  /\
  (forall k st,
     fit_path [Fin 4] (Mat 1 [[Fin 1]]) X1 (Fin (/ 2)) 1 1 1 1 (S k) st
     = (st' <- fit_path [Fin 4] (Mat 1 [[Fin 1]]) X1 (Fin (/ 2)) 1 1 1 1 k st ;;
        lambda_run [Fin 4] (Mat 1 [[Fin 1]]) X1 (Fin (/ 2)) 1 1 1 1 st' k)).
Proof.
  apply (column_of_a_lambda_depends_on_the_lambdas_up_to_it
           [Fin 4] (Mat 1 [[Fin 1]]) (W2 1 1) (M1 0) X1 (M1 0) (Fin (/ 2))
           1 1 1 1 2 1 (Mat 1 [[Fin 0]; [Fin 3]]) [0%nat]).
  - lia.
  - intros i Hi. assert (i = 0%nat) by lia. subst i. reflexivity.
  - exact FitAdditive_run_1_1.
Defined.

(** ** The convergence test *)




(** In that pass the norm of the difference of the two [beta] is 6, which
    is not below [tol = 1]: a test on the norm of the difference would not
    have passed. *)
Example norm_of_the_difference_is_not_the_test :
  norm (map Fin [3 - -3]) = Fin 6 /\ (dabs (Fin 6) <? Fin 1)%D = false
  /\ (dabs (change (M1 3) (M1 (-3))) <? Fin 1)%D = true.
Proof.
  split; [| split].
  - rewrite norm_fin, (norm_R_eq [3 - -3] 6) by (simpl; lra). reflexivity.
  - cbn [dabs dltb]. apply Rltb_false. solve_abs.
  - unfold change, M1, vectorise. cbn [columns concat app].
    change [Fin 3] with (map Fin [3]). change [Fin (-3)] with (map Fin [-3]).
    rewrite !norm_fin, !norm_R_single. cbn [dsub dneg dadd dabs dltb].
    apply Rltb_true. solve_abs.
Qed.

(** ** A run that does not converge *)

Lemma while_run_budget_3_2 :
  while_loop [Fin 4] X1 (Fin 0) 1 1 1 (3 / 2) (Z.to_nat (up (3 / 2))) 0
    [Fin 1] (FitState (M1 0) (M1 0) (zeros_mat 1 1) [], 0%Z, false)
  = Some (FitState (M1 3) (M1 3) (zeros_mat 1 1) [], 2%Z, false).
Proof.
  rewrite (up_eq (3 / 2) 2) by lra.
  change (Z.to_nat 2) with 2%nat. cbn [while_loop].
  rewrite Rltb_true by lra. cbn [negb andb].
  rewrite iteration_scalar by lra.
  rewrite (Rltb_false _ 0) by apply Rabs_pos.
  rewrite Reqb_false by (simpl; lra).
  cbn [bind]. rewrite Rltb_true by (simpl; lra). cbn [negb andb].
  rewrite soft_4_1, iteration_scalar by lra.
  rewrite (Rltb_false _ 0) by apply Rabs_pos.
  rewrite Reqb_false by (simpl; lra).
  cbn [bind]. rewrite Rltb_false by (simpl; lra).
  rewrite soft_4_1. reflexivity.
Qed.

Lemma FitAdditive_run_budget_3_2 :
  FitAdditive [Fin 4] (Mat 1 [[Fin 1]]) (M1 0) X1 (M1 0) (Fin 0) 1 1 1 1 (3 / 2)
  = Some (zeros_mat 1 1, []).
Proof.
  unfold FitAdditive, fit_path, lambda_run. cbn [seq for_each].
  change (col (Mat 1 [[Fin 1]]) 0) with (Some [Fin 1]). cbn [bind].
  rewrite vdivs_one. change (1 * 1)%nat with 1%nat.
  rewrite while_run_budget_3_2. reflexivity.
Qed.

Lemma FitAdditive_run_budget_0 :
  FitAdditive [Fin 4] (Mat 1 [[Fin 1]]) (M1 0) X1 (M1 0) (Fin 0) 1 1 1 1 0
  = Some (zeros_mat 1 1, []).
Proof.
  unfold FitAdditive, fit_path, lambda_run. cbn [seq for_each].
  change (col (Mat 1 [[Fin 1]]) 0) with (Some [Fin 1]). cbn [bind].
  rewrite while_budget_spent by (simpl; lra). reflexivity.
Qed.

(** C7, the claim as stated fails on the warning.  [tol = 0], so that the
    test never passes.  With [max_iter = 3/2] the loop runs two sweeps and
    ends with the counter at 2 and the flag down; the counter is never
    equal to [max_iter], and no warning is raised.  With [max_iter = 0] no
    sweep is run and no warning is raised.  In both, the column is left at
    zero. *)
Lemma budget_spent_without_a_warning :
  (while_loop [Fin 4] X1 (Fin 0) 1 1 1 (3 / 2) (Z.to_nat (up (3 / 2))) 0
     [Fin 1] (FitState (M1 0) (M1 0) (zeros_mat 1 1) [], 0%Z, false)
   = Some (FitState (M1 3) (M1 3) (zeros_mat 1 1) [], 2%Z, false)
   /\ FitAdditive [Fin 4] (Mat 1 [[Fin 1]]) (M1 0) X1 (M1 0) (Fin 0)
        1 1 1 1 (3 / 2)
      = Some (zeros_mat 1 1, []))
  /\
  (while_loop [Fin 4] X1 (Fin 0) 1 1 1 0 (Z.to_nat (up 0)) 0
     [Fin 1] (FitState (M1 0) (M1 0) (zeros_mat 1 1) [], 0%Z, false)
   = Some (FitState (M1 0) (M1 0) (zeros_mat 1 1) [], 0%Z, false)
   /\ FitAdditive [Fin 4] (Mat 1 [[Fin 1]]) (M1 0) X1 (M1 0) (Fin 0)
        1 1 1 1 0
      = Some (zeros_mat 1 1, [])).
Proof.
  split; split.
  - exact while_run_budget_3_2.
  - exact FitAdditive_run_budget_3_2.
  - apply while_budget_spent. simpl. lra.
  - exact FitAdditive_run_budget_0.
Qed.

(** C7, amended.  Let the run for the lambda value of index [i] end with
    the flag down: the test has never passed.  Then the run is not an
    error and has stored nothing; column [i] of the answer of
    [FitAdditive] is all zeros; the run for the next lambda value starts
    from the state that this run has reached.  When [max_iter] is a whole
    number [>= 1], the warning has been raised for [i]; when
    [max_iter <= 0], no sweep has been run and the state is the one the
    run started from. *)
Theorem run_without_convergence_leaves_its_column_zero
  (y : vec) (W x_beta : mat) (x : cube) (beta : mat) (tol : double)
  (p J : nat) (n : Z) (nlam : nat) (max_iter : R)
  (i : nat) (st_i st' : fit_state) (wcol : vec) (c' : Z)
  (ans : mat) (warned : list nat) :
  (i < nlam)%nat ->
  fit_path y W x tol p J n max_iter i
    (FitState beta x_beta (zeros_mat (p * J) nlam) []) = Some st_i ->
  col W i = Some wcol ->
  while_loop y x tol p J n max_iter (Z.to_nat (up max_iter)) i
    (vdivs wcol (of_int n)) (st_i, 0%Z, false) = Some (st', c', false) ->
  FitAdditive y W x_beta x beta tol p J n nlam max_iter = Some (ans, warned) ->
  lambda_run y W x tol p J n max_iter st_i i = Some st' /\
  f_ans st' = f_ans st_i /\
  col ans i = Some (zeros (p * J)) /\
  fit_path y W x tol p J n max_iter (S i)
    (FitState beta x_beta (zeros_mat (p * J) nlam) []) = Some st' /\
  (forall m, max_iter = IZR m -> (1 <= m)%Z ->
     f_warned st' = f_warned st_i ++ [i] /\ In i warned) /\
  (max_iter <= 0 -> st' = st_i).
Proof.
  intros Hi Hpath Hcol Hwhile Hfit.
  set (init := FitState beta x_beta (zeros_mat (p * J) nlam) []) in *.
  assert (Hrun : lambda_run y W x tol p J n max_iter st_i i = Some st').
  { unfold lambda_run. rewrite Hcol. cbn [bind]. rewrite Hwhile. reflexivity. }
  assert (Hnext : fit_path y W x tol p J n max_iter (S i) init = Some st').
  { rewrite fit_path_S, Hpath. exact Hrun. }
  destruct (while_not_converged _ _ _ _ _ _ _ _ _ _ _ _ _ Hwhile)
    as [Hans [Hwarn Hzero]].
  unfold FitAdditive in Hfit. fold init in Hfit.
  replace nlam with (S i + (nlam - S i))%nat in Hfit by lia.
  rewrite fit_path_split, Hnext in Hfit. cbn [bind] in Hfit.
  destruct (for_each _ (seq (S i) (nlam - S i)) st') as [fin |] eqn:Hrest;
    [| discriminate].
  cbn [bind] in Hfit. injection Hfit as Ha Hw. subst ans warned.
  destruct (for_each_run_frame _ _ _ _ _ _ _ _ _ _ _ Hrest)
    as [_ [_ [Hfr [extra Hex]]]].
  unfold fit_path in Hpath.
  destruct (for_each_run_frame _ _ _ _ _ _ _ _ _ _ _ Hpath)
    as [_ [_ [Hfr0 _]]].
  split; [exact Hrun |]. split; [exact Hans |]. split.
  { rewrite Hfr by (rewrite in_seq; lia). rewrite Hans.
    rewrite Hfr0 by (rewrite in_seq; lia).
    unfold init. cbn [f_ans]. apply col_zeros_mat. exact Hi. }
  split; [exact Hnext |]. split.
  - intros m Hm Hm1. destruct (Hwarn m Hm Hm1) as [_ Hw].
    split; [exact Hw |]. rewrite Hex, Hw.
    apply in_or_app. left. apply in_or_app. right. left. reflexivity.
  - intros Hle. apply (Hzero Hle).
Qed.

Lemma run_without_convergence_leaves_its_column_zero_witness :
  lambda_run [Fin 4] (W2 1 1) X1 (Fin (/ 2)) 1 1 1 1
    (FitState (M1 0) (M1 0) (zeros_mat (1 * 1) 2) []) 0
  = Some (FitState (M1 3) (M1 3) (zeros_mat (1 * 1) 2) [0%nat]) /\
  f_ans (FitState (M1 3) (M1 3) (zeros_mat (1 * 1) 2) [0%nat])
  = f_ans (FitState (M1 0) (M1 0) (zeros_mat (1 * 1) 2) []) /\
  col (Mat 1 [[Fin 0]; [Fin 3]]) 0 = Some (zeros (1 * 1)) /\
  fit_path [Fin 4] (W2 1 1) X1 (Fin (/ 2)) 1 1 1 1 1
    (FitState (M1 0) (M1 0) (zeros_mat (1 * 1) 2) [])
  = Some (FitState (M1 3) (M1 3) (zeros_mat (1 * 1) 2) [0%nat]) /\
  (forall m, 1 = IZR m -> (1 <= m)%Z ->
     f_warned (FitState (M1 3) (M1 3) (zeros_mat (1 * 1) 2) [0%nat])
     = f_warned (FitState (M1 0) (M1 0) (zeros_mat (1 * 1) 2) []) ++ [0%nat]
     /\ In 0%nat [0%nat]) /\
  (1 <= 0 ->
     FitState (M1 3) (M1 3) (zeros_mat (1 * 1) 2) [0%nat]
     = FitState (M1 0) (M1 0) (zeros_mat (1 * 1) 2) []).
Proof.
  apply (run_without_convergence_leaves_its_column_zero
           [Fin 4] (W2 1 1) (M1 0) X1 (M1 0) (Fin (/ 2)) 1 1 1 2 1
           0 (FitState (M1 0) (M1 0) (zeros_mat (1 * 1) 2) [])
           (FitState (M1 3) (M1 3) (zeros_mat (1 * 1) 2) [0%nat])
           [Fin 1] 1 (Mat 1 [[Fin 0]; [Fin 3]]) [0%nat]).
  - lia.
  - reflexivity.
  - reflexivity.
  - rewrite vdivs_one, while_scalar_budget_1 by lra.
    rewrite soft_4_1, Rltb_false by solve_abs. reflexivity.
  - exact FitAdditive_run_1_1.
Defined.

(** * Further properties of the code *)

(** ** GetProxOne: errors, weights and the shape of the loop *)

(** X1.  [GetProxOne] returns exactly when there is a weight for every
    entry of [y]: then the result has the length of [y]; with fewer
    weights than entries the first read of [weights(j)] is out of bounds
    and the call is an error.  An empty [y] gives an empty result. *)
Theorem GetProxOne_returns_with_a_weight_for_every_entry (y weights : vec) :
  ((length y <= length weights)%nat ->
     exists beta, GetProxOne y weights = Some beta /\ length beta = length y)
  /\ ((length weights < length y)%nat -> GetProxOne y weights = None)
  /\ GetProxOne [] weights = Some [].
Proof.
  split; [| split].
  - intros Hlen. destruct (GetProxOne_total y weights Hlen) as [b Hb].
    exists b. split; [exact Hb | apply (GetProxOne_length _ _ _ Hb)].
  - apply GetProxOne_too_few_weights.
  - reflexivity.
Qed.

Lemma GetProxOne_firstn (y weights : vec) :
  GetProxOne y weights = GetProxOne y (firstn (length y) weights).
Proof.
  revert weights. induction y as [| y0 ys IH]; intros weights.
  - reflexivity.
  - destruct weights as [| w0 ws].
    + reflexivity.
    + cbn [length firstn]. rewrite !GetProxOne_cons, <- IH. reflexivity.
Qed.

(** X2.  [GetProxOne] reads the first [length y] weights only: weights
    past the end of [y] do not change the result.  [FitAdditive] relies on
    it when it passes a whole weight column to every block. *)
Theorem GetProxOne_ignores_the_weights_past_the_input
  (y weights more : vec) :
  (length y <= length weights)%nat ->
  GetProxOne y (weights ++ more) = GetProxOne y weights.
Proof.
  intros Hlen.
  rewrite (GetProxOne_firstn y (weights ++ more)), (GetProxOne_firstn y weights).
  rewrite firstn_app.
  replace (length y - length weights)%nat with 0%nat by lia.
  cbn [firstn]. rewrite app_nil_r. reflexivity.
Qed.

Lemma GetProxOne_ignores_the_weights_past_the_input_witness :
  GetProxOne [Fin 4; Fin 3] ([Fin 1; Fin 0] ++ [Fin 7; NaN])
  = GetProxOne [Fin 4; Fin 3] [Fin 1; Fin 0].
Proof.
  apply (GetProxOne_ignores_the_weights_past_the_input
           [Fin 4; Fin 3] [Fin 1; Fin 0] [Fin 7; NaN]).
  simpl. lia.
Defined.

(** X3.  The loop that runs from the last entry to the first and rewrites
    the suffix in place computes a recursion on the vector: the result for
    [y0 :: ys] is the result for the tail [ys], with [y0] put in front, and
    the whole multiplied by the scaling factor of the first weight.  The
    steps [j >= 1] never touch entry 0 and never read weight 0. *)
Theorem GetProxOne_is_a_recursion_on_the_tail
  (y0 w0 : double) (ys ws : vec) :
  GetProxOne (y0 :: ys) (w0 :: ws)
  = match GetProxOne ys ws with
    | Some t =>
        Some (scale (cpp_max (1 - w0 / norm (y0 :: t))%D 0%D) (y0 :: t))
    | None => None
    end.
Proof. apply GetProxOne_cons. Qed.

(** ** cpp_max and the scaling factor *)

(** X4.  [cpp_max] of two finite numbers is their maximum.  A NaN argument
    is skipped by Armadillo's running maximum, and the result is never
    NaN. *)
Theorem cpp_max_is_the_maximum_and_never_nan :
  (forall a b : R, cpp_max (Fin a) (Fin b) = Fin (Rmax a b))
  /\ (forall a : R, cpp_max (Fin a) NaN = Fin a /\ cpp_max NaN (Fin a) = Fin a)
  /\ (forall x y : double, cpp_max x y <> NaN).
Proof.
  split; [| split].
  - intros a b. unfold cpp_max, direct_max, dgtb. cbn [fold_left dltb].
    unfold Rmax, Rltb.
    destruct (Rlt_dec a b) as [Hlt | Hge], (Rle_dec a b) as [Hle | Hgt];
      try reflexivity; try lra.
    f_equal. lra.
  - intros a. split; reflexivity.
  - intros x y. unfold cpp_max, direct_max, dgtb.
    destruct x as [a | | |], y as [b | | |]; cbn [fold_left dltb];
      try discriminate; destruct (Rltb a b); discriminate.
Qed.

Lemma norm_cases (v : vec) :
  norm v = NaN \/ norm v = PInf \/ exists s, norm v = Fin s /\ 0 <= s.
Proof.
  unfold norm. destruct (fold_left _ v 0%D) as [a | | |]; cbn [dsqrt].
  - destruct (Rltb a 0); [left; reflexivity |].
    right; right. exists (sqrt a). split; [reflexivity | apply sqrt_pos].
  - right; left; reflexivity.
  - left; reflexivity.
  - left; reflexivity.
Qed.

(** X5.  The scaling factor of a step is never negative and never NaN,
    whatever the weight and the suffix: it is a finite number [>= 0] or
    +inf.  For a finite weight [>= 0] it is a finite number between 0 and
    1, for every suffix, NaN and infinite entries included. *)
Theorem scaling_factor_is_in_range (wj : double) (suffix : vec) :
  (shrink wj suffix = PInf \/ exists c, shrink wj suffix = Fin c /\ 0 <= c)
  /\ (forall w, wj = Fin w -> 0 <= w ->
        exists c, shrink wj suffix = Fin c /\ 0 <= c <= 1).
Proof.
  split.
  - unfold shrink. destruct (1 - wj / norm suffix)%D as [a | | |].
    + right. rewrite cpp_max_fin. exists (Rmax a 0).
      split; [reflexivity | apply Rmax_r].
    + left. reflexivity.
    + right. exists 0. split; [reflexivity | lra].
    + right. exists 0. split; [reflexivity | lra].
  - intros w Hwj Hw. subst wj. unfold shrink.
    destruct (norm_cases suffix) as [Hn | [Hn | [s [Hn Hs]]]]; rewrite Hn.
    + exists 0. split; [reflexivity | lra].
    + exists 1. cbn [ddiv dsub dneg dadd]. rewrite cpp_max_fin.
      split; [f_equal; unfold Rmax; destruct (Rle_dec _ _); lra | lra].
    + exists (factor w s). split; [| apply factor_range; assumption].
      unfold factor, ddiv. destruct (Req_dec_T s 0) as [Hz | Hnz].
      * rewrite !Reqb_true by assumption.
        destruct (Req_dec_T w 0) as [Hw0 | Hw1].
        -- subst w. rewrite Rsign_zero. reflexivity.
        -- rewrite Rsign_pos by lra. reflexivity.
      * rewrite !Reqb_false by assumption.
        unfold dsub, dneg, dadd. rewrite cpp_max_fin. reflexivity.
Qed.

(** ** GetProxOne on finite data: larger weights shrink more *)

Lemma sum_sq_le (l' l : list R) :
  (forall k, Rabs (nth k l' 0) <= Rabs (nth k l 0)) -> sum_sq l' <= sum_sq l.
Proof.
  revert l. induction l' as [| a r IH]; intros l H.
  - apply sum_sq_nonneg.
  - assert (Ha : a * a <= nth 0 l 0 * nth 0 l 0).
    { specialize (H 0%nat). cbn [nth] in H. unfold Rabs in H.
      destruct (Rcase_abs a), (Rcase_abs (nth 0 l 0)); nra. }
    destruct l as [| b m].
    + cbn [sum_sq nth] in *.
      assert (Hr : sum_sq r <= sum_sq []).
      { apply IH. intros k. specialize (H (S k)). cbn [nth] in H.
        destruct k; exact H. }
      cbn [sum_sq] in Hr. lra.
    + cbn [sum_sq nth] in *.
      assert (Hr : sum_sq r <= sum_sq m).
      { apply IH. intros k. specialize (H (S k)). exact H. }
      lra.
Qed.

Lemma factor_mono (w w' s s' : R) :
  0 <= w <= w' -> 0 <= s' <= s -> factor w' s' <= factor w s.
Proof.
  intros Hw Hs.
  destruct (Req_dec_T s' 0) as [Hz | Hnz].
  - rewrite Hz, factor_zero_norm. apply factor_range; lra.
  - unfold factor. rewrite !Reqb_false by lra.
    assert (Hq : w / s <= w' / s').
    { apply (Rle_trans _ (w / s')).
      - unfold Rdiv. apply Rmult_le_compat_l; [lra |].
        apply Rinv_le_contravar; lra.
      - unfold Rdiv. apply Rmult_le_compat_r; [| lra].
        left. apply Rinv_0_lt_compat. lra. }
    apply Rle_max_compat_r. lra.
Qed.

Lemma prox_R_monotone (y w w' : list R) (k : nat) :
  Forall2 (fun a b => 0 <= a <= b) w w' ->
  Rabs (nth k (prox_R y w') 0) <= Rabs (nth k (prox_R y w) 0).
Proof.
  intros H. revert y k. induction H as [| a b ws ws' Hab Hws IH]; intros y k.
  - destruct y; apply Rle_refl.
  - destruct y as [| y0 ys]; [apply Rle_refl |].
    cbn [prox_R]. rewrite !nth_map_Rmult.
    set (t := prox_R ys ws). set (t' := prox_R ys ws').
    assert (Hs : norm_R (y0 :: t') <= norm_R (y0 :: t)).
    { unfold norm_R. apply sqrt_le_1_alt. apply sum_sq_le.
      intros [| j]; cbn [nth]; [apply Rle_refl | apply IH]. }
    assert (Hf : factor b (norm_R (y0 :: t')) <= factor a (norm_R (y0 :: t))).
    { apply factor_mono; [exact Hab |].
      split; [apply norm_R_nonneg | exact Hs]. }
    assert (Hf' : 0 <= factor b (norm_R (y0 :: t')))
      by (apply factor_range; [lra | apply norm_R_nonneg]).
    rewrite !Rabs_mult, !(Rabs_pos_eq (factor _ _)) by lra.
    assert (Hk : Rabs (nth k (y0 :: t') 0) <= Rabs (nth k (y0 :: t) 0)).
    { destruct k as [| j]; cbn [nth]; [apply Rle_refl | apply IH]. }
    pose proof (Rabs_pos (nth k (y0 :: t') 0)).
    nra.
Qed.

(** X7.  Larger weights shrink more, entry by entry: on a finite input,
    if every weight of [w'] is at least the weight of [w] (all [>= 0]),
    every entry of the result for [w'] is no larger in absolute value than
    the entry of the result for [w]; so an entry that is zero for [w] is
    zero for [w'].  Along a lambda path the weights grow with lambda: the
    set of non-zero coefficients can only shrink when lambda grows. *)
Theorem GetProxOne_shrinks_more_with_larger_weights (y w w' : list R) :
  Forall2 (fun a b => 0 <= a <= b) w w' -> (length y <= length w)%nat ->
  exists beta beta' : list R,
    GetProxOne (map Fin y) (map Fin w) = Some (map Fin beta) /\
    GetProxOne (map Fin y) (map Fin w') = Some (map Fin beta') /\
    forall k,
      Rabs (nth k beta' 0) <= Rabs (nth k beta 0) /\
      (nth k beta 0 = 0 -> nth k beta' 0 = 0).
Proof.
  intros H Hlen. exists (prox_R y w), (prox_R y w').
  assert (Hw : Forall (fun x => 0 <= x) w).
  { clear Hlen. induction H as [| a b ws ws' Hab _ IH]; constructor;
      [lra | exact IH]. }
  assert (Hw' : Forall (fun x => 0 <= x) w').
  { clear Hlen Hw. induction H as [| a b ws ws' Hab _ IH]; constructor;
      [lra | exact IH]. }
  split; [apply GetProxOne_fin; assumption |].
  split.
  { apply GetProxOne_fin; [exact Hw' |].
    rewrite <- (Forall2_length H). exact Hlen. }
  intros k. pose proof (prox_R_monotone y w w' k H) as Hk.
  split; [exact Hk |].
  intros H0. rewrite H0, Rabs_R0 in Hk.
  pose proof (Rabs_pos (nth k (prox_R y w') 0)).
  destruct (Req_dec_T (nth k (prox_R y w') 0) 0) as [Hz | Hnz]; [exact Hz |].
  apply Rabs_pos_lt in Hnz. lra.
Qed.

Lemma GetProxOne_shrinks_more_with_larger_weights_witness :
  exists beta beta' : list R,
    GetProxOne (map Fin [4; 3]) (map Fin [1; 0]) = Some (map Fin beta) /\
    GetProxOne (map Fin [4; 3]) (map Fin [2; 5]) = Some (map Fin beta') /\
    forall k,
      Rabs (nth k beta' 0) <= Rabs (nth k beta 0) /\
      (nth k beta 0 = 0 -> nth k beta' 0 = 0).
Proof.
  apply (GetProxOne_shrinks_more_with_larger_weights [4; 3] [1; 0] [2; 5]).
  - constructor; [lra |]. constructor; [lra | constructor].
  - simpl. lia.
Defined.

Lemma norm_R_all_zero (l : list R) :
  Forall (fun x => x = 0) l -> norm_R l = 0.
Proof.
  intros H. unfold norm_R.
  assert (Hz : sum_sq l = 0).
  { induction H as [| x t Hx _ IH]; simpl; [reflexivity |].
    rewrite IH, Hx. lra. }
  rewrite Hz. apply sqrt_0.
Qed.

(** ** GetProx, the default max_lambda and solveHierBasis *)

Lemma map_opt_total {A B : Type} (f : A -> option B) (l : list A) :
  Forall (fun a => exists b, f a = Some b) l ->
  exists bs, map_opt f l = Some bs.
Proof.
  induction 1 as [| a t [b Hb] _ [bs IH]]; [exists []; reflexivity |].
  exists (b :: bs). cbn [map_opt]. rewrite Hb. cbn [bind]. rewrite IH.
  reflexivity.
Qed.

Lemma map_opt_Forall {A B : Type} (f : A -> option B) (P : B -> Prop)
  (l : list A) (bs : list B) :
  (forall a b, f a = Some b -> P b) -> map_opt f l = Some bs -> Forall P bs.
Proof.
  intros HP. revert bs. induction l as [| a t IH]; intros bs H; simpl in H.
  - injection H as H. subst bs. constructor.
  - destruct (f a) as [b |] eqn:Hb; [| discriminate]. simpl in H.
    destruct (map_opt f t) as [bs' |]; [| discriminate].
    injection H as H. subst bs. constructor.
    + apply (HP a). exact Hb.
    + apply IH. reflexivity.
Qed.

Lemma map_opt_const {A B : Type} (f : A -> option B) (b : B) (l : list A) :
  Forall (fun a => f a = Some b) l ->
  map_opt f l = Some (repeat b (length l)).
Proof.
  induction 1 as [| a t Ha _ IH]; [reflexivity |].
  cbn [map_opt length repeat]. rewrite Ha. cbn [bind]. rewrite IH.
  reflexivity.
Qed.

(** X10.  For a matrix of weights whose columns all have [n_rows] entries:
    [GetProx] returns when the weights have at least as many rows as [y]
    has entries, and the result has one row for each entry of [y] and one
    column for each column of weights; with fewer rows and at least one
    column it raises an error; with no column it returns the matrix with
    no column. *)
Theorem GetProx_returns_when_the_weights_have_a_row_for_every_entry
  (y : vec) (W : mat) :
  wf_mat W ->
  ((length y <= n_rows W)%nat ->
     exists B, GetProx y W = Some B /\ n_rows B = length y /\
               n_cols B = n_cols W /\ wf_mat B) /\
  ((n_rows W < length y)%nat -> (0 < n_cols W)%nat -> GetProx y W = None) /\
  (n_cols W = 0%nat -> GetProx y W = Some (Mat (length y) [])).
Proof.
  intros Hwf. rewrite GetProx_columns. unfold wf_mat, n_cols in *.
  split; [| split].
  - intros Hlen.
    destruct (map_opt_total (GetProxOne y) (columns W)) as [bs Hbs].
    { eapply Forall_impl; [| exact Hwf]. intros c Hc. cbv beta in Hc.
      apply GetProxOne_total. lia. }
    exists (Mat (length y) bs). rewrite Hbs. cbn [option_map n_rows columns].
    split; [reflexivity |]. split; [reflexivity |]. split.
    + apply (map_opt_length _ _ _ Hbs).
    + apply (map_opt_Forall (GetProxOne y) _ (columns W)); [| exact Hbs].
      intros a b Hab. apply (GetProxOne_length _ _ _ Hab).
  - intros Hlt Hpos. revert Hwf Hpos.
    destruct (columns W) as [| c rest]; intros Hwf Hpos;
      [simpl in Hpos; lia |].
    inversion Hwf as [| ? ? Hc _]; subst. cbn [map_opt].
    rewrite GetProxOne_too_few_weights by lia. reflexivity.
  - intros H0. destruct (columns W); [reflexivity | discriminate].
Qed.

Lemma GetProx_returns_when_the_weights_have_a_row_for_every_entry_witness :
  ((length [Fin 4; Fin 3] <= n_rows (Mat 2 [[Fin 1; Fin 0]]))%nat ->
     exists B, GetProx [Fin 4; Fin 3] (Mat 2 [[Fin 1; Fin 0]]) = Some B /\
               n_rows B = length [Fin 4; Fin 3] /\
               n_cols B = n_cols (Mat 2 [[Fin 1; Fin 0]]) /\ wf_mat B) /\
  ((n_rows (Mat 2 [[Fin 1; Fin 0]]) < length [Fin 4; Fin 3])%nat ->
   (0 < n_cols (Mat 2 [[Fin 1; Fin 0]]))%nat ->
   GetProx [Fin 4; Fin 3] (Mat 2 [[Fin 1; Fin 0]]) = None) /\
  (n_cols (Mat 2 [[Fin 1; Fin 0]]) = 0%nat ->
   GetProx [Fin 4; Fin 3] (Mat 2 [[Fin 1; Fin 0]])
   = Some (Mat (length [Fin 4; Fin 3]) [])).
Proof.
  apply (GetProx_returns_when_the_weights_have_a_row_for_every_entry
           [Fin 4; Fin 3] (Mat 2 [[Fin 1; Fin 0]])).
  unfold wf_mat. cbn [columns n_rows]. constructor; [reflexivity | constructor].
Defined.

Lemma nth_error_map_combine {A B C : Type} (f : A * B -> C) (l1 : list A)
  (l2 : list B) (i : nat) (a : A) (b : B) :
  nth_error l1 i = Some a -> nth_error l2 i = Some b ->
  nth_error (map f (combine l1 l2)) i = Some (f (a, b)).
Proof.
  revert l2 i. induction l1 as [| x t IH]; intros l2 i Ha Hb.
  - destruct i; discriminate.
  - destruct l2 as [| z l2]; [destruct i; discriminate |].
    destruct i as [| i]; simpl in *.
    + injection Ha as Ha. injection Hb as Hb. subst. reflexivity.
    + apply IH; assumption.
Qed.

Lemma each_row_times_col (W W1 : mat) (lambdas : vec) :
  each_row_times W lambdas = Some W1 ->
  n_cols W = length lambdas /\
  forall i w lam, col W i = Some w -> nth_error lambdas i = Some lam ->
    col W1 i = Some (map (fun x => x * lam)%D w).
Proof.
  unfold each_row_times.
  destruct (n_cols W =? length lambdas)%nat eqn:He; [| discriminate].
  intros H. injection H as H. subst W1.
  split; [apply Nat.eqb_eq; exact He |].
  intros i w lam Hw Hl. unfold col in *. cbn [columns].
  apply (nth_error_map_combine
           (fun cl : vec * double => map (fun x => (x * snd cl)%D) (fst cl))
           _ _ _ _ _ Hw Hl).
Qed.

Lemma solveHierBasis_prox_columns (v ak : vec) (W B : mat) (r : double)
  (nlam : nat) (m : option double) (lambdas : vec) :
  solveHierBasis_prox v ak W r nlam m = Some (B, lambdas) ->
  length lambdas = nlam /\ n_cols W = nlam /\
  n_rows B = length v /\ n_cols B = nlam /\
  forall i w lam, col W i = Some w -> nth_error lambdas i = Some lam ->
    col B i = GetProxOne v (map (fun x => x * lam)%D w).
Proof.
  unfold solveHierBasis_prox.
  destruct (match m with
            | Some m0 => Some m0
            | None => default_max_lambda v ak
            end) as [ml |]; [| discriminate].
  cbn [bind].
  destruct (each_row_times W (lambda_path ml r nlam)) as [W1 |] eqn:HW;
    [| discriminate].
  cbn [bind]. rewrite GetProx_columns.
  destruct (map_opt (GetProxOne v) (columns W1)) as [bs |] eqn:Hbs;
    [| discriminate].
  cbn [option_map bind]. intros H. injection H as HB Hl. subst B lambdas.
  destruct (each_row_times_col _ _ _ HW) as [Hn Hcol].
  rewrite length_lambda_path in Hn.
  assert (HW1 : n_cols W1 = nlam).
  { unfold each_row_times in HW.
    destruct (n_cols W =? length (lambda_path ml r nlam))%nat;
      [| discriminate].
    injection HW as HW. subst W1. unfold n_cols. cbn [columns].
    rewrite length_map, length_combine, length_lambda_path.
    unfold n_cols in Hn. lia. }
  split; [apply length_lambda_path |]. split; [exact Hn |].
  split; [reflexivity |]. split.
  - unfold n_cols. cbn [columns]. rewrite (map_opt_length _ _ _ Hbs).
    exact HW1.
  - intros i w lam Hw Hlam. unfold col at 1. cbn [columns]. symmetry.
    apply (map_opt_nth _ _ _ _ _ Hbs). apply (Hcol i w lam Hw Hlam).
Qed.

(** X11.  How [solveHierBasis] composes its steps.  When it returns, the
    factorization has returned [Q] and [R]; with
    [v = (Q * sqrt(n)).t() * (y / n)], there are [nlam] lambda values and
    [nlam] columns of weights; column [i] of the proximal solution is
    [GetProxOne] of [v] with column [i] of the weights times the lambda
    value of index [i]; and the result is the solve of the triangular
    system of [R / sqrt(n)] with that solution. *)
Theorem solveHierBasis_fits_each_column_with_its_lambda
  (qr_econ : mat -> option (mat * mat))
  (solve_trimatu : mat -> mat -> option mat) (design_mat : mat) (y ak : vec)
  (W : mat) (n : Z) (r : double) (nlam : nat) (m : option double)
  (B2 : mat) (lambdas : vec) :
  solveHierBasis qr_econ solve_trimatu design_mat y ak W n r nlam m
  = Some (B2, lambdas) ->
  exists (Q R_mat : mat) (v : vec) (B : mat),
    qr_econ design_mat = Some (Q, R_mat) /\
    tmat_vec (mat_times Q (dsqrt (of_int n))) (vdivs y (of_int n)) = Some v /\
    length lambdas = nlam /\ n_cols W = nlam /\
    n_rows B = length v /\ n_cols B = nlam /\
    (forall i w lam, col W i = Some w -> nth_error lambdas i = Some lam ->
       col B i = GetProxOne v (map (fun x => x * lam)%D w)) /\
    solve_trimatu (mat_over R_mat (dsqrt (of_int n))) B = Some B2.
Proof.
  unfold solveHierBasis.
  destruct (qr_econ design_mat) as [[Q R_mat] |]; [| discriminate].
  cbn [bind fst snd].
  destruct (tmat_vec _ _) as [v |] eqn:Hv; [| discriminate]. cbn [bind].
  destruct (solveHierBasis_prox v ak W r nlam m) as [[B l1] |] eqn:Hp;
    [| discriminate].
  cbn [bind fst snd].
  destruct (solve_trimatu _ B) as [B2' |] eqn:Hs; [| discriminate].
  cbn [bind]. intros H. injection H as HB Hl. subst B2' l1.
  exists Q, R_mat, v, B.
  destruct (solveHierBasis_prox_columns _ _ _ _ _ _ _ _ Hp)
    as [H1 [H2 [H3 [H4 H5]]]].
  split; [reflexivity |]. split; [exact Hv |].
  split; [exact H1 |]. split; [exact H2 |]. split; [exact H3 |].
  split; [exact H4 |]. split; [exact H5 | exact Hs].
Qed.

Lemma solveHierBasis_run_one_point :
  solveHierBasis qr_one solve_one (Mat 1 [[Fin 1]]) [Fin 1] [Fin 1]
    (Mat 1 [[Fin 1]]) 1 (Fin (/ 10)) 1 (Some (Fin 1))
  = Some (Mat 1 [[Fin (9 / 10)]], [Fin (/ 10)]).
Proof.
  unfold solveHierBasis, qr_one, solve_one, mat_times, tmat_vec, vdivs,
    dot, of_int.
  cbn [bind fst snd n_rows columns map length Nat.eqb dsqrt ddiv].
  rewrite sqrt_1, Rltb_false, Reqb_false by lra.
  cbn [dmul combine fold_left fst snd dadd].
  replace (0 + 1 * 1 * (1 / 1)) with 1 by field.
  rewrite solveHierBasis_prox_one_point. reflexivity.
Qed.

Lemma solveHierBasis_fits_each_column_with_its_lambda_witness :
  exists (Q R_mat : mat) (v : vec) (B : mat),
    qr_one (Mat 1 [[Fin 1]]) = Some (Q, R_mat) /\
    tmat_vec (mat_times Q (dsqrt (of_int 1))) (vdivs [Fin 1] (of_int 1))
    = Some v /\
    length [Fin (/ 10)] = 1%nat /\ n_cols (Mat 1 [[Fin 1]]) = 1%nat /\
    n_rows B = length v /\ n_cols B = 1%nat /\
    (forall i w lam, col (Mat 1 [[Fin 1]]) i = Some w ->
       nth_error [Fin (/ 10)] i = Some lam ->
       col B i = GetProxOne v (map (fun x => x * lam)%D w)) /\
    solve_one (mat_over R_mat (dsqrt (of_int 1))) B
    = Some (Mat 1 [[Fin (9 / 10)]]).
Proof.
  apply (solveHierBasis_fits_each_column_with_its_lambda qr_one solve_one
           (Mat 1 [[Fin 1]]) [Fin 1] [Fin 1] (Mat 1 [[Fin 1]]) 1
           (Fin (/ 10)) 1 (Some (Fin 1))).
  exact solveHierBasis_run_one_point.
Defined.

Lemma ratios_nonneg (v ak : list R) :
  Forall (fun x => 0 < x) ak -> Forall (fun q => 0 <= q) (ratios v ak).
Proof.
  revert ak. induction v as [| x t IH]; intros ak Hak; [constructor |].
  destruct ak as [| a ak']; [constructor |].
  inversion Hak as [| ? ? Ha Hak']; subst.
  unfold ratios in *. cbn [combine map fst snd]. constructor.
  - pose proof (Rabs_pos x). apply Rmult_le_pos; [assumption |].
    left. apply Rinv_0_lt_compat. exact Ha.
  - apply IH. exact Hak'.
Qed.

Lemma ratios_zero (v ak : list R) :
  length ak = length v -> Forall (fun x => 0 < x) ak ->
  (Forall (fun q => q = 0) (ratios v ak) <-> Forall (fun x => x = 0) v).
Proof.
  revert ak. induction v as [| x t IH]; intros ak Hlen Hak.
  - split; constructor.
  - destruct ak as [| a ak']; [discriminate |].
    inversion Hak as [| ? ? Ha Hak']; subst.
    unfold ratios in *. cbn [combine map fst snd].
    assert (Hx : Rabs x / a = 0 <-> x = 0).
    { split; intros H.
      - apply (f_equal (fun z => z * a)) in H.
        unfold Rdiv in H.
        rewrite Rmult_assoc, Rinv_l, Rmult_1_r, Rmult_0_l in H by lra.
        revert H. unfold Rabs. destruct (Rcase_abs x); lra.
      - subst x. rewrite Rabs_R0. unfold Rdiv. ring. }
    assert (Ht : Forall (fun q => q = 0)
                   (map (fun va => Rabs (fst va) / snd va) (combine t ak'))
                 <-> Forall (fun x => x = 0) t)
      by (apply (IH ak'); [simpl in Hlen; lia | exact Hak']).
    rewrite !Forall_cons_iff, Hx, Ht. reflexivity.
Qed.

Lemma default_max_lambda_value (v ak : list R) :
  v <> [] -> length ak = length v -> Forall (fun x => 0 < x) ak ->
  exists lam : R,
    default_max_lambda (map Fin v) (map Fin ak) = Some (Fin lam) /\
    0 <= lam /\ (Forall (fun x => x = 0) v -> lam = 0).
Proof.
  intros Hv Hlen Hak.
  destruct (ratios v ak) as [| q qs] eqn:Hr.
  { destruct v as [| x t]; [contradiction |].
    destruct ak as [| a ak']; discriminate. }
  exists (max_R q qs).
  destruct (max_R_bounds qs q) as [H1 [H2 H3]].
  pose proof (ratios_nonneg v ak Hak) as Hnn. rewrite Hr in Hnn.
  pose proof (ratios_zero v ak Hlen Hak) as Hz. rewrite Hr in Hz.
  rewrite Forall_forall in Hnn.
  split; [| split].
  - unfold default_max_lambda. rewrite vzip_ratios, Hr by assumption.
    cbn [bind]. unfold arma_max. cbn [map]. f_equal.
    apply (direct_max_fin q qs).
  - apply Hnn. exact H3.
  - intros H0. apply Hz in H0. rewrite Forall_forall in H0. apply H0.
    exact H3.
Qed.

(** X12.  The default [max_lambda], [max(abs(v_temp) / ak)]: it is an error
    exactly when the two vectors differ in length or are empty; for a
    finite non-empty [v_temp] and positive [ak] it is not NaN and not
    negative, and it is 0 when [v_temp] is all zeros. *)
Theorem default_max_lambda_errors_and_sign :
  (forall v ak : vec,
     default_max_lambda v ak = None <-> length v <> length ak \/ v = []) /\
  (forall v ak : list R,
     v <> [] -> length ak = length v -> Forall (fun x => 0 < x) ak ->
     exists m : double,
       default_max_lambda (map Fin v) (map Fin ak) = Some m /\
       m <> NaN /\ (m <? 0)%D = false /\
       (Forall (fun x => x = 0) v -> m = 0%D)).
Proof.
  split.
  - intros v ak. unfold default_max_lambda, vzip, vabs. rewrite length_map.
    destruct (length v =? length ak)%nat eqn:He.
    + apply Nat.eqb_eq in He. cbn [bind]. unfold arma_max.
      destruct v as [| x t].
      * cbn [map combine]. split; [right; reflexivity | reflexivity].
      * destruct ak as [| a ak']; [discriminate |].
        cbn [map combine]. split; [discriminate |].
        intros [H | H]; [contradiction | discriminate].
    + apply Nat.eqb_neq in He. cbn [bind].
      split; [left; exact He | reflexivity].
  - intros v ak Hv Hlen Hak.
    destruct (default_max_lambda_value v ak Hv Hlen Hak)
      as [lam [Hd [H0 Hz]]].
    exists (Fin lam). split; [exact Hd |]. split; [discriminate |].
    split; [cbn [dltb]; apply Rltb_false; lra |].
    intros Hall. rewrite (Hz Hall). reflexivity.
Qed.

Lemma norm_zeros (k : nat) : norm (zeros k) = 0%D.
Proof.
  rewrite zeros_fin, norm_fin, norm_R_all_zero; [reflexivity |].
  apply Forall_forall. intros z Hz. apply repeat_spec in Hz. exact Hz.
Qed.

(** On a zero input the factor is 0 for every weight that is not negative,
    NaN and +inf included. *)
Lemma shrink_zeros (w0 : double) (k : nat) :
  w0 = NaN \/ w0 = PInf \/ (exists a, 0 <= a /\ w0 = Fin a) ->
  shrink w0 (zeros k) = 0%D.
Proof.
  intros [H | [H | [a [Ha H]]]]; subst w0.
  - unfold shrink. rewrite norm_zeros. reflexivity.
  - unfold shrink. rewrite norm_zeros. cbn [ddiv].
    rewrite Rltb_false by lra. reflexivity.
  - rewrite zeros_fin, shrink_fin by exact Ha.
    rewrite norm_R_all_zero; [rewrite factor_zero_norm; reflexivity |].
    apply Forall_forall. intros z Hz. apply repeat_spec in Hz. exact Hz.
Qed.

Lemma GetProxOne_zeros (k : nat) (w : vec) :
  (k <= length w)%nat ->
  Forall (fun x => x = NaN \/ x = PInf \/ (exists a, 0 <= a /\ x = Fin a)) w ->
  GetProxOne (zeros k) w = Some (zeros k).
Proof.
  revert w. induction k as [| k IH]; intros w Hlen Hw; [reflexivity |].
  destruct w as [| w0 ws]; [simpl in Hlen; lia |].
  inversion Hw as [| ? ? Hw0 Hws]; subst.
  change (zeros (S k)) with (0%D :: zeros k).
  rewrite GetProxOne_cons, IH by (simpl in Hlen; lia || assumption).
  change (0%D :: zeros k) with (zeros (S k)).
  rewrite shrink_zeros by exact Hw0.
  rewrite scale_zero_zeros; [reflexivity |].
  apply Forall_forall. intros z Hz. apply repeat_spec in Hz. exact Hz.
Qed.

Lemma map_const_seq {A : Type} (a : A) (f : nat -> A) (s k : nat) :
  (forall i, f i = a) -> map f (seq s k) = repeat a k.
Proof.
  intros Hf. revert s. induction k as [| k IH]; intros s; [reflexivity |].
  cbn [seq map repeat]. rewrite Hf, IH. reflexivity.
Qed.

Lemma lambda_path_zero (r : R) (k : nat) :
  lambda_path 0%D (Fin r) (S (S k)) = repeat NaN (S k) ++ [0%D].
Proof.
  unfold lambda_path. cbn [dmul]. replace (0 * r) with 0 by ring.
  unfold dlog10. rewrite Rsign_zero.
  change (linspace NInf NInf (S (S k)))
    with (map (fun i => NInf + of_int (Z.of_nat i)
                               * ((NInf - NInf) / of_int (Z.of_nat (S k))))%D
              (seq 0 (S k)) ++ [NInf]).
  rewrite map_app, (map_const_seq NaN) by reflexivity.
  rewrite map_repeat. reflexivity.
Qed.

(** X13.  The zero input.  For [v_temp] all zeros (a response that is zero
    or orthogonal to the design), positive [ak] and [nlam >= 2] columns of
    finite weights, and no [max_lambda] given: the default [max_lambda] is
    0, its logarithm is -inf, and the lambda path is NaN at every index but
    the last, where it is 0; the proximal solution is the zero matrix. *)
Theorem zero_input_gives_nan_lambdas_and_a_zero_fit
  (q k rows : nat) (ak : list R) (Wr : list (list R)) (r : R) :
  length ak = S q -> Forall (fun x => 0 < x) ak ->
  length Wr = S (S k) -> Forall (fun c => (S q <= length c)%nat) Wr ->
  default_max_lambda (zeros (S q)) (map Fin ak) = Some 0%D /\
  lambda_path 0%D (Fin r) (S (S k)) = repeat NaN (S k) ++ [0%D] /\
  solveHierBasis_prox (zeros (S q)) (map Fin ak) (Mat rows (map (map Fin) Wr))
    (Fin r) (S (S k)) None
  = Some (zeros_mat (S q) (S (S k)), repeat NaN (S k) ++ [0%D]).
Proof.
  intros Hak Hpos HW Hrows.
  assert (Hd : default_max_lambda (zeros (S q)) (map Fin ak) = Some 0%D).
  { rewrite zeros_fin.
    destruct (default_max_lambda_value (repeat 0 (S q)) ak)
      as [lam [Hl [_ Hz]]];
      [discriminate | rewrite repeat_length; exact Hak | exact Hpos |].
    rewrite Hl. do 2 f_equal. apply Hz.
    apply Forall_forall. intros z Hin. apply repeat_spec in Hin. exact Hin. }
  split; [exact Hd |]. split; [apply lambda_path_zero |].
  unfold solveHierBasis_prox. rewrite Hd. cbn [bind].
  rewrite lambda_path_zero. unfold each_row_times, n_cols. cbn [columns n_rows].
  rewrite length_map, length_app, repeat_length, HW. cbn [length].
  replace (S k + 1)%nat with (S (S k)) by lia. rewrite Nat.eqb_refl.
  cbn [bind]. rewrite GetProx_columns. cbn [columns].
  rewrite (map_opt_const _ (zeros (S q))).
  - cbn [option_map]. rewrite length_map, length_combine, length_map.
    rewrite length_app, repeat_length, HW. cbn [length].
    replace (Nat.min (S (S k)) (S k + 1)) with (S (S k)) by lia.
    unfold zeros_mat, zeros. rewrite repeat_length. reflexivity.
  - apply Forall_forall. intros c Hc. apply in_map_iff in Hc.
    destruct Hc as [[w lam] [Hc Hin]]. subst c. cbn [fst snd].
    pose proof (in_combine_l _ _ _ _ Hin) as Hw.
    pose proof (in_combine_r _ _ _ _ Hin) as Hlam.
    apply in_map_iff in Hw. destruct Hw as [wr [Hw Hwr]]. subst w.
    rewrite Forall_forall in Hrows. pose proof (Hrows wr Hwr) as Hlen.
    assert (Hl : lam = NaN \/ lam = 0%D).
    { apply in_app_or in Hlam. destruct Hlam as [Hl | [Hl | []]].
      - apply repeat_spec in Hl. left. exact Hl.
      - right. symmetry. exact Hl. }
    apply GetProxOne_zeros; [rewrite !length_map; exact Hlen |].
    apply Forall_forall. intros z Hz. apply in_map_iff in Hz.
    destruct Hz as [x [Hz Hx]]. apply in_map_iff in Hx.
    destruct Hx as [x0 [Hx _]]. subst x z.
    destruct Hl as [Hl | Hl]; subst lam; [left; reflexivity |].
    right. right. exists (x0 * 0). split; [lra | reflexivity].
Qed.

Lemma zero_input_gives_nan_lambdas_and_a_zero_fit_witness :
  default_max_lambda (zeros 2) (map Fin [1; 3]) = Some 0%D /\
  lambda_path 0%D (Fin (/ 10)) 3 = repeat NaN 2 ++ [0%D] /\
  solveHierBasis_prox (zeros 2) (map Fin [1; 3])
    (Mat 2 (map (map Fin) [[1; 3]; [1; 3]; [1; 3]])) (Fin (/ 10)) 3 None
  = Some (zeros_mat 2 3, repeat NaN 2 ++ [0%D]).
Proof.
  apply (zero_input_gives_nan_lambdas_and_a_zero_fit 1 1 2 [1; 3]
           [[1; 3]; [1; 3]; [1; 3]] (/ 10)).
  - reflexivity.
  - constructor; [lra |]. constructor; [lra | constructor].
  - reflexivity.
  - repeat (constructor; [simpl; lia |]). constructor.
Defined.

(** ** FitAdditive: the answer and the warnings *)

Section RunFacts.

Variables (y : vec) (weights : mat) (X : cube) (tol : double).
Variables (p J : nat) (n : Z) (max_iter : R).

Let iter := iteration y X tol p J n max_iter.
Let while := while_loop y X tol p J n max_iter.
Let run := lambda_run y weights X tol p J n max_iter.
Let path := fit_path y weights X tol p J n max_iter.

(** What a run of the [while] loop has done when it ends: with the flag
    up, it has stored [beta] and raised no warning; with the flag down, it
    has stored nothing, the budget is spent, and it has raised the warning
    exactly when the counter has met [max_iter]. *)
Lemma while_run_summary (fuel i : nat) (tw : vec) (st st' : fit_state)
  (c' : Z) (conv' : bool) :
  while fuel i tw (st, 0%Z, false) = Some (st', c', conv') ->
  (0 <= c')%Z /\
  (conv' = true ->
     f_warned st' = f_warned st /\
     col (f_ans st') i = Some (vectorise (f_beta st')) /\
     IZR c' < max_iter) /\
  (conv' = false ->
     f_ans st' = f_ans st /\ max_iter <= IZR c' /\
     f_warned st'
     = f_warned st
       ++ (if Reqb (IZR c') max_iter && (1 <=? c')%Z then [i] else [])).
Proof.
  intros Hw.
  pose (P := fun s : fit_state * Z * bool =>
    (0 <= snd (fst s))%Z /\
    (snd s = true ->
       f_warned (fst (fst s)) = f_warned st /\
       col (f_ans (fst (fst s))) i = Some (vectorise (f_beta (fst (fst s)))) /\
       IZR (snd (fst s)) < max_iter) /\
    (snd s = false ->
       f_ans (fst (fst s)) = f_ans st /\
       f_warned (fst (fst s))
       = f_warned st
         ++ (if Reqb (IZR (snd (fst s))) max_iter && (1 <=? snd (fst s))%Z
             then [i] else []))).
  apply (while_invariant y X tol p J n max_iter P) in Hw.
  - destruct Hw as [[H0 [Ht Hf]] Hexit]. cbn [fst snd] in *.
    split; [exact H0 |]. split; [exact Ht |].
    intros Hc. destruct (Hf Hc) as [Ha Hwarn]. subst conv'.
    rewrite andb_true_r in Hexit. unfold Rltb in Hexit.
    destruct (Rlt_dec (IZR c') max_iter) as [| Hge]; [discriminate |].
    split; [exact Ha |]. split; [lra | exact Hwarn].
  - intros [[a ca] va] [[b cb] vb] Hcond [P0 [_ Pf]] Hi.
    unfold P. cbn [fst snd] in *.
    apply andb_prop in Hcond. destruct Hcond as [Hlt Hva].
    apply negb_true_iff in Hva. subst va.
    unfold Rltb in Hlt.
    destruct (Rlt_dec (IZR ca) max_iter) as [Hlt' |]; [| discriminate].
    destruct (Pf eq_refl) as [Pa Pw].
    rewrite Reqb_false in Pw by lra. cbn [andb] in Pw.
    rewrite app_nil_r in Pw.
    destruct (iteration_cases _ _ _ _ _ _ _ _ _ _ _ _ _ _ _ Hi)
      as [old [_ [_ [[_ [Hv [Hc [Hset Hwarn]]]] | [_ [Hv [Hc [Hans Hwarn]]]]]]]];
      subst vb cb.
    + split; [exact P0 |]. split; [| discriminate].
      intros _. destruct (set_col_spec _ _ _ _ Hset) as [_ [_ [Hcol _]]].
      split; [congruence |]. split; [exact Hcol | exact Hlt'].
    + split; [lia |]. split; [discriminate |].
      intros _. split; [congruence |].
      replace (1 <=? ca + 1)%Z with true by (symmetry; apply Z.leb_le; lia).
      rewrite andb_true_r, Hwarn, Pw.
      destruct (Reqb (IZR (ca + 1)) max_iter); [reflexivity |].
      rewrite app_nil_r. reflexivity.
  - unfold P. cbn [fst snd]. split; [lia |]. split; [discriminate |].
    intros _. split; [reflexivity |].
    rewrite andb_false_r, app_nil_r. reflexivity.
Qed.

Lemma lambda_run_loop (st st' : fit_state) (i : nat) :
  run st i = Some st' ->
  exists wcol c' conv',
    col weights i = Some wcol /\
    while (Z.to_nat (up max_iter)) i (vdivs wcol (of_int n)) (st, 0%Z, false)
    = Some (st', c', conv').
Proof.
  unfold run, lambda_run.
  destruct (col weights i) as [wcol |]; [| discriminate]. cbn [bind].
  fold while.
  destruct (while _ i _ (st, 0%Z, false)) as [[[s1 c1] v1] |] eqn:Hw;
    [| discriminate].
  cbn [bind fst]. intros H. injection H as H. subst s1.
  exists wcol, c1, v1. split; [reflexivity | exact Hw].
Qed.

(** A run adds at most the warning for its own index, and only when
    [max_iter] is a whole number [>= 1]. *)
Lemma lambda_run_warned (st st' : fit_state) (i : nat) :
  run st i = Some st' ->
  f_warned st' = f_warned st \/
  (f_warned st' = f_warned st ++ [i] /\
   exists m, (1 <= m)%Z /\ max_iter = IZR m).
Proof.
  intros Hr. destruct (lambda_run_loop _ _ _ Hr) as [wcol [c' [v' [_ Hw]]]].
  destruct (while_run_summary _ _ _ _ _ _ _ Hw) as [_ [Ht Hf]].
  destruct v'.
  - left. apply (Ht eq_refl).
  - destruct (Hf eq_refl) as [_ [_ Hwarn]].
    unfold Reqb in Hwarn.
    destruct (Req_dec_T (IZR c') max_iter) as [He |];
      [| left; rewrite Hwarn; apply app_nil_r].
    destruct (1 <=? c')%Z eqn:Hc; cbn [andb] in Hwarn;
      [| left; rewrite Hwarn; apply app_nil_r].
    right. split; [exact Hwarn |]. exists c'.
    split; [apply Z.leb_le; exact Hc | symmetry; exact He].
Qed.

Lemma for_each_run_warned (idx : list nat) (st st' : fit_state) :
  for_each run idx st = Some st' ->
  exists extra,
    f_warned st' = f_warned st ++ extra /\
    Forall (fun j => In j idx) extra.
Proof.
  intros H.
  apply (for_each_invariant run
    (fun s => exists extra, f_warned s = f_warned st ++ extra /\
                            Forall (fun j => In j idx) extra)
    idx st st'); [| | exact H].
  - intros a b i Hi [extra [Pw Pin]] Hb.
    destruct (lambda_run_warned _ _ _ Hb) as [Hw | [Hw _]].
    + exists extra. split; [congruence | exact Pin].
    + exists (extra ++ [i]). split.
      * rewrite Hw, Pw, app_assoc. reflexivity.
      * apply Forall_app. split; [exact Pin |].
        constructor; [exact Hi | constructor].
  - exists []. split; [rewrite app_nil_r; reflexivity | constructor].
Qed.

Lemma sorted_snoc (l : list nat) (k : nat) :
  StronglySorted lt l -> Forall (fun j => (j < k)%nat) l ->
  StronglySorted lt (l ++ [k]).
Proof.
  induction 1 as [| a t Ht IH Ha]; intros Hk; cbn [app].
  - constructor; constructor.
  - inversion Hk as [| ? ? Hak Htk]; subst. constructor.
    + apply IH. exact Htk.
    + apply Forall_app. split; [exact Ha |].
      constructor; [exact Hak | constructor].
Qed.

(** The warnings of the first [k] lambda values: increasing indices below
    [k], and none unless [max_iter] is a whole number [>= 1]. *)
Lemma fit_path_warned (k : nat) (st st' : fit_state) :
  path k st = Some st' ->
  exists extra,
    f_warned st' = f_warned st ++ extra /\
    StronglySorted lt extra /\
    Forall (fun j => (j < k)%nat) extra /\
    (extra <> [] -> exists m, (1 <= m)%Z /\ max_iter = IZR m).
Proof.
  revert st'. induction k as [| k IH]; intros st' H.
  - injection H as H. subst st'. exists [].
    split; [rewrite app_nil_r; reflexivity |].
    split; [constructor |]. split; [constructor |].
    intros Hne. contradiction.
  - unfold path in H. rewrite fit_path_S in H. fold path in H.
    destruct (path k st) as [s1 |]; [| discriminate]. cbn [bind] in H.
    destruct (IH s1 eq_refl) as [extra [Pw [Ps [Pk Pm]]]].
    assert (Pk' : Forall (fun j => (j < S k)%nat) extra)
      by (eapply Forall_impl; [| exact Pk]; intros j Hj; cbv beta in Hj; lia).
    fold run in H.
    destruct (lambda_run_warned _ _ _ H) as [Hw | [Hw Hm]].
    + exists extra. split; [congruence |]. split; [exact Ps |].
      split; [exact Pk' | exact Pm].
    + exists (extra ++ [k]). split; [rewrite Hw, Pw, app_assoc; reflexivity |].
      split; [apply sorted_snoc; assumption |]. split.
      * apply Forall_app. split; [exact Pk' |].
        constructor; [lia | constructor].
      * intros _. exact Hm.
Qed.

(** The counter of a run is never negative, and it is below
    [max_iter + 1] once a sweep has been counted: it is incremented only
    while it is below [max_iter]. *)
Lemma while_counter_bound (fuel i : nat) (tw : vec) (st st' : fit_state)
  (c' : Z) (conv' : bool) :
  while fuel i tw (st, 0%Z, false) = Some (st', c', conv') ->
  (0 <= c')%Z /\ (c' = 0%Z \/ IZR c' < max_iter + 1).
Proof.
  intros Hw.
  apply (while_invariant y X tol p J n max_iter
           (fun s => (0 <= snd (fst s))%Z /\
                     (snd (fst s) = 0%Z \/
                      IZR (snd (fst s)) < max_iter + 1))) in Hw.
  - exact (proj1 Hw).
  - intros [[a ca] va] [[b cb] vb] Hcond [P0 _] Hi. cbn [fst snd] in *.
    apply andb_prop in Hcond. destruct Hcond as [Hlt _].
    unfold Rltb in Hlt.
    destruct (Rlt_dec (IZR ca) max_iter) as [Hlt' |]; [| discriminate].
    destruct (iteration_cases _ _ _ _ _ _ _ _ _ _ _ _ _ _ _ Hi)
      as [old [_ [_ [[_ [_ [Hcb _]]] | [_ [_ [Hcb _]]]]]]]; subst cb.
    + split; [exact P0 | right; lra].
    + split; [lia | right; rewrite plus_IZR; lra].
  - cbn [fst snd]. split; [lia | left; reflexivity].
Qed.

(** With [max_iter] in the range of an [int], the counter stays in that
    range: the [int] of the source does not overflow. *)
Lemma while_counter_int (fuel i : nat) (tw : vec) (st st' : fit_state)
  (c' : Z) (conv' : bool) :
  max_iter <= 2147483647 ->
  while fuel i tw (st, 0%Z, false) = Some (st', c', conv') ->
  (0 <= c' <= 2147483647)%Z.
Proof.
  intros Hm Hw. destruct (while_counter_bound _ _ _ _ _ _ _ Hw) as [H0 Hb].
  split; [exact H0 |]. destruct Hb as [Hz | Hlt]; [lia |].
  assert (H : IZR c' < IZR 2147483648) by (simpl; lra).
  apply lt_IZR in H. lia.
Qed.

End RunFacts.

Lemma FitAdditive_column (y : vec) (W x_beta : mat) (x : cube) (beta : mat)
  (tol : double) (p J : nat) (n : Z) (nlam : nat) (max_iter : R)
  (ans : mat) (warned : list nat) (i : nat) :
  FitAdditive y W x_beta x beta tol p J n nlam max_iter = Some (ans, warned) ->
  (i < nlam)%nat ->
  exists (st_i st' : fit_state) (wcol : vec) (c : Z) (conv : bool),
    fit_path y W x tol p J n max_iter i
      (FitState beta x_beta (zeros_mat (p * J) nlam) []) = Some st_i /\
    col W i = Some wcol /\
    while_loop y x tol p J n max_iter (Z.to_nat (up max_iter)) i
      (vdivs wcol (of_int n)) (st_i, 0%Z, false) = Some (st', c, conv) /\
    fit_path y W x tol p J n max_iter (S i)
      (FitState beta x_beta (zeros_mat (p * J) nlam) []) = Some st' /\
    col ans i
    = Some (if conv then vectorise (f_beta st') else zeros (p * J)) /\
    (In i warned <-> conv = false /\ IZR c = max_iter /\ (1 <= c)%Z).
Proof.
  intros Hfit Hi. unfold FitAdditive in Hfit.
  set (init := FitState beta x_beta (zeros_mat (p * J) nlam) []) in *.
  replace nlam with (S i + (nlam - S i))%nat in Hfit by lia.
  rewrite fit_path_split in Hfit.
  destruct (fit_path y W x tol p J n max_iter (S i) init) as [st' |] eqn:Hnext;
    [| discriminate].
  cbn [bind] in Hfit.
  destruct (for_each _ (seq (S i) (nlam - S i)) st') as [fin |] eqn:Hrest;
    [| discriminate].
  cbn [bind] in Hfit. injection Hfit as Ha Hw. subst ans warned.
  pose proof Hnext as Hrun. rewrite fit_path_S in Hrun.
  destruct (fit_path y W x tol p J n max_iter i init) as [st_i |] eqn:Hpath;
    [| discriminate].
  cbn [bind] in Hrun.
  destruct (lambda_run_loop _ _ _ _ _ _ _ _ _ _ _ Hrun)
    as [wcol [c [conv [Hcol Hwhile]]]].
  exists st_i, st', wcol, c, conv.
  split; [reflexivity |]. split; [exact Hcol |]. split; [exact Hwhile |].
  split; [reflexivity |].
  destruct (while_run_summary _ _ _ _ _ _ _ _ _ _ _ _ _ _ Hwhile)
    as [Hc0 [Ht Hf]].
  destruct (for_each_run_frame _ _ _ _ _ _ _ _ _ _ _ Hrest)
    as [_ [_ [Hfr _]]].
  destruct (for_each_run_warned _ _ _ _ _ _ _ _ _ _ _ Hrest)
    as [extra2 [Hex2 Hin2]].
  unfold fit_path in Hpath.
  destruct (for_each_run_frame _ _ _ _ _ _ _ _ _ _ _ Hpath)
    as [_ [_ [Hfr0 _]]].
  destruct (for_each_run_warned _ _ _ _ _ _ _ _ _ _ _ Hpath)
    as [extra1 [Hex1 Hin1]].
  cbn [init f_warned app] in Hex1.
  assert (Hn1 : ~ In i extra1).
  { intros Hin. rewrite Forall_forall in Hin1. apply Hin1 in Hin.
    apply in_seq in Hin. lia. }
  assert (Hn2 : ~ In i extra2).
  { intros Hin. rewrite Forall_forall in Hin2. apply Hin2 in Hin.
    apply in_seq in Hin. lia. }
  split.
  - rewrite Hfr by (rewrite in_seq; lia). destruct conv.
    + apply (Ht eq_refl).
    + destruct (Hf eq_refl) as [Hans _]. rewrite Hans.
      rewrite Hfr0 by (rewrite in_seq; lia).
      unfold init. cbn [f_ans]. apply col_zeros_mat. exact Hi.
  - rewrite Hex2. destruct conv.
    + destruct (Ht eq_refl) as [Hwarn _]. rewrite Hwarn, Hex1.
      split; [| intros [Hd _]; discriminate].
      intros Hin. apply in_app_or in Hin. tauto.
    + destruct (Hf eq_refl) as [_ [_ Hwarn]]. rewrite Hwarn, Hex1.
      unfold Reqb. destruct (Req_dec_T (IZR c) max_iter) as [He | Hne].
      * destruct (1 <=? c)%Z eqn:Hc; cbn [andb].
        -- apply Z.leb_le in Hc. split; [intros _; tauto |].
           intros _. apply in_or_app. left. apply in_or_app. right.
           left. reflexivity.
        -- apply Z.leb_gt in Hc. rewrite app_nil_r. split.
           ++ intros Hin. apply in_app_or in Hin. tauto.
           ++ intros [_ [_ Hc1]]. lia.
      * cbn [andb]. rewrite app_nil_r. split.
        -- intros Hin. apply in_app_or in Hin. tauto.
        -- intros [_ [He _]]. contradiction.
Qed.

(** X14.  What [FitAdditive] returns for the lambda value of index [i].
    The run starts from the state that the runs before it have left and
    ends with a counter [c] and a flag.  With the flag up, column [i] of
    the answer is [vectorise(beta)] for the [beta] at the end of the run;
    with the flag down it is all zeros.  The warning is raised for [i]
    exactly when the run ends with the flag down and the counter equal to
    [max_iter], at least 1. *)
Theorem answer_and_warnings_of_FitAdditive
  (y : vec) (W x_beta : mat) (x : cube) (beta : mat)
  (tol : double) (p J : nat) (n : Z) (nlam : nat) (max_iter : R)
  (ans : mat) (warned : list nat) (i : nat) :
  FitAdditive y W x_beta x beta tol p J n nlam max_iter = Some (ans, warned) ->
  (i < nlam)%nat ->
  exists (st_i st' : fit_state) (wcol : vec) (c : Z) (conv : bool),
    fit_path y W x tol p J n max_iter i
      (FitState beta x_beta (zeros_mat (p * J) nlam) []) = Some st_i /\
    col W i = Some wcol /\
    while_loop y x tol p J n max_iter (Z.to_nat (up max_iter)) i
      (vdivs wcol (of_int n)) (st_i, 0%Z, false) = Some (st', c, conv) /\
    fit_path y W x tol p J n max_iter (S i)
      (FitState beta x_beta (zeros_mat (p * J) nlam) []) = Some st' /\
    col ans i
    = Some (if conv then vectorise (f_beta st') else zeros (p * J)) /\
    (In i warned <-> conv = false /\ IZR c = max_iter /\ (1 <= c)%Z).
Proof. apply FitAdditive_column. Qed.

Lemma answer_and_warnings_of_FitAdditive_witness :
  exists (st_i st' : fit_state) (wcol : vec) (c : Z) (conv : bool),
    fit_path [Fin 4] (W2 1 1) X1 (Fin (/ 2)) 1 1 1 1 1
      (FitState (M1 0) (M1 0) (zeros_mat (1 * 1) 2) []) = Some st_i /\
    col (W2 1 1) 1 = Some wcol /\
    while_loop [Fin 4] X1 (Fin (/ 2)) 1 1 1 1 (Z.to_nat (up 1)) 1
      (vdivs wcol (of_int 1)) (st_i, 0%Z, false) = Some (st', c, conv) /\
    fit_path [Fin 4] (W2 1 1) X1 (Fin (/ 2)) 1 1 1 1 2
      (FitState (M1 0) (M1 0) (zeros_mat (1 * 1) 2) []) = Some st' /\
    col (Mat 1 [[Fin 0]; [Fin 3]]) 1
    = Some (if conv then vectorise (f_beta st') else zeros (1 * 1)) /\
    (In 1%nat [0%nat] <-> conv = false /\ IZR c = 1 /\ (1 <= c)%Z).
Proof.
  apply (answer_and_warnings_of_FitAdditive [Fin 4] (W2 1 1) (M1 0) X1 (M1 0)
           (Fin (/ 2)) 1 1 1 2 1 (Mat 1 [[Fin 0]; [Fin 3]]) [0%nat] 1).
  - exact FitAdditive_run_1_1.
  - lia.
Defined.

(** X15.  The warnings of [FitAdditive] are indices of lambda values in
    increasing order, each at most once; there is none unless [max_iter]
    is a whole number [>= 1]; and the column of a lambda value with a
    warning is all zeros. *)
Theorem warnings_are_increasing_indices_of_zero_columns
  (y : vec) (W x_beta : mat) (x : cube) (beta : mat)
  (tol : double) (p J : nat) (n : Z) (nlam : nat) (max_iter : R)
  (ans : mat) (warned : list nat) :
  FitAdditive y W x_beta x beta tol p J n nlam max_iter = Some (ans, warned) ->
  StronglySorted lt warned /\
  Forall (fun i => (i < nlam)%nat) warned /\
  ((forall m, (1 <= m)%Z -> max_iter <> IZR m) -> warned = []) /\
  (forall i, In i warned -> col ans i = Some (zeros (p * J))).
Proof.
  intros Hfit. pose proof Hfit as Hfit0. unfold FitAdditive in Hfit.
  destruct (fit_path y W x tol p J n max_iter nlam _) as [fin |] eqn:Hpath;
    [| discriminate].
  cbn [bind] in Hfit. injection Hfit as Ha Hw.
  destruct (fit_path_warned _ _ _ _ _ _ _ _ _ _ _ Hpath)
    as [extra [Hex [Hs [Hk Hm]]]].
  cbn [f_warned app] in Hex. rewrite Hex in Hw. subst extra.
  split; [exact Hs |]. split; [exact Hk |]. split.
  - intros Hno. destruct warned as [| a t]; [reflexivity |].
    destruct Hm as [m [Hm1 Hm2]]; [discriminate |].
    exfalso. apply (Hno m Hm1 Hm2).
  - intros i Hin.
    assert (Hi : (i < nlam)%nat)
      by (rewrite Forall_forall in Hk; apply Hk; exact Hin).
    destruct (FitAdditive_column _ _ _ _ _ _ _ _ _ _ _ _ _ i Hfit0 Hi)
      as [st_i [st' [wcol [c [conv [_ [_ [_ [_ [Hcol Hiff]]]]]]]]]].
    apply Hiff in Hin. destruct Hin as [Hconv _]. subst conv. exact Hcol.
Qed.

Lemma warnings_are_increasing_indices_of_zero_columns_witness :
  StronglySorted lt [1%nat] /\
  Forall (fun i => (i < 2)%nat) [1%nat] /\
  ((forall m, (1 <= m)%Z -> 1 <> IZR m) -> [1%nat] = []) /\
  (forall i, In i [1%nat] ->
     col (Mat 1 [[Fin 0]; [Fin 0]]) i = Some (zeros (1 * 1))).
Proof.
  apply (warnings_are_increasing_indices_of_zero_columns [Fin 4] (W2 5 1)
           (M1 0) X1 (M1 0) (Fin (/ 2)) 1 1 1 2 1
           (Mat 1 [[Fin 0]; [Fin 0]]) [1%nat]).
  exact FitAdditive_run_5_1.
Defined.

(** ** FitAdditive: shapes, errors and termination *)

Lemma length_vectorise (M : mat) :
  wf_mat M -> length (vectorise M) = (n_cols M * n_rows M)%nat.
Proof.
  unfold wf_mat, vectorise, n_cols. generalize (n_rows M) as r. intros r.
  induction 1 as [| c t Hc _ IH]; [reflexivity |].
  cbn [concat length]. rewrite length_app, IH, Hc. simpl. lia.
Qed.

Lemma chunks_concat (r : nat) (cols : list vec) :
  Forall (fun c => length c = r) cols ->
  chunks r (length cols) (concat cols) = cols.
Proof.
  induction 1 as [| c t Hc _ IH]; [reflexivity |].
  subst r. cbn [length chunks concat].
  rewrite firstn_app, skipn_app, Nat.sub_diag, firstn_all, skipn_all.
  cbn [firstn skipn app]. rewrite app_nil_r. f_equal. exact IH.
Qed.

Lemma mat_of_mem_copy (M : mat) :
  wf_mat M -> mat_of_mem (vectorise M) (n_rows M) (n_cols M) = Some M.
Proof.
  intros Hwf. unfold mat_of_mem. rewrite length_vectorise by exact Hwf.
  replace (n_rows M * n_cols M <=? n_cols M * n_rows M)%nat with true
    by (symmetry; apply Nat.leb_le; lia).
  unfold vectorise, n_cols. rewrite chunks_concat by exact Hwf.
  destruct M. reflexivity.
Qed.

(** X16.  The copy [old_beta] that a pass of the [while] loop takes of
    [beta] is [beta] itself when [beta] is a [J] by [p] matrix: the matrix
    made of the buffer of a matrix, with its own dimensions, is that
    matrix; and its buffer has [n_cols * n_rows] entries. *)
Theorem old_beta_is_a_copy_of_beta (M : mat) (J p : nat) :
  wf_mat M -> n_rows M = J -> n_cols M = p ->
  mat_of_mem (vectorise M) J p = Some M /\
  length (vectorise M) = (p * J)%nat /\
  (forall q, (p < q)%nat -> (0 < J)%nat ->
     mat_of_mem (vectorise M) J q = None).
Proof.
  intros Hwf HJ Hp. subst J p. split; [apply mat_of_mem_copy; exact Hwf |].
  split; [apply length_vectorise; exact Hwf |].
  intros q Hq HJ. unfold mat_of_mem.
  rewrite length_vectorise by exact Hwf.
  replace (n_rows M * q <=? n_cols M * n_rows M)%nat with false;
    [reflexivity |].
  symmetry. apply Nat.leb_gt. nia.
Qed.

Lemma old_beta_is_a_copy_of_beta_witness :
  mat_of_mem (vectorise (Mat 2 [[Fin 1; Fin 2]; [Fin 3; Fin 4]])) 2 2
  = Some (Mat 2 [[Fin 1; Fin 2]; [Fin 3; Fin 4]]) /\
  length (vectorise (Mat 2 [[Fin 1; Fin 2]; [Fin 3; Fin 4]])) = (2 * 2)%nat /\
  (forall q, (2 < q)%nat -> (0 < 2)%nat ->
     mat_of_mem (vectorise (Mat 2 [[Fin 1; Fin 2]; [Fin 3; Fin 4]])) 2 q
     = None).
Proof.
  apply (old_beta_is_a_copy_of_beta (Mat 2 [[Fin 1; Fin 2]; [Fin 3; Fin 4]])
           2 2).
  - unfold wf_mat. cbn [columns n_rows].
    constructor; [reflexivity |]. constructor; [reflexivity | constructor].
  - reflexivity.
  - reflexivity.
Defined.

Lemma vzip_total (f : double -> double -> double) (u v : vec) :
  length u = length v ->
  exists r, vzip f u v = Some r /\ length r = length u.
Proof.
  intros H. unfold vzip. rewrite H, Nat.eqb_refl. eexists.
  split; [reflexivity |]. rewrite length_map, length_combine. lia.
Qed.

Lemma mat_vec_total (M : mat) (v : vec) :
  n_cols M = length v ->
  exists r, mat_vec M v = Some r /\ length r = n_rows M.
Proof.
  intros H. unfold mat_vec. rewrite H, Nat.eqb_refl. eexists.
  split; [reflexivity |]. rewrite length_map, length_seq. reflexivity.
Qed.

Lemma tmat_vec_total (M : mat) (u : vec) :
  n_rows M = length u ->
  exists r, tmat_vec M u = Some r /\ length r = n_cols M.
Proof.
  intros H. unfold tmat_vec. rewrite H, Nat.eqb_refl. eexists.
  split; [reflexivity |]. rewrite length_map. reflexivity.
Qed.

Lemma length_row_sums (M : mat) : length (row_sums M) = n_rows M.
Proof. unfold row_sums. rewrite length_map, length_seq. reflexivity. Qed.

Lemma length_vdivs (v : vec) (c : double) : length (vdivs v c) = length v.
Proof. unfold vdivs. apply length_map. Qed.

Lemma Forall_list_set {A : Type} (P : A -> Prop) (i : nat) (x : A)
  (l : list A) : Forall P l -> P x -> Forall P (list_set i x l).
Proof.
  intros Hl Hx. revert i. induction Hl as [| a t Ha Ht IH]; intros [| i];
    cbn [list_set]; constructor; auto.
Qed.

Lemma set_col_wf (M M' : mat) (i : nat) (v : vec) :
  set_col M i v = Some M' -> wf_mat M -> wf_mat M'.
Proof.
  unfold set_col. destruct (i <? n_cols M)%nat; [| discriminate].
  destruct (length v =? n_rows M)%nat eqn:Hv; [| discriminate].
  cbn [andb]. intros H Hwf. injection H as H. subst M'.
  unfold wf_mat in *. cbn [n_rows columns].
  apply Forall_list_set; [exact Hwf | apply Nat.eqb_eq; exact Hv].
Qed.

Lemma set_col_total (M : mat) (i : nat) (v : vec) :
  (i < n_cols M)%nat -> length v = n_rows M ->
  exists M', set_col M i v = Some M'.
Proof.
  intros Hi Hv. unfold set_col.
  replace (i <? n_cols M)%nat with true by (symmetry; apply Nat.ltb_lt; lia).
  rewrite Hv, Nat.eqb_refl. eexists. reflexivity.
Qed.

Lemma for_each_total {S : Type} (body : S -> nat -> option S)
  (P : S -> Prop) (idx : list nat) (s : S) :
  (forall a i, In i idx -> P a -> exists b, body a i = Some b /\ P b) ->
  P s -> exists s', for_each body idx s = Some s' /\ P s'.
Proof.
  revert s. induction idx as [| i t IH]; intros s Hstep Hs.
  - exists s. split; [reflexivity | exact Hs].
  - destruct (Hstep s i (or_introl eq_refl) Hs) as [s1 [Hb Hs1]].
    cbn [for_each]. rewrite Hb. cbn [bind]. apply IH; [| exact Hs1].
    intros a k Hk. apply Hstep. right. exact Hk.
Qed.

Lemma block_update_spec (y : vec) (X : cube) (n : Z) (tw : vec)
  (b xb b' xb' : mat) (j : nat) :
  block_update y X n tw (b, xb) j = Some (b', xb') ->
  exists (Xj : mat) (tb xbj : vec),
    slice X j = Some Xj /\ set_col b j tb = Some b' /\
    mat_vec Xj tb = Some xbj /\ set_col xb j xbj = Some xb'.
Proof.
  unfold block_update. cbn [fst snd].
  destruct (slice X j) as [Xj |]; [| discriminate]. cbn [bind].
  destruct (col b j) as [bj |]; [| discriminate]. cbn [bind].
  destruct (mat_vec Xj bj) as [Xb |]; [| discriminate]. cbn [bind].
  destruct (vzip dsub y (row_sums xb)) as [r |]; [| discriminate]. cbn [bind].
  destruct (vzip dadd r Xb) as [ty |]; [| discriminate]. cbn [bind].
  destruct (tmat_vec Xj _) as [tv |]; [| discriminate]. cbn [bind].
  destruct (GetProxOne tv tw) as [tb |]; [| discriminate]. cbn [bind].
  destruct (set_col b j tb) as [b1 |] eqn:Hb; [| discriminate]. cbn [bind].
  destruct (mat_vec Xj tb) as [xbj |] eqn:Hx; [| discriminate]. cbn [bind].
  destruct (set_col xb j xbj) as [xb1 |] eqn:Hxb; [| discriminate].
  cbn [bind]. intros H. injection H as H1 H2. subst b1 xb1.
  exists Xj, tb, xbj. repeat split; assumption.
Qed.

Section ShapeFacts.

Variables (y : vec) (weights : mat) (X : cube) (tol : double).
Variables (N p J nlam : nat) (n : Z) (max_iter : R).

Hypothesis Hy : length y = N.
Hypothesis HX : length X = p.
Hypothesis Hslices : Forall (fun Xj => n_rows Xj = N /\ n_cols Xj = J) X.

Lemma block_update_total (tw : vec) (b xb : mat) (j : nat) :
  (j < p)%nat -> (J <= length tw)%nat -> fit_shapes N p J b xb ->
  exists b' xb',
    block_update y X n tw (b, xb) j = Some (b', xb') /\
    fit_shapes N p J b' xb'.
Proof.
  intros Hj Htw [Hbr [Hbc [Hbw [Hxr Hxc]]]].
  unfold block_update. cbn [fst snd]. unfold slice.
  destruct (nth_error X j) as [Xj |] eqn:HXj;
    [| apply nth_error_None in HXj; lia].
  cbn [bind].
  assert (HXs : n_rows Xj = N /\ n_cols Xj = J).
  { rewrite Forall_forall in Hslices. apply Hslices.
    apply (nth_error_In _ _ HXj). }
  destruct HXs as [HXr HXc].
  unfold col at 1.
  destruct (nth_error (columns b) j) as [bj |] eqn:Hbj;
    [| apply nth_error_None in Hbj; unfold n_cols in Hbc; lia].
  cbn [bind].
  assert (Hbjl : length bj = J).
  { unfold wf_mat in Hbw. rewrite Forall_forall in Hbw.
    rewrite (Hbw bj (nth_error_In _ _ Hbj)). exact Hbr. }
  destruct (mat_vec_total Xj bj) as [Xb [HXb HXbl]]; [lia |].
  rewrite HXb. cbn [bind].
  destruct (vzip_total dsub y (row_sums xb)) as [r [Hr Hrl]];
    [rewrite length_row_sums; lia |].
  rewrite Hr. cbn [bind].
  destruct (vzip_total dadd r Xb) as [ty [Hty Htyl]]; [lia |].
  rewrite Hty. cbn [bind].
  destruct (tmat_vec_total Xj (vdivs ty (of_int n))) as [tv [Htv Htvl]];
    [rewrite length_vdivs; lia |].
  rewrite Htv. cbn [bind].
  destruct (GetProxOne_total tv tw) as [tb Htb]; [lia |].
  rewrite Htb. cbn [bind].
  pose proof (GetProxOne_length _ _ _ Htb) as Htbl.
  destruct (set_col_total b j tb) as [b' Hb']; [lia | lia |].
  rewrite Hb'. cbn [bind].
  destruct (mat_vec_total Xj tb) as [xbj [Hxbj Hxbjl]]; [lia |].
  rewrite Hxbj. cbn [bind].
  destruct (set_col_total xb j xbj) as [xb' Hxb']; [lia | lia |].
  rewrite Hxb'. cbn [bind].
  exists b', xb'. split; [reflexivity |].
  destruct (set_col_spec _ _ _ _ Hb') as [Hr1 [Hc1 _]].
  destruct (set_col_spec _ _ _ _ Hxb') as [Hr2 [Hc2 _]].
  unfold fit_shapes. split; [lia |]. split; [lia |].
  split; [apply (set_col_wf _ _ _ _ Hb' Hbw) |]. split; lia.
Qed.

Lemma sweep_total (tw : vec) (b xb : mat) :
  (J <= length tw)%nat -> fit_shapes N p J b xb ->
  exists b' xb',
    sweep y X p n tw (b, xb) = Some (b', xb') /\ fit_shapes N p J b' xb'.
Proof.
  intros Htw Hs. unfold sweep.
  destruct (for_each_total (block_update y X n tw)
              (fun st => fit_shapes N p J (fst st) (snd st))
              (seq 0 p) (b, xb)) as [[b' xb'] [Hf Hs']].
  - intros [a xa] i Hi Ha. cbn [fst snd] in Ha. apply in_seq in Hi.
    destruct (block_update_total tw a xa i) as [a' [xa' [Hb Ha']]];
      [lia | exact Htw | exact Ha |].
    exists (a', xa'). split; [exact Hb | exact Ha'].
  - exact Hs.
  - exists b', xb'. split; [exact Hf | exact Hs'].
Qed.

Lemma iteration_total (i : nat) (tw : vec) (st : fit_state) (c : Z)
  (conv : bool) :
  (i < nlam)%nat -> (J <= length tw)%nat -> state_shapes N p J nlam st ->
  exists st' c' conv',
    iteration y X tol p J n max_iter i tw (st, c, conv)
    = Some (st', c', conv') /\
    state_shapes N p J nlam st' /\
    (conv' = true \/ c' = (c + 1)%Z).
Proof.
  intros Hi Htw [Hfs [Har [Hac Haw]]].
  pose proof Hfs as [Hbr [Hbc [Hbw _]]].
  unfold iteration.
  assert (Hold : mat_of_mem (vectorise (f_beta st)) J p = Some (f_beta st))
    by (rewrite <- Hbr, <- Hbc; apply mat_of_mem_copy; exact Hbw).
  rewrite Hold. cbn [bind].
  destruct (sweep_total tw _ _ Htw Hfs) as [b' [xb' [Hsw Hfs']]].
  rewrite Hsw. cbn [bind fst snd].
  destruct (dabs (change b' (f_beta st)) <? tol)%D.
  - pose proof Hfs' as [Hbr' [Hbc' [Hbw' _]]].
    destruct (set_col_total (f_ans st) i (vectorise b')) as [a' Ha'].
    + lia.
    + rewrite length_vectorise by exact Hbw'. lia.
    + rewrite Ha'. cbn [bind].
      destruct (set_col_spec _ _ _ _ Ha') as [Hr1 [Hc1 _]].
      eexists _, _, _. split; [reflexivity |]. split; [| left; reflexivity].
      unfold state_shapes. cbn [f_beta f_x_beta f_ans].
      split; [exact Hfs' |]. split; [lia |]. split; [lia |].
      apply (set_col_wf _ _ _ _ Ha' Haw).
  - eexists _, _, _. split; [reflexivity |]. split; [| right; reflexivity].
    unfold state_shapes. cbn [f_beta f_x_beta f_ans].
    split; [exact Hfs' |]. split; [exact Har |]. split; assumption.
Qed.

(** The [while] loop returns: the counter cannot pass the least integer
    above [max_iter]. *)
Lemma while_total (fuel i : nat) (tw : vec) (st : fit_state) (c : Z)
  (conv : bool) :
  (i < nlam)%nat -> (J <= length tw)%nat -> state_shapes N p J nlam st ->
  (up max_iter - c <= Z.of_nat fuel)%Z ->
  exists s',
    while_loop y X tol p J n max_iter fuel i tw (st, c, conv) = Some s' /\
    state_shapes N p J nlam (fst (fst s')).
Proof.
  intros Hi Htw. revert st c conv.
  induction fuel as [| fuel IH]; intros st c conv Hs Hfuel;
    cbn [while_loop];
    destruct (Rltb (IZR c) max_iter && negb conv) eqn:Hc;
    try (exists (st, c, conv); split; [reflexivity | exact Hs]).
  - apply andb_prop in Hc. destruct Hc as [Hc _].
    unfold Rltb in Hc. destruct (Rlt_dec (IZR c) max_iter) as [Hlt |];
      [| discriminate].
    destruct (archimed max_iter) as [Hup _].
    assert (H : IZR c < IZR (up max_iter)) by lra.
    apply lt_IZR in H. lia.
  - apply andb_prop in Hc. destruct Hc as [Hc _].
    unfold Rltb in Hc. destruct (Rlt_dec (IZR c) max_iter) as [Hlt |];
      [| discriminate].
    destruct (archimed max_iter) as [Hup _].
    assert (H : IZR c < IZR (up max_iter)) by lra.
    apply lt_IZR in H.
    destruct (iteration_total i tw st c conv Hi Htw Hs)
      as [st' [c' [conv' [Hit [Hs' Hcase]]]]].
    rewrite Hit. cbn [bind]. destruct Hcase as [Hv | Hc'].
    + subst conv'. rewrite while_converged.
      exists (st', c', true). split; [reflexivity | exact Hs'].
    + subst c'. apply IH; [exact Hs' | lia].
Qed.

Hypothesis HW : (nlam <= n_cols weights)%nat.
Hypothesis HWrows : Forall (fun c => (J <= length c)%nat) (columns weights).

Lemma lambda_run_total (st : fit_state) (i : nat) :
  (i < nlam)%nat -> state_shapes N p J nlam st ->
  exists st',
    lambda_run y weights X tol p J n max_iter st i = Some st' /\
    state_shapes N p J nlam st'.
Proof.
  intros Hi Hs. unfold lambda_run, col.
  destruct (nth_error (columns weights) i) as [wcol |] eqn:Hw;
    [| apply nth_error_None in Hw; unfold n_cols in HW; lia].
  cbn [bind].
  assert (Hlen : (J <= length wcol)%nat).
  { rewrite Forall_forall in HWrows. apply HWrows.
    apply (nth_error_In _ _ Hw). }
  destruct (while_total (Z.to_nat (up max_iter)) i (vdivs wcol (of_int n))
              st 0%Z false) as [[[st' c'] conv'] [Hwh Hs']].
  - exact Hi.
  - rewrite length_vdivs. exact Hlen.
  - exact Hs.
  - lia.
  - rewrite Hwh. cbn [bind fst]. exists st'. split; [reflexivity | exact Hs'].
Qed.

Lemma fit_path_total (st : fit_state) :
  state_shapes N p J nlam st ->
  exists st',
    fit_path y weights X tol p J n max_iter nlam st = Some st' /\
    state_shapes N p J nlam st'.
Proof.
  intros Hs. unfold fit_path. apply for_each_total; [| exact Hs].
  intros a i Hi Ha. apply in_seq in Hi. apply lambda_run_total; [lia | exact Ha].
Qed.

End ShapeFacts.

(** X17.  [FitAdditive] returns on inputs of the shapes it reads, whatever
    the numbers in them and the tolerance, for a budget [max_iter] in the
    range of an [int] ([max_iter <= 2147483647]): with [N] observations,
    [p] blocks of [J] basis functions ([y] of length [N], [p] slices of
    [N] by [J], [beta] of [J] by [p], [x_beta] of [N] by [p]) and a column
    of at least [J] weights for each of the [nlam] lambda values, no
    operation raises an error and every [while] loop ends, with its
    counter between 0 and 2147483647.  The answer has [p * J] rows and
    [nlam] columns. *)
Theorem FitAdditive_returns_on_well_shaped_inputs
  (N p J nlam : nat) (y : vec) (W x_beta : mat) (X : cube) (beta : mat)
  (tol : double) (n : Z) (max_iter : R) :
  well_shaped N p J nlam y W x_beta X beta ->
  max_iter <= 2147483647 ->
  exists ans warned,
    FitAdditive y W x_beta X beta tol p J n nlam max_iter
    = Some (ans, warned) /\
    n_rows ans = (p * J)%nat /\ n_cols ans = nlam /\ wf_mat ans /\
    forall i st_i wcol st' c conv,
      fit_path y W X tol p J n max_iter i
        (FitState beta x_beta (zeros_mat (p * J) nlam) []) = Some st_i ->
      col W i = Some wcol ->
      while_loop y X tol p J n max_iter (Z.to_nat (up max_iter)) i
        (vdivs wcol (of_int n)) (st_i, 0%Z, false) = Some (st', c, conv) ->
      (0 <= c <= 2147483647)%Z.
Proof.
  intros [Hy HX Hsl Hbr Hbc Hbw Hxr Hxc HW HWr] Hm. unfold FitAdditive.
  destruct (fit_path_total y W X tol N p J nlam n max_iter Hy HX Hsl HW HWr
              (FitState beta x_beta (zeros_mat (p * J) nlam) []))
    as [st' [Hp [_ [Har [Hac Haw]]]]].
  - unfold state_shapes, fit_shapes. cbn [f_beta f_x_beta f_ans].
    split; [repeat split; assumption |].
    unfold zeros_mat, n_cols, wf_mat. cbn [n_rows columns].
    split; [reflexivity |]. split; [apply repeat_length |].
    apply Forall_forall. intros c Hc. apply repeat_spec in Hc. subst c.
    unfold zeros. apply repeat_length.
  - rewrite Hp. cbn [bind]. exists (f_ans st'), (f_warned st').
    split; [reflexivity |]. split; [exact Har |]. split; [exact Hac |].
    split; [exact Haw |].
    intros i st_i wcol st1 c conv _ _ Hw.
    apply (while_counter_int _ _ _ _ _ _ _ _ _ _ _ _ _ _ Hm Hw).
Qed.

Lemma FitAdditive_returns_on_well_shaped_inputs_witness :
  exists ans warned,
    FitAdditive [Fin 4] (W2 5 1) (M1 0) X1 (M1 0) (Fin (/ 2)) 1 1 1 2 (7 / 2)
    = Some (ans, warned) /\
    n_rows ans = (1 * 1)%nat /\ n_cols ans = 2%nat /\ wf_mat ans /\
    forall i st_i wcol st' c conv,
      fit_path [Fin 4] (W2 5 1) X1 (Fin (/ 2)) 1 1 1 (7 / 2) i
        (FitState (M1 0) (M1 0) (zeros_mat (1 * 1) 2) []) = Some st_i ->
      col (W2 5 1) i = Some wcol ->
      while_loop [Fin 4] X1 (Fin (/ 2)) 1 1 1 (7 / 2)
        (Z.to_nat (up (7 / 2))) i (vdivs wcol (of_int 1)) (st_i, 0%Z, false)
      = Some (st', c, conv) ->
      (0 <= c <= 2147483647)%Z.
Proof.
  apply (FitAdditive_returns_on_well_shaped_inputs 1 1 1 2 [Fin 4] (W2 5 1)
           (M1 0) X1 (M1 0) (Fin (/ 2)) 1 (7 / 2)).
  - constructor; try reflexivity.
    + constructor; [split; reflexivity | constructor].
    + unfold wf_mat. cbn [M1 columns n_rows].
      constructor; [reflexivity | constructor].
    + unfold W2. cbn [columns].
      constructor; [simpl; lia |]. constructor; [simpl; lia | constructor].
  - lra.
Defined.

Lemma lambda_run_wf (y : vec) (W : mat) (X : cube) (tol : double)
  (p J : nat) (n : Z) (max_iter : R) (st st' : fit_state) (i : nat) :
  lambda_run y W X tol p J n max_iter st i = Some st' ->
  wf_mat (f_ans st) -> wf_mat (f_ans st').
Proof.
  intros Hr Hwf.
  destruct (lambda_run_loop _ _ _ _ _ _ _ _ _ _ _ Hr)
    as [wcol [c' [v' [_ Hw]]]].
  apply (while_invariant y X tol p J n max_iter
           (fun s => wf_mat (f_ans (fst (fst s))))) in Hw.
  - exact (proj1 Hw).
  - intros [[a ca] va] [[b cb] vb] _ Pa Hi. cbn [fst snd] in *.
    destruct (iteration_cases _ _ _ _ _ _ _ _ _ _ _ _ _ _ _ Hi)
      as [old [_ [_ [[_ [_ [_ [Hset _]]]] | [_ [_ [_ [Hans _]]]]]]]].
    + apply (set_col_wf _ _ _ _ Hset Pa).
    + rewrite Hans. exact Pa.
  - exact Hwf.
Qed.

(** X18.  Whenever [FitAdditive] returns, the answer has [p * J] rows and
    one column of [p * J] entries for each of the [nlam] lambda values,
    and the weights have at least [nlam] columns. *)
Theorem FitAdditive_answer_has_a_column_for_every_lambda
  (y : vec) (W x_beta : mat) (x : cube) (beta : mat)
  (tol : double) (p J : nat) (n : Z) (nlam : nat) (max_iter : R)
  (ans : mat) (warned : list nat) :
  FitAdditive y W x_beta x beta tol p J n nlam max_iter = Some (ans, warned) ->
  n_rows ans = (p * J)%nat /\ n_cols ans = nlam /\ wf_mat ans /\
  (nlam <= n_cols W)%nat.
Proof.
  intros Hfit. pose proof Hfit as Hfit0. unfold FitAdditive in Hfit.
  destruct (fit_path y W x tol p J n max_iter nlam _) as [fin |] eqn:Hpath;
    [| discriminate].
  cbn [bind] in Hfit. injection Hfit as Ha Hw. subst ans warned.
  unfold fit_path in Hpath.
  destruct (for_each_run_frame _ _ _ _ _ _ _ _ _ _ _ Hpath)
    as [Hr [Hc _]].
  cbn [f_ans] in Hr, Hc.
  split; [rewrite Hr; reflexivity |]. split.
  { rewrite Hc. unfold n_cols, zeros_mat. cbn [columns].
    apply repeat_length. }
  split.
  - apply (for_each_invariant (lambda_run y W x tol p J n max_iter)
             (fun s => wf_mat (f_ans s)) _ _ _
             (fun a b i _ Pa Hb => lambda_run_wf _ _ _ _ _ _ _ _ _ _ _ Hb Pa))
      in Hpath; [exact Hpath |].
    unfold wf_mat, zeros_mat. cbn [f_ans n_rows columns].
    apply Forall_forall. intros c Hin.
    apply repeat_spec in Hin. subst c. apply repeat_length.
  - destruct nlam as [| k]; [lia |].
    destruct (FitAdditive_column _ _ _ _ _ _ _ _ _ _ _ _ _ k Hfit0
                ltac:(lia))
      as [st_i [st' [wcol [c [conv [_ [Hcol _]]]]]]].
    unfold col in Hcol.
    assert (Hk : nth_error (columns W) k <> None) by congruence.
    apply nth_error_Some in Hk. unfold n_cols. lia.
Qed.

Lemma FitAdditive_answer_has_a_column_for_every_lambda_witness :
  n_rows (Mat 1 [[Fin 0]; [Fin 3]]) = (1 * 1)%nat /\
  n_cols (Mat 1 [[Fin 0]; [Fin 3]]) = 2%nat /\
  wf_mat (Mat 1 [[Fin 0]; [Fin 3]]) /\
  (2 <= n_cols (W2 1 1))%nat.
Proof.
  apply (FitAdditive_answer_has_a_column_for_every_lambda [Fin 4] (W2 1 1)
           (M1 0) X1 (M1 0) (Fin (/ 2)) 1 1 1 2 1
           (Mat 1 [[Fin 0]; [Fin 3]]) [0%nat]).
  exact FitAdditive_run_1_1.
Defined.

(** X19.  With fewer columns of weights than lambda values, [FitAdditive]
    raises an error, whatever the other inputs. *)
Theorem FitAdditive_raises_an_error_without_a_column_of_weights
  (y : vec) (W x_beta : mat) (x : cube) (beta : mat)
  (tol : double) (p J : nat) (n : Z) (nlam : nat) (max_iter : R) :
  (n_cols W < nlam)%nat ->
  FitAdditive y W x_beta x beta tol p J n nlam max_iter = None.
Proof.
  intros Hlt.
  destruct (FitAdditive y W x_beta x beta tol p J n nlam max_iter)
    as [[ans warned] |] eqn:Hfit; [| reflexivity].
  destruct (FitAdditive_column _ _ _ _ _ _ _ _ _ _ _ _ _ (n_cols W) Hfit Hlt)
    as [st_i [st' [wcol [c [conv [_ [Hcol _]]]]]]].
  unfold col in Hcol.
  assert (Hk : nth_error (columns W) (n_cols W) <> None) by congruence.
  apply nth_error_Some in Hk. unfold n_cols in Hk. lia.
Qed.

Lemma FitAdditive_raises_an_error_without_a_column_of_weights_witness :
  FitAdditive [Fin 4] (Mat 1 [[Fin 1]]) (M1 0) X1 (M1 0) (Fin (/ 2))
    1 1 1 2 1
  = None.
Proof.
  apply (FitAdditive_raises_an_error_without_a_column_of_weights [Fin 4]
           (Mat 1 [[Fin 1]]) (M1 0) X1 (M1 0) (Fin (/ 2)) 1 1 1 2 1).
  unfold n_cols. simpl. lia.
Defined.

Lemma fit_path_no_budget (y : vec) (W : mat) (X : cube) (tol : double)
  (p J : nat) (n : Z) (max_iter : R) (k : nat) (st : fit_state) :
  max_iter <= 0 -> (k <= n_cols W)%nat ->
  fit_path y W X tol p J n max_iter k st = Some st.
Proof.
  intros Hm. induction k as [| k IH]; intros Hk; [reflexivity |].
  rewrite fit_path_S, IH by lia. cbn [bind]. unfold lambda_run, col.
  destruct (nth_error (columns W) k) as [wcol |] eqn:Hw;
    [| apply nth_error_None in Hw; unfold n_cols in Hk; lia].
  cbn [bind]. rewrite while_budget_spent by (simpl; lra). reflexivity.
Qed.

(** X20.  Without a budget, [max_iter <= 0], and with a column of weights
    for every lambda value, [FitAdditive] runs no sweep: it returns the
    zero matrix and raises no warning, whatever the other inputs. *)
Theorem FitAdditive_without_a_budget_returns_zeros
  (y : vec) (W x_beta : mat) (x : cube) (beta : mat)
  (tol : double) (p J : nat) (n : Z) (nlam : nat) (max_iter : R) :
  max_iter <= 0 -> (nlam <= n_cols W)%nat ->
  FitAdditive y W x_beta x beta tol p J n nlam max_iter
  = Some (zeros_mat (p * J) nlam, []).
Proof.
  intros Hm Hn. unfold FitAdditive.
  rewrite fit_path_no_budget by assumption. reflexivity.
Qed.

Lemma FitAdditive_without_a_budget_returns_zeros_witness :
  FitAdditive [Fin 4] (W2 5 1) (M1 0) X1 (M1 0) (Fin (/ 2)) 1 1 1 2 (-1)
  = Some (zeros_mat (1 * 1) 2, []).
Proof.
  apply (FitAdditive_without_a_budget_returns_zeros [Fin 4] (W2 5 1) (M1 0)
           X1 (M1 0) (Fin (/ 2)) 1 1 1 2 (-1)).
  - lra.
  - unfold n_cols. simpl. lia.
Defined.

(** ** FitAdditive: one loop of the block coordinate descent *)

Lemma block_update_consistent (y : vec) (X : cube) (n : Z) (tw : vec)
  (b xb b' xb' : mat) (j : nat) :
  block_update y X n tw (b, xb) j = Some (b', xb') ->
  (n_rows b' = n_rows b /\ n_cols b' = n_cols b /\
   n_rows xb' = n_rows xb /\ n_cols xb' = n_cols xb) /\
  block_consistent X b' xb' j /\
  (forall k, k <> j -> col b' k = col b k /\ col xb' k = col xb k).
Proof.
  intros H.
  destruct (block_update_spec _ _ _ _ _ _ _ _ _ H)
    as [Xj [tb [xbj [HXj [Hb [Hx Hxb]]]]]].
  destruct (set_col_spec _ _ _ _ Hb) as [Hr1 [Hc1 [Hj1 Ho1]]].
  destruct (set_col_spec _ _ _ _ Hxb) as [Hr2 [Hc2 [Hj2 Ho2]]].
  split; [repeat split; assumption |]. split.
  - exists Xj, tb, xbj. repeat split; assumption.
  - intros k Hk. split; [apply Ho1 | apply Ho2]; exact Hk.
Qed.

Lemma blocks_consistent (y : vec) (X : cube) (n : Z) (tw : vec) (k : nat)
  (b xb b' xb' : mat) :
  for_each (block_update y X n tw) (seq 0 k) (b, xb) = Some (b', xb') ->
  (n_rows b' = n_rows b /\ n_cols b' = n_cols b /\
   n_rows xb' = n_rows xb /\ n_cols xb' = n_cols xb) /\
  (forall j, (j < k)%nat -> block_consistent X b' xb' j) /\
  (forall j, (k <= j)%nat -> col b' j = col b j /\ col xb' j = col xb j).
Proof.
  revert b' xb'. induction k as [| k IH]; intros b' xb' H.
  - injection H as H1 H2. subst b' xb'.
    split; [repeat split; reflexivity |]. split; [intros j Hj; lia |].
    intros j _. split; reflexivity.
  - rewrite seq_S, for_each_app in H. cbn [Nat.add] in H.
    destruct (for_each _ (seq 0 k) (b, xb)) as [[b1 xb1] |]; [| discriminate].
    cbn [bind for_each] in H.
    destruct (block_update y X n tw (b1, xb1) k) as [[b2 xb2] |] eqn:Hk;
      [| discriminate].
    cbn [bind] in H. injection H as H1 H2. subst b2 xb2.
    destruct (IH b1 xb1 eq_refl) as [[D1 [D2 [D3 D4]]] [Hlt Hge]].
    destruct (block_update_consistent _ _ _ _ _ _ _ _ _ Hk)
      as [[E1 [E2 [E3 E4]]] [Hc Ho]].
    split; [repeat split; congruence |]. split.
    + intros j Hj. destruct (Nat.eq_dec j k) as [He | Hne];
        [subst j; exact Hc |].
      destruct (Hlt j ltac:(lia)) as [Xj [bj [xbj [G1 [G2 [G3 G4]]]]]].
      destruct (Ho j Hne) as [Hb Hx].
      exists Xj, bj, xbj. repeat split; congruence.
    + intros j Hj. destruct (Ho j ltac:(lia)) as [Hb Hx].
      destruct (Hge j ltac:(lia)) as [Hb1 Hx1].
      split; congruence.
Qed.

Lemma sweep_run_4_1 :
  sweep [Fin 4] X1 1 1 [Fin 1] (M1 0, M1 0) = Some (M1 3, M1 3).
Proof.
  unfold sweep. cbn [seq for_each].
  rewrite block_update_scalar by lra. rewrite soft_4_1. reflexivity.
Qed.

(** X21.  One loop of the block coordinate descent, when it returns, keeps
    the dimensions of [beta] and [x_beta], and leaves [x_beta] consistent
    with [beta]: for every block [j < p], column [j] of [x_beta] is
    [X.slice(j) * beta.col(j)].  Columns of index [p] or more are left as
    they were. *)
Theorem sweep_leaves_x_beta_consistent_with_beta
  (y : vec) (X : cube) (p : nat) (n : Z) (tw : vec) (b xb b' xb' : mat) :
  sweep y X p n tw (b, xb) = Some (b', xb') ->
  (n_rows b' = n_rows b /\ n_cols b' = n_cols b /\
   n_rows xb' = n_rows xb /\ n_cols xb' = n_cols xb) /\
  (forall j, (j < p)%nat -> block_consistent X b' xb' j) /\
  (forall j, (p <= j)%nat -> col b' j = col b j /\ col xb' j = col xb j).
Proof. unfold sweep. apply blocks_consistent. Qed.

Lemma sweep_leaves_x_beta_consistent_with_beta_witness :
  (n_rows (M1 3) = n_rows (M1 0) /\ n_cols (M1 3) = n_cols (M1 0) /\
   n_rows (M1 3) = n_rows (M1 0) /\ n_cols (M1 3) = n_cols (M1 0)) /\
  (forall j, (j < 1)%nat -> block_consistent X1 (M1 3) (M1 3) j) /\
  (forall j, (1 <= j)%nat ->
     col (M1 3) j = col (M1 0) j /\ col (M1 3) j = col (M1 0) j).
Proof.
  apply (sweep_leaves_x_beta_consistent_with_beta [Fin 4] X1 1 1 [Fin 1]
           (M1 0) (M1 0) (M1 3) (M1 3)).
  exact sweep_run_4_1.
Defined.

(** ** FitAdditive: the budget of a run *)

(** X22.  The counter of a run of the [while] loop counts the sweeps that
    did not pass the test.  With [max_iter] in the range of an [int]
    ([max_iter <= 2147483647]) the counter stays between 0 and 2147483647:
    the [int] of the source does not overflow.  A run that ends with the
    flag up has its counter below [max_iter]; a run that ends with the
    flag down has spent the budget, [max_iter <= counter], and it has run
    no sweep or its counter is below [max_iter + 1]. *)
Theorem counter_of_a_run_is_bounded_by_the_budget
  (y : vec) (X : cube) (tol : double) (p J : nat) (n : Z) (max_iter : R)
  (fuel i : nat) (tw : vec) (st st' : fit_state) (c' : Z) (conv' : bool) :
  max_iter <= 2147483647 ->
  while_loop y X tol p J n max_iter fuel i tw (st, 0%Z, false)
  = Some (st', c', conv') ->
  (0 <= c' <= 2147483647)%Z /\
  (conv' = true -> IZR c' < max_iter) /\
  (conv' = false ->
     max_iter <= IZR c' /\
     ((c' = 0%Z /\ st' = st) \/ IZR c' < max_iter + 1)).
Proof.
  intros Hm Hw.
  destruct (while_run_summary _ _ _ _ _ _ _ _ _ _ _ _ _ _ Hw)
    as [H0 [Ht Hf]].
  split; [apply (while_counter_int _ _ _ _ _ _ _ _ _ _ _ _ _ _ Hm Hw) |].
  split; [intros Hc; apply (Ht Hc) |].
  intros Hc. split; [apply (Hf Hc) |].
  destruct (Rle_dec max_iter 0) as [Hle | Hgt].
  - left. destruct (while_not_converged _ _ _ _ _ _ _ _ _ _ _ _ _
                      ltac:(subst conv'; exact Hw)) as [_ [_ Hz]].
    destruct (Hz Hle) as [Hs Hc0]. split; assumption.
  - destruct (while_counter_bound _ _ _ _ _ _ _ _ _ _ _ _ _ _ Hw)
      as [_ [Hz | Hlt]]; [| right; exact Hlt].
    right. subst c'. simpl. lra.
Qed.

Lemma counter_of_a_run_is_bounded_by_the_budget_witness :
  (0 <= 2 <= 2147483647)%Z /\
  (false = true -> IZR 2 < 3 / 2) /\
  (false = false ->
     3 / 2 <= IZR 2 /\
     ((2%Z = 0%Z /\
       FitState (M1 3) (M1 3) (zeros_mat 1 1) []
       = FitState (M1 0) (M1 0) (zeros_mat 1 1) [])
      \/ IZR 2 < 3 / 2 + 1)).
Proof.
  apply (counter_of_a_run_is_bounded_by_the_budget [Fin 4] X1 (Fin 0) 1 1 1
           (3 / 2) (Z.to_nat (up (3 / 2))) 0 [Fin 1]
           (FitState (M1 0) (M1 0) (zeros_mat 1 1) [])
           (FitState (M1 3) (M1 3) (zeros_mat 1 1) []) 2 false).
  - lra.
  - exact while_run_budget_3_2.
Defined.

(** ** solveHierBasis: when the proximal step returns *)

Lemma GetProx_returns_iff (y : vec) (W : mat) :
  wf_mat W ->
  ((exists B, GetProx y W = Some B) <->
   n_cols W = 0%nat \/ (length y <= n_rows W)%nat).
Proof.
  intros Hwf. rewrite GetProx_columns. unfold wf_mat, n_cols in *. split.
  - intros [B HB]. revert Hwf HB.
    destruct (columns W) as [| c rest]; intros Hwf HB; [left; reflexivity |].
    right. inversion Hwf as [| ? ? Hc _]; subst.
    destruct (Nat.le_gt_cases (length y) (length c)) as [Hle | Hgt];
      [lia |].
    cbn [map_opt] in HB. rewrite GetProxOne_too_few_weights in HB by lia.
    discriminate.
  - intros [H0 | Hlen].
    + destruct (columns W); [| discriminate].
      eexists. reflexivity.
    + destruct (map_opt_total (GetProxOne y) (columns W)) as [bs Hbs].
      { eapply Forall_impl; [| exact Hwf]. intros c Hc. cbv beta in Hc.
        apply GetProxOne_total. lia. }
      rewrite Hbs. eexists. reflexivity.
Qed.

(** X23.  With a [max_lambda] given and a matrix of weights whose columns
    all have [n_rows] entries, the proximal step of [solveHierBasis]
    returns exactly when the weights have [nlam] columns and, unless
    [nlam] is 0, at least as many rows as [v_temp] has entries. *)
Theorem solveHierBasis_prox_returns_exactly_on_matching_weights
  (v ak : vec) (W : mat) (r m : double) (nlam : nat) :
  wf_mat W ->
  ((exists B lambdas,
      solveHierBasis_prox v ak W r nlam (Some m) = Some (B, lambdas)) <->
   n_cols W = nlam /\ (nlam = 0%nat \/ (length v <= n_rows W)%nat)).
Proof.
  intros Hwf. unfold solveHierBasis_prox. cbn [bind].
  unfold each_row_times. rewrite length_lambda_path.
  destruct (Nat.eq_dec (n_cols W) nlam) as [He | Hne].
  - rewrite He, Nat.eqb_refl. cbn [bind].
    set (W1 := Mat (n_rows W) _).
    assert (Hwf1 : wf_mat W1).
    { unfold wf_mat, W1. cbn [n_rows columns]. apply Forall_forall.
      intros c Hc. apply in_map_iff in Hc. destruct Hc as [[w lam] [Hc Hin]].
      subst c. cbn [fst snd]. rewrite length_map.
      apply in_combine_l in Hin. unfold wf_mat in Hwf.
      rewrite Forall_forall in Hwf. apply Hwf. exact Hin. }
    assert (Hc1 : n_cols W1 = nlam).
    { unfold n_cols, W1. cbn [columns].
      rewrite length_map, length_combine, length_lambda_path.
      unfold n_cols in He. lia. }
    pose proof (GetProx_returns_iff v W1 Hwf1) as Hiff.
    rewrite Hc1 in Hiff. change (n_rows W1) with (n_rows W) in Hiff.
    split.
    + intros [B [lambdas H]]. split; [reflexivity |]. apply Hiff.
      destruct (GetProx v W1) as [B1 |]; [| discriminate].
      exists B1. reflexivity.
    + intros [_ H]. apply Hiff in H. destruct H as [B HB].
      rewrite HB. cbn [bind]. eexists _, _. reflexivity.
  - replace (n_cols W =? nlam)%nat with false
      by (symmetry; apply Nat.eqb_neq; exact Hne).
    cbn [bind]. split.
    + intros [B [lambdas H]]. discriminate.
    + intros [He _]. contradiction.
Qed.

Lemma solveHierBasis_prox_returns_exactly_on_matching_weights_witness :
  (exists B lambdas,
     solveHierBasis_prox [Fin 1] [Fin 1] (Mat 1 [[Fin 1]]) (Fin (/ 10)) 1
       (Some (Fin 1)) = Some (B, lambdas)) <->
  n_cols (Mat 1 [[Fin 1]]) = 1%nat /\
  (1%nat = 0%nat \/ (length [Fin 1] <= n_rows (Mat 1 [[Fin 1]]))%nat).
Proof.
  apply (solveHierBasis_prox_returns_exactly_on_matching_weights [Fin 1]
           [Fin 1] (Mat 1 [[Fin 1]]) (Fin (/ 10)) (Fin 1) 1).
  unfold wf_mat. cbn [columns n_rows]. constructor; [reflexivity | constructor].
Defined.

(** ** FitAdditive on finite data *)

Lemma finite_vec_map (v : vec) :
  finite_vec v -> exists l : list R, v = map Fin l.
Proof.
  induction 1 as [| x t [a Hx] _ [l IH]]; [exists []; reflexivity |].
  exists (a :: l). subst x t. reflexivity.
Qed.

Lemma map_Fin_finite (l : list R) : finite_vec (map Fin l).
Proof.
  apply Forall_forall. intros x Hx. apply in_map_iff in Hx.
  destruct Hx as [a [Hx _]]. exists a. symmetry. exact Hx.
Qed.

Lemma nonneg_vec_map (v : vec) :
  nonneg_vec v ->
  exists l : list R, v = map Fin l /\ Forall (fun a => 0 <= a) l.
Proof.
  induction 1 as [| x t [a [Ha Hx]] _ [l [IH Hl]]].
  - exists []. split; [reflexivity | constructor].
  - exists (a :: l). subst x t. split; [reflexivity |].
    constructor; assumption.
Qed.

Lemma fold_dot_finite (l : list (double * double)) (acc : double) :
  finite acc -> Forall (fun ab => finite (fst ab) /\ finite (snd ab)) l ->
  finite (fold_left (fun acc ab => acc + fst ab * snd ab)%D l acc).
Proof.
  intros Hacc Hl. revert acc Hacc.
  induction Hl as [| [a b] t [[x Ha] [z Hb]] _ IH]; intros acc [c Hc];
    [exists c; exact Hc |].
  cbn [fold_left fst snd] in *. subst a b acc. apply IH.
  eexists. reflexivity.
Qed.

Lemma dot_finite (u v : vec) :
  finite_vec u -> finite_vec v -> finite (dot u v).
Proof.
  intros Hu Hv. unfold dot. apply fold_dot_finite; [exists 0; reflexivity |].
  apply Forall_forall. intros [a b] Hin. cbn [fst snd].
  unfold finite_vec in *. rewrite Forall_forall in Hu, Hv. split.
  - apply Hu. apply (in_combine_l _ _ _ _ Hin).
  - apply Hv. apply (in_combine_r _ _ _ _ Hin).
Qed.

Lemma row_finite (M : mat) (i : nat) : finite_mat M -> finite_vec (row M i).
Proof.
  intros HM. unfold row. apply Forall_forall. intros x Hx.
  apply in_map_iff in Hx. destruct Hx as [c [Hx Hc]]. subst x.
  unfold finite_mat in HM. rewrite Forall_forall in HM.
  pose proof (HM c Hc) as Hfin. unfold finite_vec in Hfin.
  rewrite Forall_forall in Hfin.
  destruct (nth_in_or_default i c 0%D) as [Hin | Hd].
  - apply Hfin. exact Hin.
  - rewrite Hd. exists 0. reflexivity.
Qed.

Lemma mat_vec_finite (M : mat) (v r : vec) :
  mat_vec M v = Some r -> finite_mat M -> finite_vec v -> finite_vec r.
Proof.
  unfold mat_vec. destruct (n_cols M =? length v)%nat; [| discriminate].
  intros H HM Hv. injection H as H. subst r.
  apply Forall_forall. intros x Hx. apply in_map_iff in Hx.
  destruct Hx as [i [Hx _]]. subst x.
  apply dot_finite; [apply row_finite; exact HM | exact Hv].
Qed.

Lemma tmat_vec_finite (M : mat) (u r : vec) :
  tmat_vec M u = Some r -> finite_mat M -> finite_vec u -> finite_vec r.
Proof.
  unfold tmat_vec. destruct (n_rows M =? length u)%nat; [| discriminate].
  intros H HM Hu. injection H as H. subst r.
  apply Forall_forall. intros x Hx. apply in_map_iff in Hx.
  destruct Hx as [c [Hx Hc]]. subst x.
  unfold finite_mat in HM. rewrite Forall_forall in HM.
  apply dot_finite; [apply HM; exact Hc | exact Hu].
Qed.

Lemma fold_add_finite (l : vec) (acc : double) :
  finite acc -> finite_vec l -> finite (fold_left dadd l acc).
Proof.
  intros Hacc Hl. revert acc Hacc.
  induction Hl as [| x t [a Hx] _ IH]; intros acc [c Hc];
    [exists c; exact Hc |].
  cbn [fold_left]. subst x acc. apply IH. eexists. reflexivity.
Qed.

Lemma row_sums_finite (M : mat) : finite_mat M -> finite_vec (row_sums M).
Proof.
  intros HM. unfold row_sums. apply Forall_forall. intros x Hx.
  apply in_map_iff in Hx. destruct Hx as [i [Hx _]]. subst x.
  apply fold_add_finite; [exists 0; reflexivity | apply row_finite; exact HM].
Qed.

Lemma vzip_finite (f : double -> double -> double) (u v r : vec) :
  (forall a b, finite (f (Fin a) (Fin b))) ->
  vzip f u v = Some r -> finite_vec u -> finite_vec v -> finite_vec r.
Proof.
  intros Hf. unfold vzip. destruct (length u =? length v)%nat;
    [| discriminate].
  intros H Hu Hv. injection H as H. subst r.
  apply Forall_forall. intros x Hx. apply in_map_iff in Hx.
  destruct Hx as [[a b] [Hx Hin]]. subst x. cbn [fst snd].
  unfold finite_vec in *. rewrite Forall_forall in Hu, Hv.
  destruct (Hu a (in_combine_l _ _ _ _ Hin)) as [a' Ha].
  destruct (Hv b (in_combine_r _ _ _ _ Hin)) as [b' Hb].
  subst a b. apply Hf.
Qed.

Lemma vdivs_finite (v : vec) (n : Z) :
  n <> 0%Z -> finite_vec v -> finite_vec (vdivs v (of_int n)).
Proof.
  intros Hn Hv. unfold vdivs, of_int. apply Forall_forall. intros x Hx.
  apply in_map_iff in Hx. destruct Hx as [a [Hx Ha]]. subst x.
  unfold finite_vec in Hv. rewrite Forall_forall in Hv.
  destruct (Hv a Ha) as [a' Ha']. subst a. unfold ddiv.
  rewrite Reqb_false by (apply not_0_IZR; exact Hn).
  eexists. reflexivity.
Qed.

Lemma vdivs_nonneg (v : vec) (n : Z) :
  (0 < n)%Z -> nonneg_vec v -> nonneg_vec (vdivs v (of_int n)).
Proof.
  intros Hn Hv. unfold vdivs, of_int. apply Forall_forall. intros x Hx.
  apply in_map_iff in Hx. destruct Hx as [a [Hx Ha]]. subst x.
  unfold nonneg_vec in Hv. rewrite Forall_forall in Hv.
  destruct (Hv a Ha) as [a' [Hpos Ha']]. subst a. unfold ddiv.
  assert (Hn' : 0 < IZR n) by (apply IZR_lt; exact Hn).
  rewrite Reqb_false by lra.
  exists (a' / IZR n). split; [| reflexivity].
  apply Rmult_le_pos; [exact Hpos |]. left. apply Rinv_0_lt_compat. exact Hn'.
Qed.

Lemma GetProxOne_finite (tv tw tb : vec) :
  GetProxOne tv tw = Some tb -> finite_vec tv -> nonneg_vec tw ->
  finite_vec tb.
Proof.
  intros H Hv Hw.
  destruct (finite_vec_map _ Hv) as [l Hl].
  destruct (nonneg_vec_map _ Hw) as [w [Hwl Hpos]]. subst tv tw.
  destruct (Nat.le_gt_cases (length l) (length w)) as [Hle | Hgt].
  - rewrite GetProxOne_fin in H by assumption.
    injection H as H. subst tb. apply map_Fin_finite.
  - rewrite GetProxOne_too_few_weights in H by (rewrite !length_map; lia).
    discriminate.
Qed.

Lemma set_col_finite (M M' : mat) (i : nat) (v : vec) :
  set_col M i v = Some M' -> finite_mat M -> finite_vec v -> finite_mat M'.
Proof.
  unfold set_col. destruct ((i <? n_cols M)%nat && _); [| discriminate].
  intros H HM Hv. injection H as H. subst M'.
  unfold finite_mat in *. cbn [columns].
  apply Forall_list_set; assumption.
Qed.

Lemma vectorise_finite (M : mat) : finite_mat M -> finite_vec (vectorise M).
Proof.
  intros HM. unfold vectorise, finite_vec. apply Forall_concat. exact HM.
Qed.

Lemma zeros_mat_finite (r c : nat) : finite_mat (zeros_mat r c).
Proof.
  unfold finite_mat, zeros_mat. cbn [columns]. apply Forall_forall.
  intros v Hv. apply repeat_spec in Hv. subst v.
  rewrite zeros_fin. apply map_Fin_finite.
Qed.

Section FiniteFacts.

Variables (y : vec) (weights : mat) (X : cube) (tol : double).
Variables (p J : nat) (n : Z) (max_iter : R).

Hypothesis Hy : finite_vec y.
Hypothesis HX : Forall finite_mat X.
Hypothesis Hn : (0 < n)%Z.

Lemma block_update_finite (tw : vec) (b xb b' xb' : mat) (j : nat) :
  nonneg_vec tw -> finite_mat b -> finite_mat xb ->
  block_update y X n tw (b, xb) j = Some (b', xb') ->
  finite_mat b' /\ finite_mat xb'.
Proof.
  intros Htw Hb Hxb. unfold block_update. cbn [fst snd].
  destruct (slice X j) as [Xj |] eqn:HXj; [| discriminate]. cbn [bind].
  assert (HXjf : finite_mat Xj).
  { rewrite Forall_forall in HX. apply HX. apply (nth_error_In _ _ HXj). }
  destruct (col b j) as [bj |] eqn:Hbj; [| discriminate]. cbn [bind].
  assert (Hbjf : finite_vec bj).
  { unfold finite_mat in Hb. rewrite Forall_forall in Hb. apply Hb.
    apply (nth_error_In _ _ Hbj). }
  destruct (mat_vec Xj bj) as [Xb |] eqn:HXb; [| discriminate]. cbn [bind].
  pose proof (mat_vec_finite _ _ _ HXb HXjf Hbjf) as HXbf.
  destruct (vzip dsub y (row_sums xb)) as [r |] eqn:Hr; [| discriminate].
  cbn [bind].
  assert (Hrf : finite_vec r).
  { apply (vzip_finite dsub y (row_sums xb)); try assumption.
    - intros a c. eexists. reflexivity.
    - apply row_sums_finite. exact Hxb. }
  destruct (vzip dadd r Xb) as [ty |] eqn:Hty; [| discriminate]. cbn [bind].
  assert (Htyf : finite_vec ty).
  { apply (vzip_finite dadd r Xb); try assumption.
    intros a c. eexists. reflexivity. }
  destruct (tmat_vec Xj _) as [tv |] eqn:Htv; [| discriminate]. cbn [bind].
  assert (Htvf : finite_vec tv).
  { apply (tmat_vec_finite _ _ _ Htv HXjf).
    apply vdivs_finite; [lia | exact Htyf]. }
  destruct (GetProxOne tv tw) as [tb |] eqn:Htb; [| discriminate].
  cbn [bind].
  pose proof (GetProxOne_finite _ _ _ Htb Htvf Htw) as Htbf.
  destruct (set_col b j tb) as [b1 |] eqn:Hb1; [| discriminate]. cbn [bind].
  destruct (mat_vec Xj tb) as [xbj |] eqn:Hx; [| discriminate]. cbn [bind].
  destruct (set_col xb j xbj) as [xb1 |] eqn:Hxb1; [| discriminate].
  cbn [bind]. intros H. injection H as H1 H2. subst b1 xb1. split.
  - apply (set_col_finite _ _ _ _ Hb1 Hb Htbf).
  - apply (set_col_finite _ _ _ _ Hxb1 Hxb).
    apply (mat_vec_finite _ _ _ Hx HXjf Htbf).
Qed.

Lemma sweep_finite (tw : vec) (b xb b' xb' : mat) :
  nonneg_vec tw -> finite_mat b -> finite_mat xb ->
  sweep y X p n tw (b, xb) = Some (b', xb') ->
  finite_mat b' /\ finite_mat xb'.
Proof.
  intros Htw Hb Hxb H. unfold sweep in H.
  apply (for_each_invariant (block_update y X n tw)
           (fun s => finite_mat (fst s) /\ finite_mat (snd s))
           (seq 0 p) (b, xb) (b', xb')); [| split; assumption | exact H].
  intros [a xa] [a' xa'] i _ [Ha Hxa] Hbu. cbn [fst snd] in *.
  apply (block_update_finite tw a xa a' xa' i Htw Ha Hxa Hbu).
Qed.

Lemma lambda_run_finite (st st' : fit_state) (i : nat) :
  Forall nonneg_vec (columns weights) ->
  finite_mat (f_beta st) /\ finite_mat (f_x_beta st) /\ finite_mat (f_ans st) ->
  lambda_run y weights X tol p J n max_iter st i = Some st' ->
  finite_mat (f_beta st') /\ finite_mat (f_x_beta st') /\
  finite_mat (f_ans st').
Proof.
  intros HW Hst Hr.
  destruct (lambda_run_loop _ _ _ _ _ _ _ _ _ _ _ Hr)
    as [wcol [c' [v' [Hcol Hw]]]].
  assert (Htw : nonneg_vec (vdivs wcol (of_int n))).
  { apply vdivs_nonneg; [exact Hn |]. rewrite Forall_forall in HW.
    apply HW. apply (nth_error_In _ _ Hcol). }
  apply (while_invariant y X tol p J n max_iter
           (fun s => finite_mat (f_beta (fst (fst s))) /\
                     finite_mat (f_x_beta (fst (fst s))) /\
                     finite_mat (f_ans (fst (fst s))))) in Hw.
  - exact (proj1 Hw).
  - intros [[a ca] va] [[b cb] vb] _ [Pb [Px Pa]] Hi. cbn [fst snd] in *.
    destruct (iteration_cases _ _ _ _ _ _ _ _ _ _ _ _ _ _ _ Hi)
      as [old [_ [Hsw Hcases]]].
    destruct (sweep_finite _ _ _ _ _ Htw Pb Px Hsw) as [Hb' Hx'].
    split; [exact Hb' |]. split; [exact Hx' |].
    destruct Hcases as [[_ [_ [_ [Hset _]]]] | [_ [_ [_ [Hans _]]]]].
    + apply (set_col_finite _ _ _ _ Hset Pa).
      apply vectorise_finite. exact Hb'.
    + rewrite Hans. exact Pa.
  - exact Hst.
Qed.

End FiniteFacts.

(** X24.  On finite data [FitAdditive] stays finite.  If [y], the slices
    of [X] and the warm start [beta] and [x_beta] hold finite numbers, the
    weights are finite and [>= 0] and [n > 0], then every entry of the
    answer is a finite number: no NaN and no infinity, whatever the
    tolerance and the budget.  (Numbers are exact here: the overflow of a
    double is not covered.) *)
Theorem FitAdditive_answer_is_finite_on_finite_data
  (y : vec) (W x_beta : mat) (x : cube) (beta : mat)
  (tol : double) (p J : nat) (n : Z) (nlam : nat) (max_iter : R)
  (ans : mat) (warned : list nat) :
  finite_vec y -> Forall finite_mat x -> finite_mat beta ->
  finite_mat x_beta -> Forall nonneg_vec (columns W) -> (0 < n)%Z ->
  FitAdditive y W x_beta x beta tol p J n nlam max_iter = Some (ans, warned) ->
  finite_mat ans.
Proof.
  intros Hy Hx Hb Hxb HW Hn Hfit. unfold FitAdditive in Hfit.
  destruct (fit_path y W x tol p J n max_iter nlam _) as [fin |] eqn:Hpath;
    [| discriminate].
  cbn [bind] in Hfit. injection Hfit as Ha _. subst ans.
  unfold fit_path in Hpath.
  apply (for_each_invariant (lambda_run y W x tol p J n max_iter)
           (fun s => finite_mat (f_beta s) /\ finite_mat (f_x_beta s) /\
                     finite_mat (f_ans s))) in Hpath.
  - apply Hpath.
  - intros a b i _ Pa Hr.
    apply (lambda_run_finite y W x tol p J n max_iter Hy Hx Hn a b i HW Pa Hr).
  - cbn [f_beta f_x_beta f_ans]. split; [exact Hb |]. split; [exact Hxb |].
    apply zeros_mat_finite.
Qed.

Lemma FitAdditive_answer_is_finite_on_finite_data_witness :
  finite_mat (Mat 1 [[Fin 0]; [Fin 3]]).
Proof.
  apply (FitAdditive_answer_is_finite_on_finite_data [Fin 4] (W2 1 1) (M1 0)
           X1 (M1 0) (Fin (/ 2)) 1 1 1 2 1 (Mat 1 [[Fin 0]; [Fin 3]])
           [0%nat]).
  - constructor; [exists 4; reflexivity | constructor].
  - constructor; [| constructor].
    constructor; [| constructor].
    constructor; [exists 1; reflexivity | constructor].
  - constructor; [| constructor].
    constructor; [exists 0; reflexivity | constructor].
  - constructor; [| constructor].
    constructor; [exists 0; reflexivity | constructor].
  - constructor; [| constructor; [| constructor]];
      (constructor; [exists 1; split; [lra | reflexivity] | constructor]).
  - lia.
  - exact FitAdditive_run_1_1.
Defined.
